(** * datastore/entry.go: the record codec of goland-db

    A shallow embedding of [src/datastore/entry.go] and the properties of its
    wire format.

    Conventions of the embedding.
    - A Go [string] and the visible part of a [[]byte] are [list byte].
    - Go's [int] is 64 bits wide; lengths never reach 2^63, so [int]
      arithmetic is arithmetic in [Z].  The narrowing conversions the source
      writes ([uint32(..)], [uint64(..)], [int64(..)], [byte(..)]) are written
      out with their wrap-around.
    - A call either returns or panics: [result].  A method that mutates its
      receiver through a pointer is a state transformer and gives back the
      state it left behind, also when it panics.
    - [encoding/binary], [strconv], [fmt] and [bufio] are not part of the
      repository; the functions the source calls are modelled after the Go
      standard library in the modules [binary], [strconv], [fmt], [bufio]. *)

From Stdlib Require Import ZArith String List Lia Bool Permutation.
From coqutil Require Import Byte Word.LittleEndianList.
Import ListNotations.

Local Open Scope Z_scope.

(** ** Outcomes of a call *)

Inductive numError : Type :=
| ErrSyntax
| ErrRange.

Inductive panic : Type :=
| IndexOutOfRange          (* runtime error: index out of range *)
| SliceBoundsOutOfRange    (* runtime error: slice bounds out of range *)
| NilDereference           (* runtime error: invalid memory address or nil pointer dereference *)
| PanicNumError (e : numError) (* panic(err) with err a *strconv.NumError *)
| TriedToFillFullBuffer    (* panic("bufio: tried to fill full buffer") *)
| LoopBound.               (* no Go panic: the bound of a modelled loop was hit;
                              [Peek_spec] and [Discard_spec] show that it never is *)

(** Values of Go's [error] interface that the code meets. *)
Inductive error : Type :=
| EOF                      (* io.EOF *)
| ErrNoProgress            (* io.ErrNoProgress *)
| ErrBufferFull            (* bufio.ErrBufferFull *)
| ErrNegativeCount         (* bufio.ErrNegativeCount *)
| ErrShortValue (n expected : Z) (* fmt.Errorf("can't read value bytes (read %d, expected %d)") *)
| ErrSource (code : nat).  (* any other error of the underlying reader *)

Inductive result (A : Type) : Type :=
| Ok (a : A)
| Panic (p : panic).
Arguments Ok {A} a.
Arguments Panic {A} p.

Definition bind {A B} (m : result A) (k : A -> result B) : result B :=
  match m with
  | Ok a => k a
  | Panic p => Panic p
  end.

Declare Scope go_scope.
Delimit Scope go_scope with go.
Notation "x <- m ;; k" := (bind m (fun x => k))
  (at level 61, m at next level, right associativity) : go_scope.
Notation "' pat <- m ;; k" := (bind m (fun x => match x with pat => k end))
  (at level 61, pat pattern, m at next level, right associativity) : go_scope.
Local Open Scope go_scope.

(** ** Integers *)

Definition uint32 (z : Z) : Z := z mod 2 ^ 32.
Definition uint64 (z : Z) : Z := z mod 2 ^ 64.
(** [int64(u)] for a [uint64] value [u]: reinterpretation in two's complement. *)
Definition int64 (u : Z) : Z := if u <? 2 ^ 63 then u else u - 2 ^ 64.

Definition len (l : list byte) : Z := Z.of_nat (length l).

(** ** Byte slices

    A slice sees [elems] (its [len] bytes) and may be extended over [spare],
    the bytes of the backing array between [len] and [cap]. *)

Record slice : Type := mkSlice { elems : list byte; spare : list byte }.

Definition slen (s : slice) : Z := len (elems s).
Definition scap (s : slice) : Z := len (elems s) + len (spare s).

(** A slice that owns its whole backing array, as [make] returns it. *)
Definition whole (l : list byte) : slice := mkSlice l [].

(** [make([]byte, n)] *)
Definition make (n : Z) : list byte := repeat Byte.x00 (Z.to_nat n).

(** [s[i]] *)
Definition index (s : slice) (i : Z) : result byte :=
  if (0 <=? i) && (i <? slen s)
  then match nth_error (elems s) (Z.to_nat i) with
       | Some b => Ok b
       | None => Panic IndexOutOfRange
       end
  else Panic IndexOutOfRange.

(** [s[lo:]]: the bounds are checked against [len(s)]. *)
Definition slice_from (s : slice) (lo : Z) : result slice :=
  if (0 <=? lo) && (lo <=? slen s)
  then Ok (mkSlice (skipn (Z.to_nat lo) (elems s)) (spare s))
  else Panic SliceBoundsOutOfRange.

(** [s[lo:hi]]: the upper bound is checked against [cap(s)]. *)
Definition slice_range (s : slice) (lo hi : Z) : result slice :=
  if (0 <=? lo) && (lo <=? hi) && (hi <=? scap s)
  then let all := elems s ++ spare s in
       Ok (mkSlice (firstn (Z.to_nat (hi - lo)) (skipn (Z.to_nat lo) all))
                   (skipn (Z.to_nat hi) all))
  else Panic SliceBoundsOutOfRange.

(** [copy(dst, src)]: the first [min(len(dst), len(src))] bytes of [dst] are
    overwritten. *)
Definition copy (dst src : list byte) : list byte :=
  firstn (length dst) src ++ skipn (length src) dst.

(** Writing through a sub-slice [res[off:]] of a buffer [res]: [upd] is what
    the callee does to the bytes it sees. *)
Definition through (res : list byte) (off : Z)
    (upd : list byte -> result (list byte)) : result (list byte) :=
  if (0 <=? off) && (off <=? len res)
  then tl <- upd (skipn (Z.to_nat off) res) ;;
       Ok (firstn (Z.to_nat off) res ++ tl)
  else Panic SliceBoundsOutOfRange.

(** [res[i] = b] *)
Definition store (res : list byte) (i : Z) (b : byte) : result (list byte) :=
  if (0 <=? i) && (i <? len res)
  then Ok (firstn (Z.to_nat i) res ++ b :: skipn (S (Z.to_nat i)) res)
  else Panic IndexOutOfRange.

(** ** encoding/binary, little endian *)

Module binary.

(** [binary.LittleEndian.PutUint32(b, v)]: [_ = b[3]], then
    [b[0] = byte(v)], [b[1] = byte(v >> 8)], ... *)
Definition PutUint32 (v : Z) (b : list byte) : result (list byte) :=
  if 4 <=? len b then Ok (copy b (le_split 4 v)) else Panic IndexOutOfRange.

Definition PutUint64 (v : Z) (b : list byte) : result (list byte) :=
  if 8 <=? len b then Ok (copy b (le_split 8 v)) else Panic IndexOutOfRange.

(** [binary.LittleEndian.Uint32(b)]: [_ = b[3]], then
    [uint32(b[0]) | uint32(b[1])<<8 | uint32(b[2])<<16 | uint32(b[3])<<24]. *)
Definition Uint32 (b : list byte) : result Z :=
  if 4 <=? len b then Ok (le_combine (firstn 4 b)) else Panic IndexOutOfRange.

Definition Uint64 (b : list byte) : result Z :=
  if 8 <=? len b then Ok (le_combine (firstn 8 b)) else Panic IndexOutOfRange.

End binary.

(** ** strconv.ParseInt(s, 10, 64) *)

Module strconv.

(** The loop of [ParseUint] for base 10 and 64 bits, [n] the value so far.
    A byte that is no decimal digit is a syntax error; the value leaving
    [uint64] is a range error, detected where the library detects it. *)
Definition cutoff : Z := (2 ^ 64 - 1) / 10 + 1.

Fixpoint parseLoop (s : list byte) (n : Z) : Z + numError :=
  match s with
  | [] => inl n
  | c :: s' =>
      let c := byte.unsigned c in
      if (48 <=? c) && (c <=? 57) then
        let d := c - 48 in
        if cutoff <=? n then inr ErrRange
        else
          let n := uint64 (n * 10) in
          let n1 := uint64 (n + d) in
          if (n1 <? n) || (2 ^ 64 - 1 <? n1) then inr ErrRange
          else parseLoop s' n1
      else inr ErrSyntax
  end.

Definition ParseUint (s : list byte) : Z + numError :=
  match s with
  | [] => inr ErrSyntax
  | _ => parseLoop s 0
  end.

(** [ParseInt]: an optional sign, then [ParseUint]; a range error of
    [ParseUint] delivers [maxVal] and is reported by the range check here. *)
Definition ParseInt (s : list byte) : Z + numError :=
  match s with
  | [] => inr ErrSyntax
  | c :: s' =>
      let neg := Byte.eqb c Byte.x2d in
      let s1 := if Byte.eqb c Byte.x2b || neg then s' else s in
      match ParseUint s1 with
      | inr ErrSyntax => inr ErrSyntax
      | r =>
          let un := match r with inl un => un | inr _ => 2 ^ 64 - 1 end in
          let cutoff := 2 ^ 63 in
          if negb neg && (cutoff <=? un) then inr ErrRange
          else if neg && (cutoff <? un) then inr ErrRange
          else
            let n := int64 un in
            inl (if neg then int64 (uint64 (- n)) else n)
      end
  end.

End strconv.

(** ** fmt.Sprintf("%d", v) for an [int64] *)

Module fmt.

(** The digit loop of [fmtInteger], base 10: digits are produced from the
    least significant one and put in front of [acc].  A [uint64] has at
    most 20 digits, which bounds the loop. *)
Fixpoint fmtLoop (fuel : nat) (u : Z) (acc : list byte) : list byte :=
  match fuel with
  | O => acc
  | S fuel' =>
      if 10 <=? u
      then let next := u / 10 in
           fmtLoop fuel' next (byte.of_Z (48 + u - next * 10) :: acc)
      else byte.of_Z (48 + u) :: acc
  end.

Definition Sprintf_d (v : Z) : list byte :=
  let u := uint64 v in
  let negative := int64 u <? 0 in
  let u := if negative then uint64 (- u) else u in
  let digits := fmtLoop 20 u [] in
  if negative then Byte.x2d :: digits else digits.

End fmt.

(** ** io.Reader and bufio.Reader *)

Module io.

(** The byte source under a buffered reader: what its successive [Read]
    calls will deliver.  [Data d] is a run of bytes that one call can
    return (a call with a shorter buffer takes a prefix and leaves the
    rest), [Fail e] an error return; an exhausted source returns [EOF]. *)
Inductive event : Type :=
| Data (d : list byte)
| Fail (e : error).

Definition Reader : Type := list event.

(** [rd.Read(p)] with [len(p) = n]: the bytes read, the error, the source
    afterwards. *)
Definition Read (rd : Reader) (n : Z) : list byte * option error * Reader :=
  match rd with
  | [] => ([], Some EOF, [])
  | Fail e :: rd' => ([], Some e, rd')
  | Data d :: rd' =>
      if len d <=? n then (d, None, rd')
      else (firstn (Z.to_nat n) d, None, Data (skipn (Z.to_nat n) d) :: rd')
  end.

(** All bytes the source still holds. *)
Fixpoint pending (rd : Reader) : list byte :=
  match rd with
  | [] => []
  | Data d :: rd' => d ++ pending rd'
  | Fail _ :: rd' => pending rd'
  end.

End io.

Module bufio.

Record Reader : Type := mkReader {
  buf : list byte;
  r : nat;                 (* buf read position *)
  w : nat;                 (* buf write position *)
  rd : io.Reader;
  err : option error
}.

(** A slice handed out by [Peek]: it aliases [buf] from [v_off] on, so its
    bytes are those [buf] holds when they are looked at. *)
Record view : Type := mkView { v_off : nat; v_len : nat }.

Definition bytes_of (b : Reader) (v : view) : list byte :=
  firstn (v_len v) (skipn (v_off v) (buf b)).

Definition NewReaderSize (rd : io.Reader) (size : Z) : Reader :=
  mkReader (make (Z.max size 16)) 0 0 rd None.

Definition NewReader (rd : io.Reader) : Reader := NewReaderSize rd 4096.

Definition Buffered (b : Reader) : nat := (w b - r b)%nat.

Definition readErr (b : Reader) : Reader * option error :=
  (mkReader (buf b) (r b) (w b) (rd b) None, err b).

(** The first half of [fill]: slide existing data to the beginning. *)
Definition slide (b : Reader) : Reader :=
  if (0 <? r b)%nat
  then mkReader (copy (buf b) (firstn (w b - r b) (skipn (r b) (buf b))))
                0 (w b - r b) (rd b) (err b)
  else b.

(** The second half: read new data, trying [i] times. *)
Fixpoint fillLoop (i : nat) (b : Reader) : Reader :=
  match i with
  | O => mkReader (buf b) (r b) (w b) (rd b) (Some ErrNoProgress)
  | S i' =>
      let '(d, e, rd') := io.Read (rd b) (len (skipn (w b) (buf b))) in
      let b := mkReader (firstn (w b) (buf b) ++ copy (skipn (w b) (buf b)) d)
                        (r b) (w b + length d) rd' (err b) in
      match e with
      | Some e => mkReader (buf b) (r b) (w b) (rd b) (Some e)
      | None => if (0 <? length d)%nat then b else fillLoop i' b
      end
  end.

Definition maxConsecutiveEmptyReads : nat := 100.

Definition fill (b : Reader) : result Reader :=
  let b := slide b in
  if (length (buf b) <=? w b)%nat then Panic TriedToFillFullBuffer
  else Ok (fillLoop maxConsecutiveEmptyReads b).

(** The loop of [Peek]:
    [for b.w-b.r < n && b.w-b.r < len(b.buf) && b.err == nil { b.fill() }].
    Every round but the last buffers at least one more byte, which bounds
    the rounds by the size of the buffer. *)
Definition peekMore (n : Z) (b : Reader) : bool :=
  (Z.of_nat (Buffered b) <? n) && (Buffered b <? length (buf b))%nat
  && match err b with None => true | Some _ => false end.

Fixpoint peekLoop (bound : nat) (n : Z) (b : Reader) : result Reader :=
  if peekMore n b then
    match bound with
    | O => Panic LoopBound
    | S bound' => b <- fill b ;; peekLoop bound' n b
    end
  else Ok b.

Definition Peek (n : Z) (b : Reader) : result (view * option error * Reader) :=
  if n <? 0 then Ok (mkView 0 0, Some ErrNegativeCount, b)
  else
    b <- peekLoop (S (length (buf b))) n b ;;
    if len (buf b) <? n
    then Ok (mkView (r b) (Buffered b), Some ErrBufferFull, b)
    else
      if Z.of_nat (Buffered b) <? n
      then let '(b', e) := readErr b in
           Ok (mkView (r b) (Buffered b),
               Some (match e with Some e => e | None => ErrBufferFull end), b')
      else Ok (mkView (r b) (Z.to_nat n), None, b).

Definition advance (b : Reader) (k : nat) : Reader :=
  mkReader (buf b) (r b + k) (w b) (rd b) (err b).

(** The unread bytes of the stream, buffered or not: the cursor of the
    reader stands before the first of them. *)
Definition remaining (b : Reader) : list byte :=
  firstn (w b - r b) (skipn (r b) (buf b)) ++ io.pending (rd b).

(** The loop of [Discard], [remain] bytes still to skip out of [n].  Every
    round but the last skips at least one byte of the stream. *)
Fixpoint discardLoop (bound : nat) (n remain : Z) (b : Reader)
    : result (Z * option error * Reader) :=
  match bound with
  | O => Panic LoopBound
  | S bound' =>
      b <- (if (Buffered b =? 0)%nat then fill b else Ok b) ;;
      let skip := Z.min (Z.of_nat (Buffered b)) remain in
      let b := advance b (Z.to_nat skip) in
      let remain := remain - skip in
      if remain =? 0 then Ok (n, None, b)
      else match err b with
           | Some _ => let '(b', e) := readErr b in Ok (n - remain, e, b')
           | None => discardLoop bound' n remain b
           end
  end.

Definition Discard (n : Z) (b : Reader) : result (Z * option error * Reader) :=
  if n <? 0 then Ok (0, Some ErrNegativeCount, b)
  else if n =? 0 then Ok (0, None, b)
  else discardLoop (S (Z.to_nat (Z.min n (len (remaining b))))) n n b.

(** [Read(p)] with [len(p) = n]: the bytes stored into [p], from its
    front; their number is the count that Go returns. *)
Definition Read (n : Z) (b : Reader) : list byte * option error * Reader :=
  if n =? 0 then
    if (0 <? Buffered b)%nat then ([], None, b)
    else let '(b', e) := readErr b in ([], e, b')
  else
    let fromBuf (b : Reader) :=
      let src := firstn (w b - r b) (skipn (r b) (buf b)) in
      let got := if len src <=? n then src else firstn (Z.to_nat n) src in
      (got, None, advance b (length got)) in
    if (r b =? w b)%nat then
      match err b with
      | Some _ => let '(b', e) := readErr b in ([], e, b')
      | None =>
          if len (buf b) <=? n then
            (* large read, empty buffer: read directly into p *)
            let '(d, e, rd') := io.Read (rd b) n in
            (d, e, mkReader (buf b) (r b) (w b) rd' None)
          else
            (* one read *)
            let '(d, e, rd') := io.Read (rd b) (len (buf b)) in
            let b := mkReader (copy (buf b) d) 0 0 rd' e in
            if (length d =? 0)%nat
            then let '(b', e) := readErr b in ([], e, b')
            else fromBuf (mkReader (buf b) (r b) (length d) (rd b) (err b))
      end
    else fromBuf b.

(** Reachable states keep the positions inside the buffer. *)
Definition wf (b : Reader) : Prop :=
  (r b <= w b <= length (buf b))%nat /\ (16 <= length (buf b))%nat.

End bufio.

(** ** The record and its codec *)

Record Entry : Type := mkEntry {
  key : list byte;
  valueType : byte;
  value : list byte
}.

Definition set_key (e : Entry) (k : list byte) : Entry :=
  mkEntry k (valueType e) (value e).
Definition set_value (e : Entry) (v : list byte) : Entry :=
  mkEntry (key e) (valueType e) v.

(** The interface [typeOperator].  [Decode] writes through its [*Entry]
    argument; [Read] works on the reader it is given. *)
Record typeOperator : Type := mkOperator {
  Encode : Entry -> result slice;
  Decode : slice -> Entry -> Entry * result unit;
  Read : bufio.Reader -> result (list byte * option error * bufio.Reader)
}.

Definition TYPE_SIZE : Z := 1.
Definition STRING_TYPE : byte := Byte.x00.
Definition INT64_TYPE : byte := Byte.x01.

(** [encodeKey]: the buffer of the whole record with its header and key
    written, and the offset of the type tag. *)
Definition encodeKey (e : Entry) (vl : Z) : result (list byte * Z) :=
  let kl := len (key e) in
  let size := kl + TYPE_SIZE + vl + 12 in
  let res := make size in
  res <- binary.PutUint32 (uint32 size) res ;;
  res <- through res 4 (binary.PutUint32 (uint32 kl)) ;;
  res <- through res 8 (fun dst => Ok (copy dst (key e))) ;;
  Ok (res, kl + 8).

Module stringOperator.

Definition Encode (e : Entry) : result slice :=
  '(res, offset) <- encodeKey e (len (value e)) ;;
  let vl := len (value e) in
  res <- store res offset STRING_TYPE ;;
  res <- through res (offset + TYPE_SIZE) (binary.PutUint32 (uint32 vl)) ;;
  res <- through res (offset + TYPE_SIZE + 4) (fun dst => Ok (copy dst (value e))) ;;
  Ok (whole res).

Definition Decode (input : slice) (e : Entry) : Entry * result unit :=
  let kl := len (key e) in
  match (s <- slice_from input (kl + TYPE_SIZE + 8) ;; binary.Uint32 (elems s)) with
  | Panic p => (e, Panic p)
  | Ok vl =>
      let valBuf := make vl in
      match slice_range input (kl + TYPE_SIZE + 12) (kl + TYPE_SIZE + 12 + vl) with
      | Panic p => (e, Panic p)
      | Ok src => (set_value e (copy valBuf (elems src)), Ok tt)
      end
  end.

(** [data := make([]byte, valSize)] is written out where [string(data)] is
    returned, the only place that looks at it. *)
Definition Read (rd : bufio.Reader) : result (list byte * option error * bufio.Reader) :=
  '(header, err, rd) <- bufio.Peek 4 rd ;;
  match err with
  | Some e => Ok ([], Some e, rd)
  | None =>
      valSize <- binary.Uint32 (bufio.bytes_of rd header) ;;
      '(_, err, rd) <- bufio.Discard 4 rd ;;
      match err with
      | Some e => Ok ([], Some e, rd)
      | None =>
          let '(got, err, rd) := bufio.Read valSize rd in
          let n := len got in
          match err with
          | Some e => Ok ([], Some e, rd)
          | None =>
              if negb (n =? valSize) then Ok ([], Some (ErrShortValue n valSize), rd)
              else Ok (copy (make valSize) got, None, rd)
          end
      end
  end.

Definition self : typeOperator := mkOperator Encode Decode Read.

End stringOperator.

Module int64Operator.

Definition Encode (e : Entry) : result slice :=
  '(res, offset) <- encodeKey e 8 ;;
  match strconv.ParseInt (value e) with
  | inr err => Panic (PanicNumError err)
  | inl i =>
      res <- store res offset INT64_TYPE ;;
      res <- through res (offset + TYPE_SIZE) (binary.PutUint64 (uint64 i)) ;;
      Ok (whole res)
  end.

Definition Decode (input : slice) (e : Entry) : Entry * result unit :=
  let kl := len (key e) in
  match (s <- slice_range input (kl + TYPE_SIZE + 8) (kl + TYPE_SIZE + 16) ;;
         binary.Uint64 (elems s)) with
  | Panic p => (e, Panic p)
  | Ok value => (set_value e (fmt.Sprintf_d (int64 value)), Ok tt)
  end.

Definition Read (rd : bufio.Reader) : result (list byte * option error * bufio.Reader) :=
  '(data, err, rd) <- bufio.Peek 8 rd ;;
  match err with
  | Some e => Ok ([], Some e, rd)
  | None =>
      value <- binary.Uint64 (bufio.bytes_of rd data) ;;
      Ok (fmt.Sprintf_d (int64 value), None, rd)
  end.

Definition self : typeOperator := mkOperator Encode Decode Read.

End int64Operator.

(** ** The registries *)

(** A Go string literal. *)
Definition str (s : String.string) : list byte := String.list_byte_of_string s.

Definition bytes_eqb (a b : list byte) : bool :=
  if list_eq_dec Byte.byte_eq_dec a b then true else false.

(** A Go map literal with its entries in the order of the source text. *)
Definition typeToByte : list (list byte * byte) :=
  [ (str "string"%string, STRING_TYPE);
    (str "int64"%string, INT64_TYPE) ].

(** [m[k]], the zero value when [k] is absent. *)
Definition ToByte (valueType : list byte) : byte :=
  match find (fun kv => bytes_eqb (fst kv) valueType) typeToByte with
  | Some kv => snd kv
  | None => Byte.x00
  end.

(** [for k, v := range typeToByte] visits the entries in an order that Go
    leaves open: [order] is the order of one run. *)
Definition ToType_in (order : list (list byte * byte)) (value : byte) : list byte :=
  match find (fun kv => Byte.eqb (snd kv) value) order with
  | Some kv => fst kv
  | None => []
  end.

(** The run that visits the entries in the order of the source text. *)
Definition ToType (value : byte) : list byte := ToType_in typeToByte value.

Definition operators (t : byte) : option typeOperator :=
  if Byte.eqb t STRING_TYPE then Some stringOperator.self
  else if Byte.eqb t INT64_TYPE then Some int64Operator.self
  else None.

(** ** Entry.Encode, Entry.Decode, readValue *)

(** Calling a method of the nil interface value that a map miss yields
    panics. *)
Definition Entry_Encode (e : Entry) : result slice :=
  match operators (valueType e) with
  | Some operator => Encode operator e
  | None => Panic NilDereference
  end.

(** [kl] is a [uint32], and so is [kl+8]. *)
Definition Entry_Decode (input : slice) (e : Entry) : Entry * result unit :=
  match (s <- slice_from input 4 ;; binary.Uint32 (elems s)) with
  | Panic p => (e, Panic p)
  | Ok kl =>
      let keyBuf := make kl in
      match slice_range input 8 (uint32 (kl + 8)) with
      | Panic p => (e, Panic p)
      | Ok src =>
          let e := set_key e (copy keyBuf (elems src)) in
          match index input (uint32 (kl + 8)) with
          | Panic p => (e, Panic p)
          | Ok typeValue =>
              match operators typeValue with
              | Some operator => Decode operator input e
              | None => (e, Panic NilDereference)
              end
          end
      end
  end.

Record output : Type := mkOutput { o_valueType : list byte; o_value : list byte }.

(** [header] and [valueType] are slices into the buffer of the reader: the
    tag that selects the operator is read before [operator.Read] is called,
    the tag that is turned into the type name after it. *)

Definition readValue_in (order : list (list byte * byte)) (rd : bufio.Reader)
    : result (output * option error * bufio.Reader) :=
  '(header, err, rd) <- bufio.Peek 8 rd ;;
  match err with
  | Some e => Ok (mkOutput [] [], Some e, rd)
  | None =>
      keySize <- (s <- slice_from (whole (bufio.bytes_of rd header)) 4 ;;
                  binary.Uint32 (elems s)) ;;
      '(_, err, rd) <- bufio.Discard (keySize + 8) rd ;;
      match err with
      | Some e => Ok (mkOutput [] [], Some e, rd)
      | None =>
          '(valueType, err, rd) <- bufio.Peek 1 rd ;;
          match err with
          | Some e => Ok (mkOutput [] [], Some e, rd)
          | None =>
              '(_, err, rd) <- bufio.Discard 1 rd ;;
              match err with
              | Some e => Ok (mkOutput [] [], Some e, rd)
              | None =>
                  t <- index (whole (bufio.bytes_of rd valueType)) 0 ;;
                  match operators t with
                  | None => Panic NilDereference
                  | Some operator =>
                      '(data, err, rd) <- Read operator rd ;;
                      match err with
                      | Some e => Ok (mkOutput [] [], Some e, rd)
                      | None =>
                          t' <- index (whole (bufio.bytes_of rd valueType)) 0 ;;
                          Ok (mkOutput (ToType_in order t') data, None, rd)
                      end
                  end
              end
          end
      end
  end.

Definition readValue : bufio.Reader -> result (output * option error * bufio.Reader) :=
  readValue_in typeToByte.

(** * Vocabulary of the properties *)

(** ** Proof steps *)

(** Settling the bounds checks of the code: a test is replaced by the truth
    value that linear arithmetic gives it. *)
Ltac bool_to_prop_in H :=
  repeat first
    [ rewrite andb_true_iff in H | rewrite orb_true_iff in H | rewrite negb_true_iff in H
    | rewrite andb_false_iff in H | rewrite orb_false_iff in H | rewrite negb_false_iff in H
    | rewrite Z.leb_le in H | rewrite Z.ltb_lt in H | rewrite Z.eqb_eq in H
    | rewrite Z.leb_gt in H | rewrite Z.ltb_ge in H | rewrite Z.eqb_neq in H
    | rewrite Nat.leb_le in H | rewrite Nat.ltb_lt in H | rewrite Nat.eqb_eq in H
    | rewrite Nat.leb_gt in H | rewrite Nat.ltb_ge in H | rewrite Nat.eqb_neq in H ].

Ltac settle c :=
  let E := fresh "E" in
  destruct c eqn:E;
  [ try (exfalso; bool_to_prop_in E; unfold len in *; lia)
  | try (exfalso; bool_to_prop_in E; unfold len in *; lia) ].

Ltac settle_if :=
  match goal with
  | |- context [if ?c then _ else _] => settle c
  end.

(** ** Records and their wire image *)

(** The layout that the two [Encode] methods produce: the [size] and the
    key length in 4 bytes each, the key, the tag, the value encoding. *)
Definition wire (size : Z) (k : list byte) (t : byte) (payload : list byte) : list byte :=
  le_split 4 (uint32 size) ++ le_split 4 (uint32 (len k)) ++ k ++ t :: payload.

(** The wire image of a record, and of a sequence of records that follow
    each other without a gap. *)
Definition encoded (e : Entry) : list byte :=
  match Entry_Encode e with
  | Ok buf => elems buf
  | Panic _ => []
  end.

Definition stream (es : list Entry) : list byte := flat_map encoded es.

(** A STRING record whose key and value lengths fit their 4-byte fields. *)
Definition string_record (e : Entry) : Prop :=
  valueType e = STRING_TYPE /\ len (key e) < 2 ^ 32 /\ len (value e) < 2 ^ 32.

(** The range of Go's [int64], and the bytes "0" to "9". *)
Definition in_int64 (v : Z) : Prop := - 2 ^ 63 <= v < 2 ^ 63.

Definition is_digit (c : byte) : Prop := 48 <= byte.unsigned c <= 57.

(** The zero value [Entry{}]. *)
Definition zeroEntry : Entry := mkEntry [] Byte.x00 [].

(** The records of the examples. *)
Definition alice : Entry := mkEntry (str "user:1"%string) STRING_TYPE (str "alice"%string).

Definition bob : Entry := mkEntry (str "user:2"%string) STRING_TYPE (str "bob"%string).

Definition counter : Entry := mkEntry (str "ctr"%string) INT64_TYPE (str "42"%string).

(** The wire image of the key "ctr" with the unregistered tag 7 and twelve
    more bytes. *)
Definition tag7 : slice :=
  whole (le_split 4 24 ++ le_split 4 3 ++ str "ctr"%string ++ Byte.x07 :: make 12).

(** ** Keys at the limits of the 4-byte fields *)

(** A key of 2^32 - 13 zero bytes: with an empty STRING value the record
    takes 2^32 bytes, one more than its 4-byte size field can say. *)
Definition hugeKey : list byte := make (2 ^ 32 - 13).

(** A key of 2^32 - 8 zero bytes: its length fits the 4-byte field, and
    [kl+8] does not fit [uint32]. *)
Definition longKey : list byte := make (2 ^ 32 - 8).

(** A key of 2^32 zero bytes: its length field wraps around to 0. *)
Definition wrapKey : list byte := make (2 ^ 32).

(** The first 16 bytes of the wire image of the STRING record with the key
    [wrapKey] and an empty value, and the bytes after them. *)
Definition wrapHead : list byte := le_split 4 13 ++ le_split 4 0 ++ make 8.

Definition wrapTail : list byte := make (2 ^ 32 - 8) ++ STRING_TYPE :: le_split 4 0.

(** ** Truncation *)

(** The two run-time faults of an access outside a slice. *)
Definition bounds_panic (p : panic) : Prop :=
  p = IndexOutOfRange \/ p = SliceBoundsOutOfRange.

(** The first [n] bytes of a buffer, in a slice of their own. *)
Definition truncated (n : nat) (buf : slice) : slice := whole (firstn n (elems buf)).

(** The first [n] bytes of a buffer in a slice that keeps the backing array,
    [buf[:n]] in Go. *)
Definition resliced (n : nat) (buf : slice) : slice :=
  mkSlice (firstn n (elems buf)) (skipn n (elems buf) ++ spare buf).

(** ** Readers *)

(** The bytes between the read and the write position. *)
Definition buffered (b : bufio.Reader) : list byte :=
  skipn (bufio.r b) (firstn (bufio.w b) (bufio.buf b)).

(** What a round of reading leaves: the buffer has grown by [add], which
    has left the source. *)
Record grown (b b' : bufio.Reader) (old add : list byte) : Prop := mkGrown {
  g_r : bufio.r b' = bufio.r b;
  g_len : length (bufio.buf b') = length (bufio.buf b);
  g_w : (bufio.w b' <= length (bufio.buf b'))%nat;
  g_data : firstn (bufio.w b') (bufio.buf b') = old ++ add;
  g_src : add ++ io.pending (bufio.rd b') = io.pending (bufio.rd b);
  g_progress : bufio.err b' = None -> add <> []
}.

(** [b'] is [b] after [c] has been read off the stream (and, maybe, more
    of the stream has been buffered). *)
Definition consumed (b b' : bufio.Reader) (c : list byte) : Prop :=
  bufio.wf b' /\ length (bufio.buf b') = length (bufio.buf b)
  /\ bufio.remaining b = c ++ bufio.remaining b'.

(** [k] calls of [readValue] in a row, all of them successful: the values
    they return and the reader they leave. *)
Fixpoint readValues (k : nat) (rd : bufio.Reader) : option (list output * bufio.Reader) :=
  match k with
  | O => Some ([], rd)
  | S k' =>
      match readValue rd with
      | Ok (out, None, rd') =>
          match readValues k' rd' with
          | Some (outs, rd'') => Some (out :: outs, rd'')
          | None => None
          end
      | _ => None
      end
  end.

(** A reader that has taken the header, the key and the tag of the record
    [counter] off a stream on which [alice] follows. *)
Definition afterTag : bufio.Reader :=
  match bufio.Discard 12 (bufio.NewReader [io.Data (stream [counter; alice])]) with
  | Ok (_, _, rd) => rd
  | Panic _ => bufio.NewReader []
  end.

(** ** What a call of readValue finds on the stream *)

(** [v] is the value of the record at the head of [before], and [after] is
    what a reader that has read the record as [readValue] does has left: 8
    bytes of header, of which the last 4 give the length of the key, the
    key, the tag; then, for STRING, 4 bytes of length and the value, all
    taken; for INT64, the 8 bytes of the integer, which stay on the
    stream. *)
Definition record_read (before after v : list byte) : Prop :=
  exists h k t,
    length h = 8%nat /\ len k = le_combine (skipn 4 h)
    /\ ((t = STRING_TYPE
         /\ exists hdr, length hdr = 4%nat /\ len v = le_combine hdr
                        /\ before = h ++ k ++ t :: hdr ++ v ++ after)
        \/ (t = INT64_TYPE
            /\ before = h ++ k ++ t :: after /\ 8 <= len after
            /\ v = fmt.Sprintf_d (int64 (le_combine (firstn 8 after))))).

(** The stream starts with a header, a key of the length that the header
    gives and a tag that has no operator. *)
Definition unregistered_ahead (s : list byte) : Prop :=
  exists h k t rest,
    length h = 8%nat /\ len k = le_combine (skipn 4 h)
    /\ s = h ++ k ++ t :: rest /\ operators t = None.

(** ** What Decode finds in a buffer *)

(** The bytes [all] start with a record of key [k] and value text [v]: 8
    bytes of header, of which the last 4 give the length of the key, the
    key, the tag; then, for STRING, 4 bytes of length and the value; for
    INT64, the 8 bytes of the integer that [v] is the decimal form of. *)
Definition record_at (all k v : list byte) : Prop :=
  exists h t rest,
    length h = 8%nat /\ len k = le_combine (skipn 4 h)
    /\ all = h ++ k ++ t :: rest
    /\ ((t = STRING_TYPE
         /\ exists hdr tail, length hdr = 4%nat /\ len v = le_combine hdr
                             /\ rest = hdr ++ v ++ tail)
        \/ (t = INT64_TYPE
            /\ exists x tail, length x = 8%nat /\ rest = x ++ tail
                              /\ v = fmt.Sprintf_d (int64 (le_combine x)))).

(** * Properties *)

(** ** Lists, slices and little-endian fields *)

Lemma len_app (a b : list byte) : len (a ++ b) = len a + len b.
Proof. unfold len. rewrite length_app. lia. Qed.

Lemma len_nonneg (a : list byte) : 0 <= len a.
Proof. unfold len. lia. Qed.

Lemma len_make (n : Z) : 0 <= n -> len (make n) = n.
Proof. intros H. unfold len, make. rewrite repeat_length. lia. Qed.

Lemma len_le_split (n : nat) (v : Z) : len (le_split n v) = Z.of_nat n.
Proof. unfold len. now rewrite length_le_split. Qed.

Lemma make_add (a b : Z) : 0 <= a -> 0 <= b -> make (a + b) = make a ++ make b.
Proof.
  intros Ha Hb. unfold make. rewrite Z2Nat.inj_add by assumption.
  apply repeat_app.
Qed.

Lemma to_nat_len (a : list byte) (n : Z) : len a = n -> Z.to_nat n = length a.
Proof. unfold len. lia. Qed.

Lemma copy_exact (h t src : list byte) :
  length h = length src -> copy (h ++ t) src = src ++ t.
Proof.
  intros H. unfold copy. rewrite length_app.
  rewrite firstn_all2 by lia.
  rewrite <- H, skipn_app, skipn_all, Nat.sub_diag. reflexivity.
Qed.

Lemma copy_same_length (dst src : list byte) :
  length dst = length src -> copy dst src = src.
Proof.
  intros H. rewrite <- (app_nil_r dst), copy_exact by assumption.
  apply app_nil_r.
Qed.

Lemma through_app (a t : list byte) (off : Z) upd :
  len a = off ->
  through (a ++ t) off upd = (t' <- upd t ;; Ok (a ++ t')).
Proof.
  intros H. unfold through.
  pose proof (len_nonneg a). pose proof (len_nonneg t).
  rewrite len_app.
  replace ((0 <=? off) && (off <=? len a + len t)) with true
    by (symmetry; apply andb_true_iff; split; apply Z.leb_le; lia).
  rewrite (to_nat_len a off H).
  rewrite skipn_app, skipn_all, Nat.sub_diag, firstn_app, firstn_all, Nat.sub_diag.
  simpl. now rewrite app_nil_r.
Qed.

Lemma store_app (a t : list byte) (x b : byte) (i : Z) :
  len a = i -> store (a ++ x :: t) i b = Ok (a ++ b :: t).
Proof.
  intros H. unfold store.
  pose proof (len_nonneg a). pose proof (len_nonneg t).
  rewrite len_app. change (x :: t) with ([x] ++ t). rewrite len_app.
  change (len [x]) with 1.
  replace ((0 <=? i) && (i <? len a + (1 + len t))) with true
    by (symmetry; apply andb_true_iff; split; [apply Z.leb_le | apply Z.ltb_lt]; lia).
  rewrite (to_nat_len a i H).
  rewrite firstn_app, firstn_all, Nat.sub_diag. simpl firstn. rewrite app_nil_r.
  replace (S (length a)) with (length (a ++ [x])) by (rewrite length_app; simpl; lia).
  rewrite app_assoc, skipn_app, skipn_all, Nat.sub_diag. reflexivity.
Qed.

Lemma PutUint32_exact (v : Z) (h t : list byte) :
  length h = 4%nat -> binary.PutUint32 v (h ++ t) = Ok (le_split 4 v ++ t).
Proof.
  intros H. unfold binary.PutUint32.
  pose proof (len_nonneg t).
  rewrite len_app. unfold len at 1. rewrite H.
  replace (4 <=? Z.of_nat 4 + len t) with true by (symmetry; apply Z.leb_le; lia).
  rewrite copy_exact by (now rewrite length_le_split). reflexivity.
Qed.

Lemma PutUint64_exact (v : Z) (h t : list byte) :
  length h = 8%nat -> binary.PutUint64 v (h ++ t) = Ok (le_split 8 v ++ t).
Proof.
  intros H. unfold binary.PutUint64.
  pose proof (len_nonneg t).
  rewrite len_app. unfold len at 1. rewrite H.
  replace (8 <=? Z.of_nat 8 + len t) with true by (symmetry; apply Z.leb_le; lia).
  rewrite copy_exact by (now rewrite length_le_split). reflexivity.
Qed.

(** ** The wire image of a record *)

Lemma encodeKey_eq (e : Entry) (vl : Z) :
  0 <= vl ->
  encodeKey e vl =
    Ok (le_split 4 (uint32 (len (key e) + TYPE_SIZE + vl + 12))
          ++ le_split 4 (uint32 (len (key e))) ++ key e ++ make (TYPE_SIZE + vl + 4),
        len (key e) + 8).
Proof.
  intros Hvl. unfold encodeKey, TYPE_SIZE.
  pose proof (len_nonneg (key e)) as Hk.
  replace (len (key e) + 1 + vl + 12)
    with (4 + (4 + (len (key e) + (1 + vl + 4)))) by lia.
  rewrite !make_add by lia.
  rewrite PutUint32_exact by reflexivity. cbn [bind].
  rewrite (through_app (le_split 4 _)) by apply len_le_split.
  rewrite PutUint32_exact by reflexivity. cbn [bind].
  rewrite app_assoc.
  rewrite through_app by (rewrite len_app, !len_le_split; reflexivity).
  cbn [bind].
  rewrite copy_exact by (unfold make; rewrite repeat_length; unfold len; lia).
  rewrite <- app_assoc. reflexivity.
Qed.

Lemma make_1 : make 1 = [Byte.x00].
Proof. reflexivity. Qed.

Lemma stringOperator_Encode_eq (e : Entry) :
  stringOperator.Encode e =
    Ok (whole (wire (len (key e) + 1 + len (value e) + 12) (key e) STRING_TYPE
                 (le_split 4 (uint32 (len (value e))) ++ value e))).
Proof.
  unfold stringOperator.Encode, wire.
  pose proof (len_nonneg (key e)) as Hk. pose proof (len_nonneg (value e)) as Hv.
  rewrite encodeKey_eq by assumption. cbn [bind]. unfold TYPE_SIZE.
  replace (1 + len (value e) + 4) with (1 + (4 + len (value e))) by lia.
  rewrite !make_add by lia. rewrite make_1.
  set (h1 := le_split 4 (uint32 (len (key e) + 1 + len (value e) + 12))).
  set (h2 := le_split 4 (uint32 (len (key e)))).
  assert (Hh : len (h1 ++ h2 ++ key e) = len (key e) + 8)
    by (rewrite !len_app; unfold h1, h2; rewrite !len_le_split; lia).
  replace (h1 ++ h2 ++ key e ++ [Byte.x00] ++ make 4 ++ make (len (value e)))
    with ((h1 ++ h2 ++ key e) ++ Byte.x00 :: make 4 ++ make (len (value e)))
    by (rewrite <- !app_assoc; reflexivity).
  rewrite store_app by assumption. cbn [bind].
  replace ((h1 ++ h2 ++ key e) ++ STRING_TYPE :: make 4 ++ make (len (value e)))
    with (((h1 ++ h2 ++ key e) ++ [STRING_TYPE]) ++ make 4 ++ make (len (value e)))
    by (rewrite <- !app_assoc; reflexivity).
  assert (Hh1 : len ((h1 ++ h2 ++ key e) ++ [STRING_TYPE]) = len (key e) + 8 + 1)
    by (rewrite len_app, Hh; reflexivity).
  rewrite through_app by exact Hh1.
  rewrite PutUint32_exact by reflexivity. cbn [bind].
  rewrite app_assoc.
  rewrite through_app by (rewrite len_app, Hh1, len_le_split; reflexivity).
  cbn [bind].
  rewrite copy_same_length by (unfold make; rewrite repeat_length; unfold len; lia).
  rewrite <- !app_assoc. reflexivity.
Qed.

Lemma int64Operator_Encode_eq (e : Entry) (i : Z) :
  strconv.ParseInt (value e) = inl i ->
  int64Operator.Encode e =
    Ok (whole (wire (len (key e) + 1 + 8 + 12) (key e) INT64_TYPE
                 (le_split 8 (uint64 i) ++ make 4))).
Proof.
  intros Hp. unfold int64Operator.Encode, wire.
  pose proof (len_nonneg (key e)) as Hk.
  rewrite encodeKey_eq by lia. cbn [bind]. rewrite Hp. unfold TYPE_SIZE.
  replace (1 + 8 + 4) with (1 + (8 + 4)) by lia.
  rewrite !make_add by lia. rewrite make_1.
  set (h1 := le_split 4 (uint32 (len (key e) + 1 + 8 + 12))).
  set (h2 := le_split 4 (uint32 (len (key e)))).
  assert (Hh : len (h1 ++ h2 ++ key e) = len (key e) + 8)
    by (rewrite !len_app; unfold h1, h2; rewrite !len_le_split; lia).
  replace (h1 ++ h2 ++ key e ++ [Byte.x00] ++ make 8 ++ make 4)
    with ((h1 ++ h2 ++ key e) ++ Byte.x00 :: make 8 ++ make 4)
    by (rewrite <- !app_assoc; reflexivity).
  rewrite store_app by assumption. cbn [bind].
  replace ((h1 ++ h2 ++ key e) ++ INT64_TYPE :: make 8 ++ make 4)
    with (((h1 ++ h2 ++ key e) ++ [INT64_TYPE]) ++ make 8 ++ make 4)
    by (rewrite <- !app_assoc; reflexivity).
  rewrite through_app by (rewrite len_app, Hh; reflexivity).
  rewrite PutUint64_exact by reflexivity. cbn [bind].
  rewrite <- !app_assoc. reflexivity.
Qed.

Lemma int64Operator_Encode_panics (e : Entry) (err : numError) :
  strconv.ParseInt (value e) = inr err ->
  int64Operator.Encode e = Panic (PanicNumError err).
Proof.
  intros Hp. unfold int64Operator.Encode.
  rewrite encodeKey_eq by lia. cbn [bind]. now rewrite Hp.
Qed.

Lemma len_wire size k t payload : len (wire size k t payload) = len k + 1 + len payload + 8.
Proof.
  unfold wire. rewrite !len_app, !len_le_split.
  change (t :: payload) with ([t] ++ payload). rewrite len_app.
  change (len [t]) with 1. lia.
Qed.

Lemma uint32_small (z : Z) : 0 <= z < 2 ^ 32 -> uint32 z = z.
Proof. intros H. unfold uint32. now apply Z.mod_small. Qed.

Lemma Uint32_le_split (v : Z) (t : list byte) :
  binary.Uint32 (le_split 4 v ++ t) = Ok (uint32 v).
Proof.
  unfold binary.Uint32. rewrite len_app, len_le_split.
  pose proof (len_nonneg t). settle_if.
  rewrite firstn_app, length_le_split, Nat.sub_diag, firstn_O, app_nil_r.
  rewrite firstn_all2 by (rewrite length_le_split; lia).
  rewrite le_combine_split. reflexivity.
Qed.

Lemma Uint64_le_split (v : Z) (t : list byte) :
  binary.Uint64 (le_split 8 v ++ t) = Ok (uint64 v).
Proof.
  unfold binary.Uint64. rewrite len_app, len_le_split.
  pose proof (len_nonneg t). settle_if.
  rewrite firstn_app, length_le_split, Nat.sub_diag, firstn_O, app_nil_r.
  rewrite firstn_all2 by (rewrite length_le_split; lia).
  rewrite le_combine_split. reflexivity.
Qed.

Lemma skipn_app_exact (a t : list byte) (n : nat) :
  length a = n -> skipn n (a ++ t) = t.
Proof. intros <-. now rewrite skipn_app, skipn_all, Nat.sub_diag. Qed.

Lemma firstn_app_exact (a t : list byte) (n : nat) :
  length a = n -> firstn n (a ++ t) = a.
Proof. intros <-. now rewrite firstn_app, firstn_all, Nat.sub_diag, firstn_O, app_nil_r. Qed.

Lemma nth_error_app_exact (a t : list byte) (x : byte) (n : nat) :
  length a = n -> nth_error (a ++ x :: t) n = Some x.
Proof. intros <-. rewrite nth_error_app2 by lia. now rewrite Nat.sub_diag. Qed.

(** [stringOperator.Decode] behind a prefix of the right length: the length
    field decides, and the value may come from beyond [len(input)] when the
    slice has spare capacity. *)
Lemma stringOperator_Decode_at (pre rest sp : list byte) (vl : Z) (e : Entry) :
  len pre = len (key e) + 9 -> 0 <= vl < 2 ^ 32 ->
  stringOperator.Decode (mkSlice (pre ++ le_split 4 vl ++ rest) sp) e =
    if vl <=? len rest + len sp
    then (set_value e (firstn (Z.to_nat vl) (rest ++ sp)), Ok tt)
    else (e, Panic SliceBoundsOutOfRange).
Proof.
  intros Hpre Hvl. unfold stringOperator.Decode, TYPE_SIZE.
  pose proof (len_nonneg (key e)) as Hk0. pose proof (len_nonneg rest) as Hr0.
  pose proof (len_nonneg sp) as Hs0.
  unfold slice_from, slice_range, scap, slen. cbn [elems spare].
  rewrite !len_app, len_le_split, Hpre.
  settle_if. cbn [bind elems].
  rewrite skipn_app_exact by (unfold len in *; lia).
  rewrite Uint32_le_split, uint32_small by assumption.
  destruct (vl <=? len rest + len sp) eqn:Hfit; bool_to_prop_in Hfit.
  - settle_if. cbn [elems].
    replace ((pre ++ le_split 4 vl ++ rest) ++ sp)
      with ((pre ++ le_split 4 vl) ++ rest ++ sp)
      by (rewrite <- !app_assoc; reflexivity).
    rewrite skipn_app_exact
      by (rewrite length_app, length_le_split; unfold len in *; lia).
    replace (len (key e) + 1 + 12 + vl - (len (key e) + 1 + 12)) with vl by lia.
    rewrite copy_same_length; [reflexivity |].
    unfold make. rewrite repeat_length, length_firstn, length_app.
    unfold len in *. lia.
  - settle_if. reflexivity.
Qed.

Lemma int64Operator_Decode_at (pre rest sp : list byte) (e : Entry) :
  len pre = len (key e) + 9 ->
  int64Operator.Decode (mkSlice (pre ++ rest) sp) e =
    if 8 <=? len rest + len sp
    then (set_value e (fmt.Sprintf_d (int64 (le_combine (firstn 8 (rest ++ sp))))), Ok tt)
    else (e, Panic SliceBoundsOutOfRange).
Proof.
  intros Hpre. unfold int64Operator.Decode, TYPE_SIZE.
  pose proof (len_nonneg (key e)) as Hk0. pose proof (len_nonneg rest) as Hr0.
  pose proof (len_nonneg sp) as Hs0.
  unfold slice_range, scap. cbn [elems spare].
  rewrite !len_app, Hpre.
  destruct (8 <=? len rest + len sp) eqn:Hfit; bool_to_prop_in Hfit.
  - settle_if. cbn [bind elems].
    rewrite <- app_assoc.
    rewrite skipn_app_exact by (unfold len in *; lia).
    replace (len (key e) + 1 + 16 - (len (key e) + 1 + 8)) with 8 by lia.
    change (Z.to_nat 8) with 8%nat.
    unfold binary.Uint64.
    assert (Hl : len (firstn 8 (rest ++ sp)) = 8).
    { unfold len. rewrite length_firstn, length_app. unfold len in *. lia. }
    rewrite Hl. cbn [Z.leb Z.compare Pos.compare Pos.compare_cont].
    rewrite firstn_firstn. reflexivity.
  - settle_if. reflexivity.
Qed.

(** *** Buffers that start with a header

    The first 4 bytes are not looked at by [Decode]; the next 4 give the
    length of a key [k] that is short enough for [kl+8] to stay in
    [uint32]. *)
Section Header.

Variables h1 k : list byte.
Hypothesis Hh : length h1 = 4%nat.
Hypothesis Hk : len k + 8 < 2 ^ 32.

(** [Entry.Decode] on a buffer that starts with a well-formed header: the
    key is stored and the operator of the tag takes over. *)
Lemma Entry_Decode_wire (payload sp : list byte) (t : byte) (e : Entry) :
  Entry_Decode (mkSlice (h1 ++ le_split 4 (len k) ++ k ++ t :: payload) sp) e =
    match operators t with
    | Some operator =>
        Decode operator (mkSlice (h1 ++ le_split 4 (len k) ++ k ++ t :: payload) sp)
          (set_key e k)
    | None => (set_key e k, Panic NilDereference)
    end.
Proof.
  pose proof (len_nonneg k) as Hk0.
  pose proof (len_nonneg payload) as Hp0. pose proof (len_nonneg sp) as Hs0.
  set (input := mkSlice _ sp). unfold Entry_Decode.
  assert (Hlen : slen input = 4 + (4 + (len k + (1 + len payload)))).
  { unfold slen, input; cbn [elems]. rewrite !len_app, len_le_split.
    change (t :: payload) with ([t] ++ payload). rewrite len_app.
    unfold len at 1. rewrite Hh. change (len [t]) with 1. lia. }
  unfold slice_from. rewrite Hlen. settle_if. cbn [bind elems].
  unfold input at 1; cbn [elems].
  rewrite (skipn_app_exact h1) by assumption.
  rewrite Uint32_le_split. rewrite (uint32_small (len k)) by lia. cbn [bind].
  rewrite (uint32_small (len k + 8)) by lia.
  unfold slice_range, scap. fold (slen input). rewrite Hlen. settle_if.
  cbn [elems].
  replace (elems input ++ spare input)
    with ((h1 ++ le_split 4 (len k)) ++ k ++ (t :: payload) ++ sp)
    by (unfold input; cbn [elems spare]; rewrite <- !app_assoc; reflexivity).
  rewrite skipn_app_exact by (rewrite length_app, length_le_split; lia).
  rewrite firstn_app_exact by (unfold len; lia).
  rewrite copy_same_length by (unfold make, len; rewrite repeat_length; lia).
  unfold index. rewrite Hlen. settle_if.
  replace (elems input) with ((h1 ++ le_split 4 (len k) ++ k) ++ t :: payload)
    by (unfold input; cbn [elems]; rewrite <- !app_assoc; reflexivity).
  rewrite nth_error_app_exact
    by (rewrite !length_app, length_le_split; unfold len; lia).
  destruct (operators t); reflexivity.
Qed.

(** The buffer ends inside the key. *)
Lemma Entry_Decode_key_cut (rest sp : list byte) (e : Entry) :
  len rest + len sp < len k ->
  Entry_Decode (mkSlice (h1 ++ le_split 4 (len k) ++ rest) sp) e
  = (e, Panic SliceBoundsOutOfRange).
Proof.
  intros Hcut. pose proof (len_nonneg rest) as Hr0.
  pose proof (len_nonneg sp) as Hs0.
  assert (Hlen : len (h1 ++ le_split 4 (len k) ++ rest) = 8 + len rest).
  { rewrite !len_app, len_le_split. unfold len at 1. rewrite Hh. lia. }
  unfold Entry_Decode, slice_from, slen. cbn [elems].
  rewrite Hlen. settle_if. cbn [bind elems].
  rewrite (skipn_app_exact h1) by assumption.
  rewrite Uint32_le_split. rewrite (uint32_small (len k)) by lia. cbn [bind].
  rewrite (uint32_small (len k + 8)) by lia.
  unfold slice_range, scap. cbn [elems spare].
  rewrite Hlen. settle_if. reflexivity.
Qed.

(** The buffer ends right after the key: the key is stored, the tag is
    missing. *)
Lemma Entry_Decode_tag_cut (sp : list byte) (e : Entry) :
  Entry_Decode (mkSlice (h1 ++ le_split 4 (len k) ++ k) sp) e
  = (set_key e k, Panic IndexOutOfRange).
Proof.
  pose proof (len_nonneg k) as Hk0. pose proof (len_nonneg sp) as Hs0.
  assert (Hlen : len (h1 ++ le_split 4 (len k) ++ k) = 8 + len k).
  { rewrite !len_app, len_le_split. unfold len at 1. rewrite Hh. lia. }
  unfold Entry_Decode, slice_from, slen. cbn [elems].
  rewrite Hlen. settle_if. cbn [bind elems].
  rewrite (skipn_app_exact h1) by assumption.
  rewrite Uint32_le_split. rewrite (uint32_small (len k)) by lia. cbn [bind].
  rewrite (uint32_small (len k + 8)) by lia.
  unfold slice_range, scap. cbn [elems spare].
  rewrite Hlen. settle_if.
  replace ((h1 ++ le_split 4 (len k) ++ k) ++ sp)
    with ((h1 ++ le_split 4 (len k)) ++ k ++ sp)
    by (rewrite <- ?app_assoc; reflexivity).
  rewrite skipn_app_exact by (rewrite length_app, length_le_split; lia).
  rewrite firstn_app_exact by (unfold len; lia).
  cbn [elems].
  rewrite copy_same_length by (unfold make, len; rewrite repeat_length; lia).
  unfold index, slen. cbn [elems].
  rewrite Hlen. settle_if. reflexivity.
Qed.

(** An INT64 record decodes from its first [keyLength + 17] bytes; what
    follows them is not looked at. *)
Lemma Entry_Decode_int64_wire (tail sp : list byte) (u : Z) (e : Entry) :
  Entry_Decode (mkSlice (h1 ++ le_split 4 (len k) ++ k ++ INT64_TYPE :: le_split 8 u ++ tail) sp) e
  = (mkEntry k (valueType e) (fmt.Sprintf_d (int64 (uint64 u))), Ok tt).
Proof.
  pose proof (len_nonneg tail) as Ht0. pose proof (len_nonneg sp) as Hs0.
  rewrite Entry_Decode_wire.
  change (operators INT64_TYPE) with (Some int64Operator.self).
  cbn [Decode int64Operator.self].
  replace (h1 ++ le_split 4 (len k) ++ k ++ INT64_TYPE :: le_split 8 u ++ tail)
    with ((h1 ++ le_split 4 (len k) ++ k ++ [INT64_TYPE]) ++ le_split 8 u ++ tail)
    by (rewrite <- ?app_assoc; cbn [app]; rewrite <- ?app_assoc; reflexivity).
  rewrite int64Operator_Decode_at.
  - rewrite len_app, len_le_split. settle_if.
    rewrite <- app_assoc, firstn_app_exact by apply length_le_split.
    rewrite le_combine_split. reflexivity.
  - cbn [set_key key]. rewrite !len_app, !len_le_split.
    unfold len at 1. rewrite Hh. change (len [INT64_TYPE]) with 1. lia.
Qed.

End Header.

(** ** Decimal text and 64-bit integers *)

Lemma int64_uint64 (v : Z) : in_int64 v -> int64 (uint64 v) = v.
Proof.
  unfold in_int64, int64, uint64. intros H.
  destruct (Z_lt_le_dec v 0) as [Hneg | Hpos].
  - replace (v mod 2 ^ 64) with (v + 2 ^ 64)
      by (apply Z.mod_unique with (q := -1); lia).
    settle_if. lia.
  - rewrite Z.mod_small by lia. settle_if. reflexivity.
Qed.

Lemma uint64_small (z : Z) : 0 <= z < 2 ^ 64 -> uint64 z = z.
Proof. intros H. unfold uint64. now apply Z.mod_small. Qed.

Lemma digit_byte (d : Z) : 0 <= d < 10 -> byte.unsigned (byte.of_Z (48 + d)) = 48 + d.
Proof.
  intros H. rewrite byte.unsigned_of_Z. unfold byte.wrap.
  apply Z.mod_small. lia.
Qed.

Lemma parseLoop_digit (d n : Z) (s : list byte) :
  0 <= d < 10 -> 0 <= n -> n * 10 + d < 2 ^ 64 ->
  strconv.parseLoop (byte.of_Z (48 + d) :: s) n = strconv.parseLoop s (n * 10 + d).
Proof.
  intros Hd Hn Hfit. cbn [strconv.parseLoop]. rewrite digit_byte by assumption.
  cbv zeta. settle_if.
  unfold strconv.cutoff. settle_if.
  - exfalso. bool_to_prop_in E0.
    change ((2 ^ 64 - 1) / 10 + 1) with 1844674407370955162 in E0. lia.
  - rewrite (uint64_small (n * 10)) by lia.
    replace (48 + d - 48) with d by lia.
    rewrite uint64_small by lia. settle_if. reflexivity.
Qed.

Lemma parse_fmtLoop (fuel : nat) :
  forall (u : Z) (acc : list byte),
    0 <= u < 10 ^ Z.of_nat fuel -> u < 2 ^ 64 ->
    strconv.parseLoop (fmt.fmtLoop fuel u acc) 0 = strconv.parseLoop acc u.
Proof.
  induction fuel as [| fuel IH]; intros u acc Hu Hfit.
  - change (10 ^ Z.of_nat 0) with 1 in Hu. cbn [fmt.fmtLoop].
    now replace u with 0 by lia.
  - cbn [fmt.fmtLoop]. cbv zeta.
    rewrite Nat2Z.inj_succ, Z.pow_succ_r in Hu by lia.
    pose proof (Z.div_mod u 10 ltac:(lia)) as Hdm.
    pose proof (Z.mod_pos_bound u 10 ltac:(lia)) as Hm.
    destruct (10 <=? u) eqn:Hbig; bool_to_prop_in Hbig.
    + rewrite IH by lia.
      replace (48 + u - u / 10 * 10) with (48 + u mod 10) by lia.
      rewrite parseLoop_digit by lia. f_equal. lia.
    + rewrite parseLoop_digit by lia. f_equal.
Qed.

Lemma fmtLoop_head (fuel : nat) :
  forall (u : Z) (acc : list byte),
    0 <= u ->
    exists c s, fmt.fmtLoop (S fuel) u acc = c :: s /\ is_digit c.
Proof.
  induction fuel as [| fuel IH]; intros u acc Hu.
  - cbn [fmt.fmtLoop]. cbv zeta.
    pose proof (Z.div_mod u 10 ltac:(lia)) as Hdm.
    pose proof (Z.mod_pos_bound u 10 ltac:(lia)) as Hm.
    destruct (10 <=? u) eqn:Hbig; bool_to_prop_in Hbig.
    + eexists _, _. split; [reflexivity |]. unfold is_digit.
      replace (48 + u - u / 10 * 10) with (48 + u mod 10) by lia.
      rewrite digit_byte; lia.
    + eexists _, _. split; [reflexivity |]. unfold is_digit.
      rewrite digit_byte; lia.
  - remember (S fuel) as f. cbn [fmt.fmtLoop]. cbv zeta. subst f.
    destruct (10 <=? u) eqn:Hbig; bool_to_prop_in Hbig.
    + apply IH. apply Z.div_pos; lia.
    + eexists _, _. split; [reflexivity |]. unfold is_digit.
      rewrite digit_byte; lia.
Qed.

Lemma digit_no_sign (c : byte) :
  is_digit c -> Byte.eqb c Byte.x2b = false /\ Byte.eqb c Byte.x2d = false.
Proof.
  unfold is_digit. intros H.
  split; destruct (Byte.eqb c _) eqn:E; try reflexivity;
    apply Byte.byte_dec_bl in E; subst c;
    [ change (byte.unsigned Byte.x2b) with 43 in H
    | change (byte.unsigned Byte.x2d) with 45 in H ]; lia.
Qed.

Lemma ParseUint_fmtLoop (u : Z) :
  0 <= u < 2 ^ 64 -> strconv.ParseUint (fmt.fmtLoop 20 u []) = inl u.
Proof.
  intros Hu. destruct (fmtLoop_head 19 u [] ltac:(lia)) as (c & s & Hcs & _).
  unfold strconv.ParseUint. rewrite Hcs, <- Hcs.
  rewrite parse_fmtLoop by (change (10 ^ Z.of_nat 20) with 100000000000000000000; lia).
  reflexivity.
Qed.

(** Parsing what [%d] prints gives the number back. *)
Lemma ParseInt_Sprintf_d (v : Z) :
  in_int64 v -> strconv.ParseInt (fmt.Sprintf_d v) = inl v.
Proof.
  unfold in_int64. intros Hv. unfold fmt.Sprintf_d. cbv zeta.
  rewrite int64_uint64 by assumption.
  destruct (v <? 0) eqn:Hneg; bool_to_prop_in Hneg.
  - assert (Hu : uint64 (- uint64 v) = - v).
    { unfold uint64.
      replace (v mod 2 ^ 64) with (v + 2 ^ 64)
        by (apply Z.mod_unique with (q := -1); lia).
      symmetry; apply Z.mod_unique with (q := -1); lia. }
    rewrite Hu. unfold strconv.ParseInt.
    change (Byte.eqb Byte.x2d Byte.x2d) with true.
    change (Byte.eqb Byte.x2d Byte.x2b) with false.
    cbn [orb negb andb]. rewrite ParseUint_fmtLoop by lia.
    settle_if. f_equal. unfold int64 at 2.
    destruct (- v <? 2 ^ 63) eqn:Hmin; bool_to_prop_in Hmin.
    + replace (- - v) with v by lia. now apply int64_uint64.
    + replace v with (- 2 ^ 63) by lia. reflexivity.
  - destruct (fmtLoop_head 19 (uint64 v) [] ltac:(unfold uint64; apply Z.mod_pos_bound; lia))
      as (c & s & Hcs & Hc).
    change (S 19) with 20%nat in Hcs.
    unfold strconv.ParseInt. rewrite Hcs.
    destruct (digit_no_sign c Hc) as [-> ->]. cbn [orb negb andb].
    rewrite <- Hcs, uint64_small by lia.
    rewrite ParseUint_fmtLoop by lia.
    settle_if. unfold int64. settle_if. reflexivity.
Qed.

Lemma parseLoop_range (s : list byte) :
  forall n m, 0 <= n < 2 ^ 64 -> strconv.parseLoop s n = inl m -> 0 <= m < 2 ^ 64.
Proof.
  induction s as [| c s IH]; intros n m Hn H; cbn [strconv.parseLoop] in H.
  - now inversion H; subst.
  - cbv zeta in H.
    destruct ((48 <=? byte.unsigned c) && (byte.unsigned c <=? 57)); [| discriminate].
    destruct (strconv.cutoff <=? n); [discriminate |].
    destruct (_ || _); [discriminate |].
    eapply IH; [| exact H]. unfold uint64. apply Z.mod_pos_bound. lia.
Qed.

Lemma int64_range (u : Z) : 0 <= u < 2 ^ 64 -> in_int64 (int64 u).
Proof. unfold in_int64, int64. intros H. settle_if; lia. Qed.

(** What [ParseInt] accepts is a signed 64-bit integer. *)
Lemma ParseInt_range (s : list byte) (v : Z) :
  strconv.ParseInt s = inl v -> in_int64 v.
Proof.
  unfold strconv.ParseInt. destruct s as [| c s]; [discriminate |].
  cbv zeta.
  match goal with |- context [strconv.ParseUint ?x] => set (s1 := x) end.
  destruct (strconv.ParseUint s1) as [un | []] eqn:Hun; [| discriminate |].
  - assert (Hr : 0 <= un < 2 ^ 64).
    { unfold strconv.ParseUint in Hun. destruct s1; [discriminate |].
      eapply parseLoop_range; [| exact Hun]. lia. }
    destruct (Byte.eqb c Byte.x2d); cbn [negb andb].
    + settle_if; [discriminate |]. intros H; inversion H; subst v; clear H.
      apply int64_range. unfold uint64. apply Z.mod_pos_bound. lia.
    + settle_if; [discriminate |]. intros H; inversion H; subst v; clear H.
      now apply int64_range.
  - destruct (Byte.eqb c Byte.x2d); cbn [negb andb].
    + change (2 ^ 63 <? 2 ^ 64 - 1) with true. discriminate.
    + change (2 ^ 63 <=? 2 ^ 64 - 1) with true. discriminate.
Qed.

(** ** The type tag registry *)

Lemma bytes_eqb_neq (a b : list byte) : a <> b -> bytes_eqb a b = false.
Proof. unfold bytes_eqb. destruct (list_eq_dec _ a b); congruence. Qed.

Lemma byte_eqb_neq (a b : byte) : a <> b -> Byte.eqb a b = false.
Proof.
  intros H. destruct (Byte.eqb a b) eqn:E; [| reflexivity].
  apply Byte.byte_dec_bl in E. contradiction.
Qed.

Lemma ToType_in_registered (order : list (list byte * byte)) :
  Permutation typeToByte order ->
  ToType_in order STRING_TYPE = str "string"%string
  /\ ToType_in order INT64_TYPE = str "int64"%string
  /\ forall t, t <> STRING_TYPE -> t <> INT64_TYPE -> ToType_in order t = [].
Proof.
  intros Hp. apply Permutation_length_2_inv in Hp.
  destruct Hp as [-> | ->]; (split; [reflexivity | split; [reflexivity |]]);
    intros t H0 H1; unfold ToType_in; cbn [find snd fst];
    rewrite !(byte_eqb_neq _ t) by congruence; reflexivity.
Qed.

(** The order in which a run of [ToType] visits the map does not show. *)
Lemma ToType_in_order (order : list (list byte * byte)) (t : byte) :
  Permutation typeToByte order -> ToType_in order t = ToType t.
Proof.
  intros Hp. unfold ToType.
  destruct (ToType_in_registered order Hp) as (Hs & Hi & Hno).
  destruct (ToType_in_registered typeToByte (Permutation_refl _)) as (Hs' & Hi' & Hno').
  destruct (Byte.byte_eq_dec t STRING_TYPE) as [-> | H0]; [congruence |].
  destruct (Byte.byte_eq_dec t INT64_TYPE) as [-> | H1]; [congruence |].
  now rewrite Hno, Hno'.
Qed.

Lemma readValue_in_order (order : list (list byte * byte)) (rd : bufio.Reader) :
  Permutation typeToByte order -> readValue_in order rd = readValue rd.
Proof.
  intros Hp. unfold readValue, readValue_in.
  repeat match goal with
         | |- bind ?m _ = bind ?m _ => destruct m as [[[? ?] ?] |]; cbn [bind]
         | |- bind ?m _ = bind ?m _ => destruct m; cbn [bind]
         | |- match ?x with _ => _ end = match ?x with _ => _ end => destruct x
         | |- _ => reflexivity
         end.
  now rewrite (ToType_in_order order _ Hp).
Qed.

(** C9. [ToByte] gives the registered tag for "string" and "int64" and the
    zero byte, with no error, for every other name; [ToType], in whatever
    order the run visits the map, gives the registered name for the tags 0
    and 1 and the empty string for every other tag. *)
Theorem registry_lookups (name : list byte) (t : byte) (order : list (list byte * byte)) :
  Permutation typeToByte order ->
  ToByte (str "string"%string) = STRING_TYPE
  /\ ToByte (str "int64"%string) = INT64_TYPE
  /\ (name <> str "string"%string -> name <> str "int64"%string -> ToByte name = Byte.x00)
  /\ ToType_in order Byte.x00 = str "string"%string
  /\ ToType_in order Byte.x01 = str "int64"%string
  /\ (t <> Byte.x00 -> t <> Byte.x01 -> ToType_in order t = []).
Proof.
  intros Hp. destruct (ToType_in_registered order Hp) as (Hs & Hi & Hno).
  repeat split; try reflexivity; try assumption.
  - intros Hn1 Hn2. unfold ToByte. cbn [find typeToByte fst snd].
    rewrite !(bytes_eqb_neq _ name) by congruence. reflexivity.
  - apply Hno.
Qed.

Lemma registry_lookups_witness :
  ToByte (str "float64"%string) = Byte.x00
  /\ ToType_in [(str "int64"%string, INT64_TYPE); (str "string"%string, STRING_TYPE)]
       Byte.x07 = [].
Proof.
  destruct (registry_lookups (str "float64"%string) Byte.x07
              [(str "int64"%string, INT64_TYPE); (str "string"%string, STRING_TYPE)])
    as (_ & _ & Hname & _ & _ & Htag).
  - apply perm_swap.
  - split; [apply Hname | apply Htag]; discriminate.
Defined.

(** ** Entry.Decode leaves the type tag of its target alone *)

Lemma stringOperator_Decode_valueType (input : slice) (e : Entry) :
  valueType (fst (stringOperator.Decode input e)) = valueType e.
Proof.
  unfold stringOperator.Decode.
  destruct (bind _ _); [| reflexivity].
  destruct (slice_range _ _ _); reflexivity.
Qed.

Lemma int64Operator_Decode_valueType (input : slice) (e : Entry) :
  valueType (fst (int64Operator.Decode input e)) = valueType e.
Proof. unfold int64Operator.Decode. destruct (bind _ _); reflexivity. Qed.

Lemma operators_cases (t : byte) :
  (t = STRING_TYPE /\ operators t = Some stringOperator.self)
  \/ (t = INT64_TYPE /\ operators t = Some int64Operator.self)
  \/ (t <> STRING_TYPE /\ t <> INT64_TYPE /\ operators t = None).
Proof.
  unfold operators.
  destruct (Byte.eqb t STRING_TYPE) eqn:E0.
  - left. apply Byte.byte_dec_bl in E0. now split.
  - destruct (Byte.eqb t INT64_TYPE) eqn:E1.
    + right; left. apply Byte.byte_dec_bl in E1. now split.
    + right; right. repeat split; try reflexivity; intros ->; discriminate.
Qed.

(** C10. [Entry.Decode] never writes the [valueType] field of its target,
    whatever the buffer holds and whether it returns or panics; decoding
    into a zero-valued [Entry] therefore leaves the tag 0 (STRING). *)
Theorem Decode_keeps_valueType (input : slice) (e : Entry) :
  valueType (fst (Entry_Decode input e)) = valueType e
  /\ valueType (fst (Entry_Decode input zeroEntry)) = STRING_TYPE.
Proof.
  assert (H : forall e0, valueType (fst (Entry_Decode input e0)) = valueType e0).
  { intros e0. unfold Entry_Decode.
    destruct (bind _ _) as [kl |]; [| reflexivity].
    destruct (slice_range _ _ _) as [src |]; [| reflexivity].
    destruct (index _ _) as [t |]; [| reflexivity].
    destruct (operators_cases t) as [[_ ->] | [[_ ->] | (_ & _ & ->)]];
      cbn [Decode stringOperator.self int64Operator.self].
    - now rewrite stringOperator_Decode_valueType.
    - now rewrite int64Operator_Decode_valueType.
    - reflexivity. }
  split; [apply H | now rewrite H].
Qed.

(** ** Encode *)

Lemma Entry_Encode_string (e : Entry) :
  valueType e = STRING_TYPE ->
  Entry_Encode e =
    Ok (whole (wire (len (key e) + 1 + len (value e) + 12) (key e) STRING_TYPE
                 (le_split 4 (uint32 (len (value e))) ++ value e))).
Proof.
  intros Ht. unfold Entry_Encode. rewrite Ht.
  change (operators STRING_TYPE) with (Some stringOperator.self).
  apply stringOperator_Encode_eq.
Qed.

Lemma Entry_Encode_int64 (e : Entry) (i : Z) :
  valueType e = INT64_TYPE -> strconv.ParseInt (value e) = inl i ->
  Entry_Encode e =
    Ok (whole (wire (len (key e) + 1 + 8 + 12) (key e) INT64_TYPE
                 (le_split 8 (uint64 i) ++ make 4))).
Proof.
  intros Ht Hp. unfold Entry_Encode. rewrite Ht.
  change (operators INT64_TYPE) with (Some int64Operator.self).
  now apply int64Operator_Encode_eq.
Qed.

(** C2, as the code has it.  For every INT64 record whose text
    [strconv.ParseInt] rejects, [Encode] panics with the error of
    [ParseInt] (syntax or range) and returns no buffer: [Encode] has no
    error result, the failure is the panic. *)
Theorem Encode_int64_invalid_panics (e : Entry) (err : numError) :
  valueType e = INT64_TYPE ->
  strconv.ParseInt (value e) = inr err ->
  Entry_Encode e = Panic (PanicNumError err).
Proof.
  intros Ht Hp. unfold Entry_Encode. rewrite Ht.
  change (operators INT64_TYPE) with (Some int64Operator.self).
  now apply int64Operator_Encode_panics.
Qed.

Lemma Encode_int64_invalid_panics_witness :
  Entry_Encode (mkEntry (str "ctr"%string) INT64_TYPE (str "9223372036854775808"%string))
  = Panic (PanicNumError ErrRange).
Proof.
  apply (Encode_int64_invalid_panics
           (mkEntry (str "ctr"%string) INT64_TYPE (str "9223372036854775808"%string))
           ErrRange); reflexivity.
Defined.

(** C2 as stated fails: the INT64 record with key "ctr" and text "abc" makes
    [Encode] panic, where the claim wants an error result and no
    process-terminating fault. *)
Lemma Encode_int64_abc_panics :
  Entry_Encode (mkEntry (str "ctr"%string) INT64_TYPE (str "abc"%string))
  = Panic (PanicNumError ErrSyntax).
Proof. reflexivity. Qed.

(** C7, as the code has it.  For a STRING record, and for an INT64 record
    whose text [ParseInt] accepts, [Encode] returns a buffer of
    [keyLength + 1 + V + 12] bytes ([V] the length of the value for STRING,
    8 for INT64) that owns no spare capacity; its first 4 bytes hold that
    length little-endian when it is below 2^32, and the length modulo 2^32 in
    general; the last 4 bytes of an INT64 record are zero. *)
Theorem Encode_size (e : Entry) :
  (valueType e = STRING_TYPE
   \/ (valueType e = INT64_TYPE /\ exists i, strconv.ParseInt (value e) = inl i)) ->
  let V := if Byte.eqb (valueType e) STRING_TYPE then len (value e) else 8 in
  let size := len (key e) + 1 + V + 12 in
  exists buf,
    Entry_Encode e = Ok buf
    /\ slen buf = size /\ scap buf = size
    /\ binary.Uint32 (elems buf) = Ok (size mod 2 ^ 32)
    /\ (size < 2 ^ 32 -> binary.Uint32 (elems buf) = Ok size)
    /\ (valueType e = INT64_TYPE ->
        skipn (Z.to_nat (size - 4)) (elems buf) = [Byte.x00; Byte.x00; Byte.x00; Byte.x00]).
Proof.
  intros Hvalid V size.
  pose proof (len_nonneg (key e)) as Hk0. pose proof (len_nonneg (value e)) as Hv0.
  destruct Hvalid as [Ht | [Ht [i Hp]]].
  - rewrite (Entry_Encode_string e Ht). eexists; split; [reflexivity |].
    assert (HV : V = len (value e)) by (unfold V; now rewrite Ht).
    assert (Hlen : slen (whole (wire (len (key e) + 1 + len (value e) + 12) (key e)
                     STRING_TYPE (le_split 4 (uint32 (len (value e))) ++ value e))) = size).
    { unfold slen, whole; cbn [elems]. rewrite len_wire, len_app, len_le_split.
      unfold size. rewrite HV. lia. }
    split; [exact Hlen |]. split; [unfold scap; fold (slen (whole (wire (len (key e) + 1 + len (value e) + 12) (key e)
                     STRING_TYPE (le_split 4 (uint32 (len (value e))) ++ value e)))); rewrite Hlen; cbn [whole spare]; change (len []) with 0; lia |].
    assert (Hf : binary.Uint32 (elems (whole (wire (len (key e) + 1 + len (value e) + 12)
                   (key e) STRING_TYPE (le_split 4 (uint32 (len (value e))) ++ value e))))
                 = Ok (size mod 2 ^ 32)).
    { cbn [whole elems]. unfold wire. rewrite Uint32_le_split.
      unfold uint32, size. rewrite HV, Z.mod_mod by lia. reflexivity. }
    split; [exact Hf |]. split.
    + intros Hsmall. rewrite Hf, Z.mod_small by (unfold size in *; lia). reflexivity.
    + rewrite Ht. discriminate.
  - rewrite (Entry_Encode_int64 e i Ht Hp). eexists; split; [reflexivity |].
    assert (HV : V = 8) by (unfold V; now rewrite Ht).
    assert (Hlen : slen (whole (wire (len (key e) + 1 + 8 + 12) (key e) INT64_TYPE
                     (le_split 8 (uint64 i) ++ make 4))) = size).
    { unfold slen, whole; cbn [elems]. rewrite len_wire, len_app, len_le_split.
      unfold size. rewrite HV. change (len (make 4)) with 4. lia. }
    split; [exact Hlen |]. split; [unfold scap; fold (slen (whole (wire (len (key e) + 1 + 8 + 12) (key e) INT64_TYPE
                     (le_split 8 (uint64 i) ++ make 4)))); rewrite Hlen; cbn [whole spare]; change (len []) with 0; lia |].
    assert (Hf : binary.Uint32 (elems (whole (wire (len (key e) + 1 + 8 + 12)
                   (key e) INT64_TYPE (le_split 8 (uint64 i) ++ make 4))))
                 = Ok (size mod 2 ^ 32)).
    { cbn [whole elems]. unfold wire. rewrite Uint32_le_split.
      unfold uint32, size. rewrite HV, Z.mod_mod by lia. reflexivity. }
    split; [exact Hf |]. split.
    + intros Hsmall. rewrite Hf, Z.mod_small by (unfold size in *; lia). reflexivity.
    + intros _. cbn [whole elems]. unfold wire.
      replace (le_split 4 (uint32 (len (key e) + 1 + 8 + 12)) ++
               le_split 4 (uint32 (len (key e))) ++
               key e ++ INT64_TYPE :: le_split 8 (uint64 i) ++ make 4)
        with ((le_split 4 (uint32 (len (key e) + 1 + 8 + 12)) ++
               le_split 4 (uint32 (len (key e))) ++
               key e ++ INT64_TYPE :: le_split 8 (uint64 i)) ++ make 4)
        by (rewrite <- ?app_assoc; cbn [app]; rewrite <- ?app_assoc; reflexivity).
      apply skipn_app_exact.
      rewrite !length_app, !length_le_split. cbn [length].
      rewrite length_le_split. unfold size. rewrite HV. unfold len. lia.
Qed.

Lemma len_hugeKey : len hugeKey = 2 ^ 32 - 13.
Proof. unfold hugeKey. apply len_make. discriminate. Qed.

(** C7 as stated fails once the size leaves 32 bits: the STRING record with
    the key [hugeKey] and an empty value is encoded in 2^32 bytes, and the
    first 4 bytes of the buffer hold 0. *)
Lemma Encode_size_wraps :
  exists buf,
    Entry_Encode (mkEntry hugeKey STRING_TYPE []) = Ok buf
    /\ slen buf = 2 ^ 32
    /\ binary.Uint32 (elems buf) = Ok 0.
Proof.
  rewrite Entry_Encode_string by reflexivity. cbn [key value].
  eexists; split; [reflexivity |]. split.
  - unfold slen, whole; cbn [elems]. rewrite len_wire, len_app, len_le_split, len_hugeKey.
    reflexivity.
  - cbn [whole elems]. unfold wire. rewrite Uint32_le_split, len_hugeKey. reflexivity.
Qed.

Lemma Encode_size_witness :
  exists buf,
    Entry_Encode (mkEntry (str "ctr"%string) INT64_TYPE (str "42"%string)) = Ok buf
    /\ slen buf = 24
    /\ binary.Uint32 (elems buf) = Ok 24
    /\ skipn 20 (elems buf) = [Byte.x00; Byte.x00; Byte.x00; Byte.x00].
Proof.
  destruct (Encode_size (mkEntry (str "ctr"%string) INT64_TYPE (str "42"%string)))
    as (buf & Henc & Hlen & _ & _ & Hfield & Hpad).
  - right. split; [reflexivity |]. exists 42. reflexivity.
  - exists buf. split; [exact Henc |]. split; [exact Hlen |].
    split; [apply Hfield; reflexivity | apply Hpad; reflexivity].
Defined.

(** ** Decode after Encode *)

Lemma Decode_Encode_string (e e0 : Entry) :
  valueType e = STRING_TYPE ->
  len (key e) + 8 < 2 ^ 32 -> len (value e) < 2 ^ 32 ->
  exists buf,
    Entry_Encode e = Ok buf
    /\ Entry_Decode buf e0 = (mkEntry (key e) (valueType e0) (value e), Ok tt).
Proof.
  intros Ht Hk Hv. pose proof (len_nonneg (key e)) as Hk0.
  pose proof (len_nonneg (value e)) as Hv0.
  rewrite (Entry_Encode_string e Ht). eexists; split; [reflexivity |].
  unfold whole, wire. rewrite (uint32_small (len (key e))) by lia.
  rewrite Entry_Decode_wire by (rewrite ?length_le_split; lia || reflexivity).
  change (operators STRING_TYPE) with (Some stringOperator.self).
  cbn [Decode stringOperator.self].
  replace (le_split 4 (uint32 (len (key e) + 1 + len (value e) + 12)) ++
           le_split 4 (len (key e)) ++
           key e ++ STRING_TYPE :: le_split 4 (uint32 (len (value e))) ++ value e)
    with ((le_split 4 (uint32 (len (key e) + 1 + len (value e) + 12)) ++
           le_split 4 (len (key e)) ++ key e ++ [STRING_TYPE])
          ++ le_split 4 (uint32 (len (value e))) ++ value e)
    by (rewrite <- ?app_assoc; cbn [app]; rewrite <- ?app_assoc; reflexivity).
  rewrite (uint32_small (len (value e))) by lia.
  rewrite stringOperator_Decode_at.
  - change (len []) with 0. settle_if.
    rewrite app_nil_r, firstn_all2 by (unfold len; lia). reflexivity.
  - cbn [set_key key]. rewrite !len_app, !len_le_split.
    change (len [STRING_TYPE]) with 1. lia.
  - lia.
Qed.

Lemma Decode_Encode_int64 (e e0 : Entry) (i : Z) :
  valueType e = INT64_TYPE -> strconv.ParseInt (value e) = inl i ->
  len (key e) + 8 < 2 ^ 32 ->
  exists buf,
    Entry_Encode e = Ok buf
    /\ Entry_Decode buf e0 = (mkEntry (key e) (valueType e0) (fmt.Sprintf_d i), Ok tt).
Proof.
  intros Ht Hp Hk. pose proof (len_nonneg (key e)) as Hk0.
  rewrite (Entry_Encode_int64 e i Ht Hp). eexists; split; [reflexivity |].
  unfold whole, wire. rewrite (uint32_small (len (key e))) by lia.
  rewrite Entry_Decode_wire by (rewrite ?length_le_split; lia || reflexivity).
  change (operators INT64_TYPE) with (Some int64Operator.self).
  cbn [Decode int64Operator.self].
  replace (le_split 4 (uint32 (len (key e) + 1 + 8 + 12)) ++
           le_split 4 (len (key e)) ++
           key e ++ INT64_TYPE :: le_split 8 (uint64 i) ++ make 4)
    with ((le_split 4 (uint32 (len (key e) + 1 + 8 + 12)) ++
           le_split 4 (len (key e)) ++ key e ++ [INT64_TYPE])
          ++ le_split 8 (uint64 i) ++ make 4)
    by (rewrite <- ?app_assoc; cbn [app]; rewrite <- ?app_assoc; reflexivity).
  rewrite int64Operator_Decode_at.
  - rewrite len_app, len_le_split. change (len (make 4)) with 4. change (len []) with 0.
    settle_if.
    rewrite <- app_assoc, firstn_app_exact by apply length_le_split.
    rewrite le_combine_split.
    change (uint64 i mod 2 ^ (Z.of_nat 8 * 8)) with (uint64 (uint64 i)).
    rewrite (uint64_small (uint64 i)) by (unfold uint64; apply Z.mod_pos_bound; lia).
    rewrite int64_uint64 by (now apply ParseInt_range with (s := value e)).
    reflexivity.
  - cbn [set_key key]. rewrite !len_app, !len_le_split.
    change (len [INT64_TYPE]) with 1. lia.
Qed.

(** C1, as the code has it.  For a STRING record with a value shorter than
    2^32 bytes, and for an INT64 record whose text is the decimal form that
    [%d] prints (no "+", no leading zero, no "-0"), with a key shorter than
    2^32 - 8 bytes: [Decode] of the buffer that [Encode] returns stores the
    key and the text of the record, whatever entry it decodes into. *)
Theorem Decode_Encode_roundtrip (e e0 : Entry) :
  ((valueType e = STRING_TYPE /\ len (value e) < 2 ^ 32)
   \/ (valueType e = INT64_TYPE /\ exists v, in_int64 v /\ value e = fmt.Sprintf_d v)) ->
  len (key e) + 8 < 2 ^ 32 ->
  exists buf e',
    Entry_Encode e = Ok buf
    /\ Entry_Decode buf e0 = (e', Ok tt)
    /\ key e' = key e /\ value e' = value e.
Proof.
  intros [[Ht Hvl] | (Ht & v & Hv & Hval)] Hk.
  - destruct (Decode_Encode_string e e0 Ht Hk Hvl) as (buf & Henc & Hdec).
    exists buf. eexists. split; [exact Henc |]. split; [exact Hdec |]. now split.
  - assert (Hp : strconv.ParseInt (value e) = inl v)
      by (rewrite Hval; now apply ParseInt_Sprintf_d).
    destruct (Decode_Encode_int64 e e0 v Ht Hp Hk) as (buf & Henc & Hdec).
    exists buf. eexists. split; [exact Henc |]. split; [exact Hdec |].
    cbn [key value]. now split.
Qed.

Lemma Decode_Encode_roundtrip_witness :
  exists buf e',
    Entry_Encode (mkEntry (str "ctr"%string) INT64_TYPE (str "-42"%string)) = Ok buf
    /\ Entry_Decode buf zeroEntry = (e', Ok tt)
    /\ key e' = str "ctr"%string /\ value e' = str "-42"%string.
Proof.
  apply (Decode_Encode_roundtrip
           (mkEntry (str "ctr"%string) INT64_TYPE (str "-42"%string)) zeroEntry).
  - right. split; [reflexivity |]. exists (-42). split; [| reflexivity].
    unfold in_int64. lia.
  - reflexivity.
Defined.

(** C1 as stated fails on texts that [ParseInt] accepts and [%d] does not
    print: the INT64 record with the text "007" comes back with the text
    "7". *)
Lemma Decode_Encode_007 :
  exists buf,
    Entry_Encode (mkEntry (str "ctr"%string) INT64_TYPE (str "007"%string)) = Ok buf
    /\ Entry_Decode buf zeroEntry
       = (mkEntry (str "ctr"%string) Byte.x00 (str "7"%string), Ok tt)
    /\ str "7"%string <> str "007"%string.
Proof.
  eexists. split; [reflexivity |]. split; [reflexivity | discriminate].
Qed.

(** C8, as the code has it.  For an INT64 record whose text [ParseInt]
    reads as [v] (so [v] is a signed 64-bit integer), with a key shorter than
    2^32 - 8 bytes, the text that [Decode] stores from the encoded buffer
    reads as [v] again. *)
Theorem int64_fidelity (e e0 : Entry) (v : Z) :
  valueType e = INT64_TYPE ->
  strconv.ParseInt (value e) = inl v ->
  len (key e) + 8 < 2 ^ 32 ->
  exists buf e',
    Entry_Encode e = Ok buf
    /\ Entry_Decode buf e0 = (e', Ok tt)
    /\ strconv.ParseInt (value e') = inl v.
Proof.
  intros Ht Hp Hk.
  destruct (Decode_Encode_int64 e e0 v Ht Hp Hk) as (buf & Henc & Hdec).
  exists buf. eexists. split; [exact Henc |]. split; [exact Hdec |].
  cbn [value]. apply ParseInt_Sprintf_d. now apply ParseInt_range with (s := value e).
Qed.

Lemma int64_fidelity_witness :
  exists buf e',
    Entry_Encode (mkEntry (str "ctr"%string) INT64_TYPE
                    (str "-9223372036854775808"%string)) = Ok buf
    /\ Entry_Decode buf zeroEntry = (e', Ok tt)
    /\ strconv.ParseInt (value e') = inl (- 9223372036854775808).
Proof.
  apply (int64_fidelity
           (mkEntry (str "ctr"%string) INT64_TYPE (str "-9223372036854775808"%string))
           zeroEntry (- 9223372036854775808)); reflexivity.
Defined.

(** A key length field of 2^32 - 8 or more makes [kl+8] wrap around in
    [uint32]: [input[8:kl+8]] has its bounds in the wrong order. *)
Lemma Entry_Decode_key_wraps (h1 rest sp : list byte) (klf : Z) (e : Entry) :
  length h1 = 4%nat -> 2 ^ 32 - 8 <= klf < 2 ^ 32 ->
  Entry_Decode (mkSlice (h1 ++ le_split 4 klf ++ rest) sp) e
  = (e, Panic SliceBoundsOutOfRange).
Proof.
  intros Hh Hk. pose proof (len_nonneg rest) as Hr0.
  unfold Entry_Decode, slice_from, slen. cbn [elems].
  rewrite !len_app, len_le_split. unfold len at 1. rewrite Hh.
  settle_if. cbn [bind elems].
  rewrite (skipn_app_exact h1) by assumption.
  rewrite Uint32_le_split. rewrite (uint32_small klf) by lia. cbn [bind].
  assert (Hw : uint32 (klf + 8) = klf + 8 - 2 ^ 32).
  { unfold uint32. symmetry. apply Z.mod_unique with (q := 1); lia. }
  rewrite Hw. unfold slice_range. settle_if. reflexivity.
Qed.

Lemma len_longKey : len longKey = 2 ^ 32 - 8.
Proof. unfold longKey. apply len_make. discriminate. Qed.

(** C8 as stated fails for keys of 2^32 - 8 bytes or more: the INT64 record
    with the key [longKey] and the text "42" is encoded, and [Decode] panics
    on the buffer without storing anything. *)
Lemma int64_fidelity_long_key :
  exists buf,
    Entry_Encode (mkEntry longKey INT64_TYPE (str "42"%string)) = Ok buf
    /\ Entry_Decode buf zeroEntry = (zeroEntry, Panic SliceBoundsOutOfRange).
Proof.
  rewrite (Entry_Encode_int64 _ 42) by reflexivity. cbn [key value].
  eexists; split; [reflexivity |].
  unfold whole, wire. rewrite len_longKey.
  apply Entry_Decode_key_wraps; [apply length_le_split |].
  change (uint32 (2 ^ 32 - 8)) with (2 ^ 32 - 8). lia.
Qed.

(** ** Unregistered type tags *)

(** C3, as the code has it.  When the buffer has at least 8 bytes, the key
    length [kl] at offset 4 is below 2^32 - 8 and the byte at offset
    [8 + kl] is a tag without a registered operator, [Decode] panics on the
    nil operator: there is no [DecodingError].  By then the key of the
    target has been overwritten with the [kl] bytes from offset 8; its value
    and its type are as they were. *)
Theorem Decode_unregistered_tag (input : slice) (e : Entry) (kl : Z) (t : byte) :
  8 <= slen input ->
  le_combine (firstn 4 (skipn 4 (elems input))) = kl ->
  kl + 8 < 2 ^ 32 ->
  index input (kl + 8) = Ok t ->
  operators t = None ->
  Entry_Decode input e
  = (mkEntry (firstn (Z.to_nat kl) (skipn 8 (elems input))) (valueType e) (value e),
     Panic NilDereference).
Proof.
  intros Hlen Hkl Hfit Htag Hop.
  assert (Hl4 : length (firstn 4 (skipn 4 (elems input))) = 4%nat).
  { rewrite length_firstn, length_skipn. unfold slen, len in Hlen. lia. }
  pose proof (le_combine_bound (firstn 4 (skipn 4 (elems input)))) as Hb.
  rewrite Hl4, Hkl in Hb. change (2 ^ (8 * Z.of_nat 4)) with (2 ^ 32) in Hb.
  assert (Hin : kl + 8 < slen input).
  { unfold index in Htag.
    destruct ((0 <=? kl + 8) && (kl + 8 <? slen input)) eqn:E; [| discriminate].
    bool_to_prop_in E. lia. }
  pose proof (len_nonneg (spare input)) as Hs0.
  unfold Entry_Decode, slice_from. settle_if. cbn [bind elems].
  change (Z.to_nat 4) with 4%nat. unfold binary.Uint32.
  assert (Hl : len (skipn 4 (elems input)) = slen input - 4).
  { unfold slen, len in *. rewrite length_skipn. lia. }
  rewrite Hl. settle_if. rewrite Hkl. cbn [bind].
  rewrite uint32_small by lia.
  unfold slice_range, scap. fold (slen input). settle_if. cbn [elems].
  rewrite Htag, Hop. f_equal. unfold set_key. f_equal.
  replace (kl + 8 - 8) with kl by lia. change (Z.to_nat 8) with 8%nat.
  rewrite skipn_app, firstn_app.
  replace (8 - length (elems input))%nat with 0%nat by (unfold slen, len in *; lia).
  replace (Z.to_nat kl - length (skipn 8 (elems input)))%nat with 0%nat
    by (rewrite length_skipn; unfold slen, len in *; lia).
  rewrite firstn_O, app_nil_r.
  apply copy_same_length.
  unfold make. rewrite repeat_length, length_firstn, length_skipn.
  unfold slen, len in *. lia.
Qed.

Lemma Decode_unregistered_tag_witness :
  Entry_Decode tag7 zeroEntry
  = (mkEntry (str "ctr"%string) Byte.x00 [], Panic NilDereference).
Proof.
  apply (Decode_unregistered_tag tag7 zeroEntry 3 Byte.x07);
    [vm_compute; discriminate | reflexivity ..].
Defined.

(** C3 as stated fails: on [tag7] the outcome of [Decode] is a panic, not a
    [DecodingError] result, and the target no longer has the key it had. *)
Lemma Decode_tag7_panics :
  Entry_Decode tag7 (mkEntry (str "old"%string) INT64_TYPE (str "1"%string))
  = (mkEntry (str "ctr"%string) INT64_TYPE (str "1"%string), Panic NilDereference).
Proof. reflexivity. Qed.

(** ** Truncated buffers *)

Lemma firstn_app_ge (a b : list byte) (n : nat) :
  (length a <= n)%nat -> firstn n (a ++ b) = a ++ firstn (n - length a) b.
Proof. intros H. now rewrite firstn_app, firstn_all2 by assumption. Qed.

Lemma firstn_app_le (a b : list byte) (n : nat) :
  (n <= length a)%nat -> firstn n (a ++ b) = firstn n a.
Proof.
  intros H. rewrite firstn_app. replace (n - length a)%nat with 0%nat by lia.
  now rewrite firstn_O, app_nil_r.
Qed.

(** Fewer than 8 bytes: the key length cannot be read. *)
Lemma Entry_Decode_short (input : slice) (e : Entry) :
  slen input < 8 ->
  exists p, Entry_Decode input e = (e, Panic p) /\ bounds_panic p.
Proof.
  intros H. unfold Entry_Decode, slice_from.
  destruct ((0 <=? 4) && (4 <=? slen input)) eqn:E; bool_to_prop_in E.
  - cbn [bind elems]. unfold binary.Uint32.
    assert (Hl : len (skipn (Z.to_nat 4) (elems input)) < 4).
    { unfold slen, len in *. rewrite length_skipn. lia. }
    settle_if. exists IndexOutOfRange. split; [reflexivity | now left].
  - cbn [bind]. exists SliceBoundsOutOfRange. split; [reflexivity | now right].
Qed.

(** The buffer ends inside the length field of a STRING value. *)
Lemma stringOperator_Decode_short (pre rest sp : list byte) (e : Entry) :
  len pre = len (key e) + 9 -> len rest < 4 ->
  stringOperator.Decode (mkSlice (pre ++ rest) sp) e = (e, Panic IndexOutOfRange).
Proof.
  intros Hpre Hcut. pose proof (len_nonneg (key e)) as Hk0.
  pose proof (len_nonneg rest) as Hr0.
  unfold stringOperator.Decode, TYPE_SIZE, slice_from, slen. cbn [elems].
  rewrite len_app, Hpre. settle_if. cbn [bind elems].
  rewrite skipn_app_exact by (unfold len in *; lia).
  unfold binary.Uint32. settle_if. reflexivity.
Qed.

Lemma Decode_truncated_string (k v : list byte) (size : Z) (e0 : Entry) (n : nat) :
  len k + 8 < 2 ^ 32 -> len v < 2 ^ 32 ->
  Z.of_nat n < len k + 13 + len v ->
  exists e' p,
    Entry_Decode
      (whole (firstn n (wire size k STRING_TYPE (le_split 4 (uint32 (len v)) ++ v)))) e0
    = (e', Panic p)
    /\ bounds_panic p /\ value e' = value e0 /\ valueType e' = valueType e0.
Proof.
  intros Hk Hv Hn. pose proof (len_nonneg k) as Hk0. pose proof (len_nonneg v) as Hv0.
  unfold wire, whole. rewrite (uint32_small (len k)), (uint32_small (len v)) by lia.
  set (h1 := le_split 4 (uint32 size)).
  assert (Hh : length h1 = 4%nat) by apply length_le_split.
  destruct (Nat.lt_ge_cases n 8) as [Hn8 | Hn8].
  { destruct (Entry_Decode_short
                (mkSlice (firstn n (h1 ++ le_split 4 (len k) ++ k ++ STRING_TYPE
                                      :: le_split 4 (len v) ++ v)) []) e0)
      as (p & Hd & Hp).
    - unfold slen, len; cbn [elems]. rewrite length_firstn. lia.
    - exists e0, p. now rewrite Hd. }
  rewrite firstn_app_ge by lia. rewrite Hh.
  rewrite firstn_app_ge by (rewrite length_le_split; lia). rewrite length_le_split.
  destruct (Nat.lt_ge_cases (n - 4 - 4) (length k)) as [Hnk | Hnk].
  { rewrite firstn_app_le by lia.
    rewrite Entry_Decode_key_cut; [| assumption | assumption |].
    - exists e0, SliceBoundsOutOfRange. repeat split. now right.
    - unfold len. rewrite length_firstn. cbn [length]. lia. }
  rewrite firstn_app_ge by lia.
  destruct (Nat.eq_dec (n - 4 - 4 - length k) 0) as [Hnt | Hnt].
  { rewrite Hnt, firstn_O, app_nil_r.
    rewrite Entry_Decode_tag_cut by assumption.
    exists (set_key e0 k), IndexOutOfRange. repeat split. now left. }
  destruct (n - 4 - 4 - length k)%nat as [| m] eqn:Hm; [contradiction |].
  cbn [firstn].
  rewrite Entry_Decode_wire by assumption.
  change (operators STRING_TYPE) with (Some stringOperator.self).
  cbn [Decode stringOperator.self].
  assert (Hpre : len (h1 ++ le_split 4 (len k) ++ k ++ [STRING_TYPE])
                 = len (key (set_key e0 k)) + 9).
  { cbn [set_key key]. rewrite !len_app, len_le_split. unfold len at 1. rewrite Hh.
    change (len [STRING_TYPE]) with 1. lia. }
  replace (h1 ++ le_split 4 (len k) ++ k ++ STRING_TYPE
             :: firstn m (le_split 4 (len v) ++ v))
    with ((h1 ++ le_split 4 (len k) ++ k ++ [STRING_TYPE])
            ++ firstn m (le_split 4 (len v) ++ v))
    by (rewrite <- ?app_assoc; cbn [app]; rewrite <- ?app_assoc; reflexivity).
  destruct (Nat.lt_ge_cases m 4) as [Hm4 | Hm4].
  { rewrite stringOperator_Decode_short; [| exact Hpre |].
    - exists (set_key e0 k), IndexOutOfRange. repeat split. now left.
    - unfold len. rewrite length_firstn. lia. }
  rewrite firstn_app_ge by (rewrite length_le_split; lia). rewrite length_le_split.
  rewrite stringOperator_Decode_at; [| exact Hpre | lia].
  assert (Hl : len (firstn (m - 4) v) = Z.of_nat (m - 4)).
  { unfold len. rewrite length_firstn. unfold len in *. lia. }
  rewrite Hl. change (len []) with 0. settle_if.
  exists (set_key e0 k), SliceBoundsOutOfRange. repeat split. now right.
Qed.

Lemma Decode_truncated_int64 (k : list byte) (size u : Z) (e0 : Entry) (n : nat) :
  len k + 8 < 2 ^ 32 ->
  let buf := whole (wire size k INT64_TYPE (le_split 8 u ++ make 4)) in
  (Z.of_nat n < len k + 17 ->
   exists e' p,
     Entry_Decode (truncated n buf) e0 = (e', Panic p)
     /\ bounds_panic p /\ value e' = value e0 /\ valueType e' = valueType e0)
  /\ (len k + 17 <= Z.of_nat n ->
      Entry_Decode (truncated n buf) e0 = Entry_Decode buf e0).
Proof.
  intros Hk buf. pose proof (len_nonneg k) as Hk0.
  unfold buf, truncated, wire, whole; cbn [elems].
  rewrite (uint32_small (len k)) by lia.
  set (h1 := le_split 4 (uint32 size)).
  assert (Hh : length h1 = 4%nat) by apply length_le_split.
  split; intros Hn.
  - destruct (Nat.lt_ge_cases n 8) as [Hn8 | Hn8].
    { destruct (Entry_Decode_short
                  (mkSlice (firstn n (h1 ++ le_split 4 (len k) ++ k ++ INT64_TYPE
                                        :: le_split 8 u ++ make 4)) []) e0)
        as (p & Hd & Hp).
      - unfold slen, len; cbn [elems]. rewrite length_firstn. lia.
      - exists e0, p. now rewrite Hd. }
    rewrite firstn_app_ge by lia. rewrite Hh.
    rewrite firstn_app_ge by (rewrite length_le_split; lia). rewrite length_le_split.
    destruct (Nat.lt_ge_cases (n - 4 - 4) (length k)) as [Hnk | Hnk].
    { rewrite firstn_app_le by lia.
      rewrite Entry_Decode_key_cut; [| assumption | assumption |].
      - exists e0, SliceBoundsOutOfRange. repeat split. now right.
      - unfold len. rewrite length_firstn. cbn [length]. lia. }
    rewrite firstn_app_ge by lia.
    destruct (n - 4 - 4 - length k)%nat as [| m] eqn:Hm.
    { rewrite firstn_O, app_nil_r.
      rewrite Entry_Decode_tag_cut by assumption.
      exists (set_key e0 k), IndexOutOfRange. repeat split. now left. }
    cbn [firstn].
    rewrite Entry_Decode_wire by assumption.
    change (operators INT64_TYPE) with (Some int64Operator.self).
    cbn [Decode int64Operator.self].
    replace (h1 ++ le_split 4 (len k) ++ k ++ INT64_TYPE
               :: firstn m (le_split 8 u ++ make 4))
      with ((h1 ++ le_split 4 (len k) ++ k ++ [INT64_TYPE])
              ++ firstn m (le_split 8 u ++ make 4))
      by (rewrite <- ?app_assoc; cbn [app]; rewrite <- ?app_assoc; reflexivity).
    rewrite int64Operator_Decode_at.
    + assert (Hl : len (firstn m (le_split 8 u ++ make 4)) = Z.of_nat m).
      { unfold len. rewrite length_firstn, length_app, length_le_split.
        change (length (make 4)) with 4%nat. unfold len in *. lia. }
      rewrite Hl. change (len []) with 0. unfold len in *. settle_if.
      exists (set_key e0 k), SliceBoundsOutOfRange. repeat split. now right.
    + cbn [set_key key]. rewrite !len_app, len_le_split. unfold len at 1. rewrite Hh.
      change (len [INT64_TYPE]) with 1. lia.
  - rewrite (Entry_Decode_int64_wire h1 k Hh Hk (make 4) []).
    rewrite firstn_app_ge by (unfold len in *; lia). rewrite Hh.
    rewrite firstn_app_ge by (rewrite length_le_split; unfold len in *; lia).
    rewrite length_le_split.
    rewrite firstn_app_ge by (unfold len in *; lia).
    destruct (n - 4 - 4 - length k)%nat as [| m] eqn:Hm; [unfold len in *; lia |].
    cbn [firstn].
    rewrite firstn_app_ge by (rewrite length_le_split; unfold len in *; lia).
    apply Entry_Decode_int64_wire; assumption.
Qed.

(** C4, as the code has it.  Take a STRING record with a value shorter than
    2^32 bytes, or an INT64 record whose text [ParseInt] accepts, with a key
    shorter than 2^32 - 8 bytes, and the first [n] bytes of its encoding in
    a slice without spare capacity.  [Decode] needs all bytes of a
    STRING record and all but the 4 padding bytes of an INT64 record: with
    fewer, it panics with an index or slice-bounds fault, having stored at
    most the key (value and type of the target stay as they were); with
    these, it does what it does on the whole buffer. *)
Theorem Decode_truncated (e e0 : Entry) (n : nat) :
  ((valueType e = STRING_TYPE /\ len (value e) < 2 ^ 32)
   \/ (valueType e = INT64_TYPE /\ exists i, strconv.ParseInt (value e) = inl i)) ->
  len (key e) + 8 < 2 ^ 32 ->
  exists buf,
    Entry_Encode e = Ok buf
    /\ let needed :=
         if Byte.eqb (valueType e) INT64_TYPE then slen buf - 4 else slen buf in
       (Z.of_nat n < needed ->
        exists e' p,
          Entry_Decode (truncated n buf) e0 = (e', Panic p)
          /\ bounds_panic p /\ value e' = value e0 /\ valueType e' = valueType e0)
       /\ (needed <= Z.of_nat n ->
           Entry_Decode (truncated n buf) e0 = Entry_Decode buf e0).
Proof.
  intros [[Ht Hv] | (Ht & i & Hp)] Hk.
  - rewrite (Entry_Encode_string e Ht). eexists; split; [reflexivity |].
    rewrite Ht. change (Byte.eqb STRING_TYPE INT64_TYPE) with false. cbv zeta.
    unfold slen, whole; cbn [elems]. rewrite len_wire, len_app, len_le_split.
    split; intros Hn.
    + apply Decode_truncated_string; [assumption | assumption | lia].
    + unfold truncated, whole; cbn [elems]. rewrite firstn_all2; [reflexivity |].
      pose proof (len_wire (len (key e) + 1 + len (value e) + 12) (key e) STRING_TYPE
                    (le_split 4 (uint32 (len (value e))) ++ value e)) as Hl.
      rewrite len_app, len_le_split in Hl. unfold len in *. lia.
  - rewrite (Entry_Encode_int64 e i Ht Hp). eexists; split; [reflexivity |].
    rewrite Ht. change (Byte.eqb INT64_TYPE INT64_TYPE) with true. cbv zeta.
    assert (Hl : slen (whole (wire (len (key e) + 1 + 8 + 12) (key e) INT64_TYPE
                        (le_split 8 (uint64 i) ++ make 4))) = len (key e) + 21).
    { unfold slen, whole; cbn [elems]. rewrite len_wire, len_app, len_le_split.
      change (len (make 4)) with 4. lia. }
    rewrite Hl.
    destruct (Decode_truncated_int64 (key e) (len (key e) + 1 + 8 + 12) (uint64 i) e0 n Hk)
      as [Hcut Hfull].
    split; intros Hn; [apply Hcut | apply Hfull]; lia.
Qed.

Lemma Decode_truncated_witness :
  exists buf,
    Entry_Encode (mkEntry (str "ctr"%string) INT64_TYPE (str "42"%string)) = Ok buf
    /\ (exists e' p, Entry_Decode (truncated 19 buf) zeroEntry = (e', Panic p)
                     /\ bounds_panic p /\ value e' = [] /\ valueType e' = Byte.x00)
    /\ Entry_Decode (truncated 20 buf) zeroEntry = Entry_Decode buf zeroEntry.
Proof.
  destruct (Decode_truncated (mkEntry (str "ctr"%string) INT64_TYPE (str "42"%string))
              zeroEntry 19) as (buf & Henc & Hcut & _);
    [right; split; [reflexivity | exists 42; reflexivity] | reflexivity |].
  destruct (Decode_truncated (mkEntry (str "ctr"%string) INT64_TYPE (str "42"%string))
              zeroEntry 20) as (buf' & Henc' & _ & Hfull);
    [right; split; [reflexivity | exists 42; reflexivity] | reflexivity |].
  vm_compute in Henc, Henc'.
  injection Henc as <-. injection Henc' as <-.
  eexists. split; [reflexivity |]. split.
  - apply Hcut. reflexivity.
  - apply Hfull. discriminate.
Defined.

(** C4 as stated fails twice.  Cut after 10 of its 24 bytes, the encoding
    of the STRING record "user:1" / "alice" makes [Decode] panic, where the
    claim wants a recoverable error; cut after 20 of its 24 bytes, the
    encoding of the INT64 record "ctr" / "42" decodes without any error. *)
Lemma Decode_truncated_examples :
  (exists buf,
     Entry_Encode (mkEntry (str "user:1"%string) STRING_TYPE (str "alice"%string)) = Ok buf
     /\ slen buf = 24
     /\ Entry_Decode (truncated 10 buf) zeroEntry = (zeroEntry, Panic SliceBoundsOutOfRange))
  /\ (exists buf,
        Entry_Encode (mkEntry (str "ctr"%string) INT64_TYPE (str "42"%string)) = Ok buf
        /\ slen buf = 24
        /\ Entry_Decode (truncated 20 buf) zeroEntry
           = (mkEntry (str "ctr"%string) Byte.x00 (str "42"%string), Ok tt)).
Proof.
  split; eexists; (split; [reflexivity |]); split; reflexivity.
Qed.

(** With the backing array kept, the record [alice] cut after 20 of its 24
    bytes decodes in full: [Decode] slices up to the capacity and finds the
    bytes that the length hides. *)
Example Decode_resliced_reads_on :
  exists buf,
    Entry_Encode alice = Ok buf
    /\ Entry_Decode (resliced 20 buf) zeroEntry
       = (mkEntry (str "user:1"%string) Byte.x00 (str "alice"%string), Ok tt).
Proof. eexists. split; reflexivity. Qed.

(** ** The buffered reader *)

Lemma remaining_buffered (b : bufio.Reader) :
  bufio.remaining b = buffered b ++ io.pending (bufio.rd b).
Proof. unfold bufio.remaining, buffered. now rewrite skipn_firstn_comm. Qed.

Lemma length_buffered (b : bufio.Reader) :
  (bufio.w b <= length (bufio.buf b))%nat ->
  length (buffered b) = bufio.Buffered b.
Proof.
  intros H. unfold buffered, bufio.Buffered.
  rewrite length_skipn, length_firstn. lia.
Qed.

Lemma io_Read_spec (src : io.Reader) (n : Z) :
  0 <= n ->
  let '(d, e, src') := io.Read src n in
  len d <= n /\ d ++ io.pending src' = io.pending src
  /\ (e <> None -> d = []).
Proof.
  intros Hn. destruct src as [| [d | e] src']; cbn [io.Read io.pending].
  - split; [exact Hn | split; reflexivity].
  - destruct (len d <=? n) eqn:E; bool_to_prop_in E.
    + split; [exact E | split; [reflexivity | congruence]].
    + split; [| split].
      * unfold len in *. rewrite length_firstn. lia.
      * cbn [io.pending]. now rewrite app_assoc, firstn_skipn.
      * congruence.
  - split; [exact Hn | split; reflexivity].
Qed.

Lemma copy_prefix (dst src : list byte) :
  (length src <= length dst)%nat -> copy dst src = src ++ skipn (length src) dst.
Proof. intros H. unfold copy. now rewrite firstn_all2 by assumption. Qed.

Lemma length_copy (dst src : list byte) : length (copy dst src) = length dst.
Proof.
  unfold copy. rewrite length_app, length_firstn, length_skipn. lia.
Qed.

Lemma fillLoop_spec (i : nat) :
  forall b,
    (bufio.w b <= length (bufio.buf b))%nat ->
    exists add,
      grown b (bufio.fillLoop i b) (firstn (bufio.w b) (bufio.buf b)) add.
Proof.
  induction i as [| i IH]; intros b Hw.
  - exists []. cbn [bufio.fillLoop]. split; cbn; try reflexivity; try assumption.
    + now rewrite app_nil_r.
    + discriminate.
  - cbn [bufio.fillLoop].
    pose proof (io_Read_spec (bufio.rd b) (len (skipn (bufio.w b) (bufio.buf b)))
                  (len_nonneg _)) as Hrd.
    destruct (io.Read (bufio.rd b) (len (skipn (bufio.w b) (bufio.buf b))))
      as [[d e] rd'].
    destruct Hrd as (Hd & Hsrc & Herr).
    assert (Hdl : (length d <= length (skipn (bufio.w b) (bufio.buf b)))%nat)
      by (unfold len in Hd; lia).
    assert (Hbuf : firstn (bufio.w b) (bufio.buf b)
                     ++ copy (skipn (bufio.w b) (bufio.buf b)) d
                   = (firstn (bufio.w b) (bufio.buf b) ++ d)
                       ++ skipn (length d) (skipn (bufio.w b) (bufio.buf b))).
    { rewrite copy_prefix by assumption. now rewrite app_assoc. }
    assert (Hlen : length (firstn (bufio.w b) (bufio.buf b)
                             ++ copy (skipn (bufio.w b) (bufio.buf b)) d)
                   = length (bufio.buf b)).
    { rewrite length_app, length_copy, length_firstn, length_skipn. lia. }
    assert (Hdata : firstn (bufio.w b + length d)
                      (firstn (bufio.w b) (bufio.buf b)
                         ++ copy (skipn (bufio.w b) (bufio.buf b)) d)
                    = firstn (bufio.w b) (bufio.buf b) ++ d).
    { rewrite Hbuf. apply firstn_app_exact.
      rewrite length_app, length_firstn. lia. }
    rewrite length_skipn in Hdl.
    destruct e as [e |].
    + exists d. split; cbn; try reflexivity; try assumption; try lia.
      discriminate.
    + destruct (0 <? length d)%nat eqn:Hpos; bool_to_prop_in Hpos.
      * exists d. split; cbn; try reflexivity; try assumption; try lia.
        intros _ ->. cbn in Hpos. lia.
      * assert (d = []) by (destruct d; [reflexivity | cbn in Hpos; lia]). subst d.
        match goal with |- context [bufio.fillLoop i ?x] => set (b1 := x) end.
        destruct (IH b1) as (add & Hg); [cbn; lia |].
        destruct Hg as [H1 H2 H3 H4 H5 H6].
        exists add. split.
        -- rewrite H1. reflexivity.
        -- rewrite H2. cbn. exact Hlen.
        -- exact H3.
        -- rewrite H4. cbn [b1 bufio.w bufio.buf]. now rewrite Hdata, app_nil_r.
        -- rewrite H5. cbn [b1 bufio.rd]. exact Hsrc.
        -- exact H6.
Qed.

Lemma slide_spec (b : bufio.Reader) :
  (bufio.r b <= bufio.w b <= length (bufio.buf b))%nat ->
  bufio.r (bufio.slide b) = 0%nat
  /\ bufio.w (bufio.slide b) = bufio.Buffered b
  /\ length (bufio.buf (bufio.slide b)) = length (bufio.buf b)
  /\ firstn (bufio.w (bufio.slide b)) (bufio.buf (bufio.slide b)) = buffered b
  /\ bufio.rd (bufio.slide b) = bufio.rd b
  /\ bufio.err (bufio.slide b) = bufio.err b.
Proof.
  intros Hwf. unfold bufio.slide, bufio.Buffered, buffered.
  destruct (0 <? bufio.r b)%nat eqn:E; bool_to_prop_in E.
  - cbn. rewrite length_copy. repeat split.
    rewrite copy_prefix by (rewrite length_firstn, length_skipn; lia).
    rewrite firstn_app_exact by (rewrite !length_firstn, length_skipn; lia).
    now rewrite skipn_firstn_comm.
  - replace (bufio.r b) with 0%nat by lia. rewrite Nat.sub_0_r. repeat split.
Qed.

Lemma fill_spec (b : bufio.Reader) :
  (bufio.r b <= bufio.w b <= length (bufio.buf b))%nat ->
  (bufio.Buffered b < length (bufio.buf b))%nat ->
  exists b' add,
    bufio.fill b = Ok b'
    /\ bufio.r b' = 0%nat
    /\ length (bufio.buf b') = length (bufio.buf b)
    /\ (bufio.w b' <= length (bufio.buf b'))%nat
    /\ buffered b' = buffered b ++ add
    /\ add ++ io.pending (bufio.rd b') = io.pending (bufio.rd b)
    /\ (bufio.err b' = None -> add <> []).
Proof.
  intros Hwf Hroom.
  destruct (slide_spec b Hwf) as (Hr & Hw & Hl & Hd & Hrd & He).
  unfold bufio.fill.
  destruct (length (bufio.buf (bufio.slide b)) <=? bufio.w (bufio.slide b))%nat eqn:E;
    bool_to_prop_in E; [lia |].
  destruct (fillLoop_spec bufio.maxConsecutiveEmptyReads (bufio.slide b)) as (add & Hg);
    [lia |].
  destruct Hg as [H1 H2 H3 H4 H5 H6].
  eexists _, add. split; [reflexivity |].
  repeat split.
  - now rewrite H1.
  - now rewrite H2.
  - exact H3.
  - unfold buffered at 1. rewrite H1, Hr, H4, Hd. reflexivity.
  - now rewrite H5, Hrd.
  - exact H6.
Qed.

Lemma consumed_refl (b : bufio.Reader) : bufio.wf b -> consumed b b [].
Proof. intros H. split; [exact H | split; reflexivity]. Qed.

Lemma consumed_trans (b1 b2 b3 : bufio.Reader) (c1 c2 : list byte) :
  consumed b1 b2 c1 -> consumed b2 b3 c2 -> consumed b1 b3 (c1 ++ c2).
Proof.
  intros (_ & Hl1 & Hr1) (Hwf & Hl2 & Hr2). split; [exact Hwf |]. split.
  - congruence.
  - now rewrite Hr1, Hr2, app_assoc.
Qed.

Lemma fill_consumed (b : bufio.Reader) :
  bufio.wf b -> (bufio.Buffered b < length (bufio.buf b))%nat ->
  exists b' add,
    bufio.fill b = Ok b' /\ consumed b b' []
    /\ buffered b' = buffered b ++ add
    /\ (bufio.err b' = None -> add <> []).
Proof.
  intros [Hpos Hsize] Hroom.
  destruct (fill_spec b Hpos Hroom) as (b' & add & Hf & Hr & Hl & Hw & Hb & Hsrc & Hprog).
  exists b', add. split; [exact Hf |]. split; [| now split].
  split; [| split].
  - split; lia.
  - exact Hl.
  - rewrite !remaining_buffered, Hb, <- Hsrc, app_assoc. reflexivity.
Qed.

Lemma Buffered_grows (b b' : bufio.Reader) (add : list byte) :
  bufio.wf b -> bufio.wf b' -> buffered b' = buffered b ++ add ->
  bufio.Buffered b' = (bufio.Buffered b + length add)%nat.
Proof.
  intros [Hb _] [Hb' _] H.
  rewrite <- !length_buffered by lia. now rewrite H, length_app.
Qed.

(** The loop of [Peek] comes to its end before its bound. *)
Lemma peekLoop_spec (bound : nat) (n : Z) :
  forall b,
    bufio.wf b ->
    (bufio.err b <> None \/ (length (bufio.buf b) - bufio.Buffered b < bound)%nat) ->
    exists b' add,
      bufio.peekLoop bound n b = Ok b' /\ consumed b b' []
      /\ buffered b' = buffered b ++ add
      /\ bufio.peekMore n b' = false.
Proof.
  induction bound as [| bound IH]; intros b Hwf Hm.
  - exists b, []. cbn [bufio.peekLoop].
    destruct (bufio.peekMore n b) eqn:Hmore.
    + exfalso. unfold bufio.peekMore in Hmore. bool_to_prop_in Hmore.
      destruct Hmore as [[_ Hroom] Herr]. destruct Hm as [Hm | Hm]; [| lia].
      destruct (bufio.err b); [discriminate | contradiction].
    + split; [reflexivity |]. split; [now apply consumed_refl |].
      split; [now rewrite app_nil_r | first [exact Hmore | reflexivity]].
  - cbn [bufio.peekLoop]. destruct (bufio.peekMore n b) eqn:Hmore.
    + unfold bufio.peekMore in Hmore. bool_to_prop_in Hmore.
      destruct Hmore as [[_ Hroom] Herr].
      destruct (fill_consumed b Hwf Hroom) as (b1 & add1 & Hf & Hc1 & Hb1 & Hprog).
      rewrite Hf. cbn [bind].
      assert (Hwf1 : bufio.wf b1) by apply Hc1.
      destruct (IH b1 Hwf1) as (b' & add & Hp & Hc & Hb & Hdone).
      { destruct (bufio.err b1) eqn:He1; [left; discriminate | right].
        pose proof (Buffered_grows b b1 add1 Hwf Hwf1 Hb1) as Hg.
        specialize (Hprog eq_refl).
        assert (0 < length add1)%nat by (destruct add1; [contradiction | cbn; lia]).
        destruct Hc1 as (_ & Hl & _).
        destruct Hm as [Hm | Hm]; [destruct (bufio.err b); [discriminate | contradiction] |].
        lia. }
      exists b', (add1 ++ add). split; [exact Hp |]. split.
      * exact (consumed_trans b b1 b' [] [] Hc1 Hc).
      * split; [now rewrite Hb, Hb1, app_assoc | exact Hdone].
    + exists b, []. split; [reflexivity |]. split; [now apply consumed_refl |].
      split; [now rewrite app_nil_r | first [exact Hmore | reflexivity]].
Qed.

Lemma bytes_of_buffered (b : bufio.Reader) (n : nat) :
  (n <= bufio.Buffered b)%nat ->
  bufio.bytes_of b (bufio.mkView (bufio.r b) n) = firstn n (buffered b).
Proof.
  intros H. unfold bufio.bytes_of, buffered, bufio.Buffered in *. cbn.
  rewrite skipn_firstn_comm, firstn_firstn. f_equal. lia.
Qed.

(** [Peek] returns, never at the bound of its loop; it leaves the stream as
    it is, and without an error the view shows the next [n] bytes, all of
    them buffered. *)
Lemma Peek_spec (n : Z) (b : bufio.Reader) :
  bufio.wf b -> 0 <= n ->
  exists v e b',
    bufio.Peek n b = Ok (v, e, b') /\ consumed b b' []
    /\ (e = None ->
        v = bufio.mkView (bufio.r b') (Z.to_nat n)
        /\ n <= Z.of_nat (bufio.Buffered b')
        /\ bufio.bytes_of b' v = firstn (Z.to_nat n) (bufio.remaining b)).
Proof.
  intros Hwf Hn. unfold bufio.Peek. settle_if.
  destruct (peekLoop_spec (S (length (bufio.buf b))) n b Hwf) as (b1 & add & Hp & Hc & Hb & Hdone);
    [right; lia |].
  rewrite Hp. cbn [bind].
  destruct (len (bufio.buf b1) <? n) eqn:Hfull.
  { eexists _, _, _. split; [reflexivity |]. split; [exact Hc | discriminate]. }
  destruct (Z.of_nat (bufio.Buffered b1) <? n) eqn:Hshort.
  { cbn [bufio.readErr]. eexists _, _, _. split; [reflexivity |].
    split; [| discriminate].
    destruct Hc as (Hwf1 & Hl & Hr). split; [exact Hwf1 |]. split; [exact Hl |].
    rewrite Hr. reflexivity. }
  bool_to_prop_in Hshort.
  eexists _, _, _. split; [reflexivity |]. split; [exact Hc |].
  intros _. split; [reflexivity |]. split; [lia |].
  rewrite bytes_of_buffered by lia.
  destruct Hc as (Hwf1 & _ & Hr). cbn [app] in Hr.
  rewrite Hr, remaining_buffered, firstn_app_le; [reflexivity |].
  destruct Hwf1 as [Hpos _]. rewrite length_buffered by lia. lia.
Qed.

(** Peeking at what is buffered fills nothing and cannot fail. *)
Lemma Peek_buffered (n : Z) (b : bufio.Reader) :
  bufio.wf b -> 0 <= n <= Z.of_nat (bufio.Buffered b) ->
  bufio.Peek n b = Ok (bufio.mkView (bufio.r b) (Z.to_nat n), None, b).
Proof.
  intros [Hpos _] Hn. unfold bufio.Peek. settle_if.
  assert (Hmore : bufio.peekMore n b = false).
  { unfold bufio.peekMore. destruct (Z.of_nat (bufio.Buffered b) <? n) eqn:Hlt;
      [bool_to_prop_in Hlt; lia | reflexivity]. }
  cbn [bufio.peekLoop]. rewrite Hmore. cbn [bind].
  unfold bufio.Buffered in *. settle_if. settle_if. reflexivity.
Qed.

Lemma advance_consumed (b : bufio.Reader) (k : nat) :
  bufio.wf b -> (k <= bufio.Buffered b)%nat ->
  consumed b (bufio.advance b k) (firstn k (buffered b)).
Proof.
  intros [Hpos Hsize] Hk. unfold bufio.Buffered in Hk.
  split; [| split].
  - split; cbn; lia.
  - reflexivity.
  - rewrite !remaining_buffered, app_assoc. f_equal.
    unfold buffered, bufio.advance. cbn.
    rewrite <- (firstn_skipn k (skipn (bufio.r b) (firstn (bufio.w b) (bufio.buf b)))) at 1.
    f_equal. rewrite skipn_skipn. f_equal. lia.
Qed.

Lemma readErr_consumed (b : bufio.Reader) :
  bufio.wf b -> consumed b (fst (bufio.readErr b)) [].
Proof. intros H. split; [exact H | split; reflexivity]. Qed.

(** The loop of [Discard] comes to its end before its bound, and what it
    reports as discarded has left the stream. *)
Lemma discardLoop_spec (bound : nat) (n : Z) :
  forall (remain : Z) (b : bufio.Reader),
    bufio.wf b -> 0 < remain <= n ->
    Z.min remain (len (bufio.remaining b)) < Z.of_nat bound ->
    exists k e b' c,
      bufio.discardLoop bound n remain b = Ok (k, e, b')
      /\ consumed b b' c /\ len c = k - (n - remain)
      /\ (e = None -> k = n).
Proof.
  induction bound as [| bound IH]; intros remain b Hwf Hrem Hm.
  - pose proof (len_nonneg (bufio.remaining b)). lia.
  - cbn [bufio.discardLoop].
    assert (Hfill : exists b1,
               (if (bufio.Buffered b =? 0)%nat then bufio.fill b else Ok b) = Ok b1
               /\ consumed b b1 []
               /\ (bufio.err b1 = None -> (0 < bufio.Buffered b1)%nat)).
    { destruct (bufio.Buffered b =? 0)%nat eqn:E0; bool_to_prop_in E0.
      - destruct (fill_consumed b Hwf) as (b1 & add & Hf & Hc & Hb & Hprog);
          [destruct Hwf; lia |].
        exists b1. split; [exact Hf |]. split; [exact Hc |].
        intros He. specialize (Hprog He).
        rewrite (Buffered_grows b b1 add Hwf (proj1 Hc) Hb).
        destruct add; [contradiction | cbn; lia].
      - exists b. split; [reflexivity |]. split; [now apply consumed_refl | lia]. }
    destruct Hfill as (b1 & Hf1 & Hc1 & Hprog). rewrite Hf1. cbn [bind].
    assert (Hwf1 : bufio.wf b1) by apply Hc1.
    set (skip := Z.min (Z.of_nat (bufio.Buffered b1)) remain).
    assert (Hskip : 0 <= skip <= Z.of_nat (bufio.Buffered b1)) by (unfold skip; lia).
    pose proof (advance_consumed b1 (Z.to_nat skip) Hwf1 ltac:(lia)) as Hc2.
    set (b2 := bufio.advance b1 (Z.to_nat skip)) in *.
    pose proof (consumed_trans b b1 b2 _ _ Hc1 Hc2) as Hc. cbn [app] in Hc.
    assert (Hlc : len (firstn (Z.to_nat skip) (buffered b1)) = skip).
    { unfold len. rewrite length_firstn, length_buffered by (destruct Hwf1; lia). lia. }
    destruct (remain - skip =? 0) eqn:Hdone; bool_to_prop_in Hdone.
    + eexists _, _, _, _. split; [reflexivity |]. split; [exact Hc |].
      split; [lia | reflexivity].
    + destruct (bufio.err b2) eqn:He2.
      * cbn [bufio.readErr]. eexists _, _, _, _. split; [reflexivity |].
        split; [| split].
        -- destruct Hc as (Hw & Hl & Hr). split; [exact Hw |]. split; [exact Hl | exact Hr].
        -- lia.
        -- intros Hnone. cbn in Hnone, He2. congruence.
      * assert (He1 : bufio.err b1 = None) by exact He2.
        specialize (Hprog He1).
        assert (Hs1 : 1 <= skip) by (unfold skip; lia).
        destruct (IH (remain - skip) b2 (proj1 Hc2)) as (k & e & b' & c & Hd & Hc' & Hlen & Hok).
        { unfold skip in *. lia. }
        { destruct Hc as (_ & _ & Hr). rewrite Hr, len_app, Hlc in Hm.
          pose proof (len_nonneg (bufio.remaining b2)). lia. }
        exists k, e, b', (firstn (Z.to_nat skip) (buffered b1) ++ c).
        split; [exact Hd |]. split; [exact (consumed_trans b b2 b' _ _ Hc Hc') |].
        split; [rewrite len_app; lia | exact Hok].
Qed.

(** [Discard] returns, never at the bound of its loop; the bytes it counts
    have left the stream, and without an error they are [n]. *)
Lemma Discard_spec (n : Z) (b : bufio.Reader) :
  bufio.wf b -> 0 <= n ->
  exists k e b' c,
    bufio.Discard n b = Ok (k, e, b')
    /\ consumed b b' c /\ len c = k
    /\ (e = None -> k = n).
Proof.
  intros Hwf Hn. unfold bufio.Discard. settle_if.
  destruct (n =? 0) eqn:E0; bool_to_prop_in E0.
  - exists 0, None, b, []. split; [reflexivity |]. split; [now apply consumed_refl |].
    split; [reflexivity | congruence].
  - destruct (discardLoop_spec (S (Z.to_nat (Z.min n (len (bufio.remaining b))))) n n b Hwf)
      as (k & e & b' & c & Hd & Hc & Hlen & Hok).
    + lia.
    + pose proof (len_nonneg (bufio.remaining b)). lia.
    + exists k, e, b', c. split; [exact Hd |]. split; [exact Hc |].
      split; [lia | exact Hok].
Qed.

(** Skipping what is buffered does not touch the buffer. *)
Lemma Discard_buffered (n : Z) (b : bufio.Reader) :
  0 < n <= Z.of_nat (bufio.Buffered b) ->
  bufio.Discard n b = Ok (n, None, bufio.advance b (Z.to_nat n)).
Proof.
  intros Hn. unfold bufio.Discard. settle_if. settle_if.
  cbn [bufio.discardLoop]. settle_if. cbn [bind].
  rewrite Z.min_r by lia. rewrite Z.sub_diag. reflexivity.
Qed.

(** [Read] stores a prefix of the stream, of at most [n] bytes. *)
Lemma Read_spec (n : Z) (b : bufio.Reader) :
  bufio.wf b -> 0 <= n ->
  exists got e b',
    bufio.Read n b = (got, e, b') /\ consumed b b' got /\ len got <= n.
Proof.
  intros Hwf Hn. unfold bufio.Read.
  destruct (n =? 0) eqn:E0.
  { destruct (0 <? bufio.Buffered b)%nat.
    - eexists _, _, _. split; [reflexivity |]. split; [now apply consumed_refl | exact Hn].
    - cbn [bufio.readErr]. eexists _, _, _. split; [reflexivity |].
      split; [exact (readErr_consumed b Hwf) | exact Hn]. }
  assert (HfromBuf : forall b0 : bufio.Reader,
             bufio.wf b0 ->
             let src := firstn (bufio.w b0 - bufio.r b0) (skipn (bufio.r b0) (bufio.buf b0)) in
             let got := if len src <=? n then src else firstn (Z.to_nat n) src in
             consumed b0 (bufio.advance b0 (length got)) got /\ len got <= n).
  { intros b0 Hwf0 src got.
    assert (Hsrc : src = buffered b0)
      by (unfold src, buffered; now rewrite skipn_firstn_comm).
    assert (Hgot : got = firstn (length got) (buffered b0) /\ len got <= n
                   /\ (length got <= bufio.Buffered b0)%nat).
    { rewrite <- (length_buffered b0) by (destruct Hwf0; lia). rewrite <- Hsrc.
      unfold got. destruct (len src <=? n) eqn:E; bool_to_prop_in E.
      - split; [now rewrite firstn_all | split; [exact E | lia]].
      - split; [| split].
        + rewrite length_firstn. f_equal. unfold len in E. lia.
        + unfold len in *. rewrite length_firstn. lia.
        + rewrite length_firstn. lia. }
    destruct Hgot as (Hg1 & Hg2 & Hg3). split; [| exact Hg2].
    rewrite Hg1 at 2. now apply advance_consumed. }
  destruct (bufio.r b =? bufio.w b)%nat eqn:Er; bool_to_prop_in Er.
  2:{ eexists _, _, _. split; [reflexivity |]. exact (HfromBuf b Hwf). }
  assert (Hempty : buffered b = []).
  { unfold buffered. rewrite Er. apply skipn_all2. rewrite length_firstn. lia. }
  destruct (bufio.err b) eqn:He.
  { cbn [bufio.readErr]. eexists _, _, _. split; [reflexivity |].
    split; [exact (readErr_consumed b Hwf) | exact Hn]. }
  destruct (len (bufio.buf b) <=? n) eqn:Elarge.
  - pose proof (io_Read_spec (bufio.rd b) n Hn) as Hrd.
    destruct (io.Read (bufio.rd b) n) as [[d e] rd'].
    destruct Hrd as (Hd & Hsrc & _).
    eexists _, _, _. split; [reflexivity |]. split; [| exact Hd].
    split; [exact Hwf |]. split; [reflexivity |].
    rewrite !remaining_buffered. unfold buffered in *. cbn. rewrite Hempty.
    cbn [app]. now rewrite Hsrc.
  - pose proof (io_Read_spec (bufio.rd b) (len (bufio.buf b)) (len_nonneg _)) as Hrd.
    destruct (io.Read (bufio.rd b) (len (bufio.buf b))) as [[d e] rd'].
    destruct Hrd as (Hd & Hsrc & _).
    assert (Hdl : (length d <= length (bufio.buf b))%nat) by (unfold len in Hd; lia).
    cbn [bufio.buf bufio.r bufio.rd bufio.err].
    destruct (length d =? 0)%nat eqn:Ed; bool_to_prop_in Ed.
    + cbn [bufio.readErr]. eexists _, _, _. split; [reflexivity |]. split; [| exact Hn].
      destruct Hwf as [Hpos Hsize].
      split; [split; cbn; [lia | now rewrite length_copy] |].
      split; [cbn; apply length_copy |].
      rewrite !remaining_buffered, Hempty. unfold buffered. cbn.
      rewrite <- Hsrc. destruct d; [reflexivity | discriminate].
    + set (b1 := bufio.mkReader (copy (bufio.buf b) d) 0 (length d) rd' e).
      assert (Hwf1 : bufio.wf b1).
      { destruct Hwf as [Hpos Hsize]. split; cbn; rewrite length_copy; lia. }
      destruct (HfromBuf b1 Hwf1) as [Hc Hlen].
      eexists _, _, _. split; [reflexivity |]. split; [| exact Hlen].
      refine (consumed_trans b b1 _ [] _ _ Hc).
      split; [exact Hwf1 |]. split; [cbn; apply length_copy |].
      rewrite !remaining_buffered, Hempty. unfold buffered, b1. cbn.
      rewrite copy_prefix by assumption.
      rewrite firstn_app_exact by reflexivity. exact (eq_sym Hsrc).
Qed.

(** ** The stream readers of the operators *)

Lemma firstn_len (l : list byte) (n : Z) :
  0 <= n <= len l -> len (firstn (Z.to_nat n) l) = n.
Proof. intros H. unfold len in *. rewrite length_firstn. lia. Qed.

Lemma consumed_length (b b' : bufio.Reader) (c : list byte) :
  consumed b b' c -> len (bufio.remaining b) = len c + len (bufio.remaining b').
Proof. intros (_ & _ & Hr). now rewrite Hr, len_app. Qed.

Lemma Buffered_le_remaining (b : bufio.Reader) :
  bufio.wf b -> Z.of_nat (bufio.Buffered b) <= len (bufio.remaining b).
Proof.
  intros [Hpos _]. rewrite remaining_buffered, len_app. unfold len at 1.
  rewrite length_buffered by lia. pose proof (len_nonneg (io.pending (bufio.rd b))). lia.
Qed.

(** [int64Operator.Read] returns, and the stream is where it was: the
    8 bytes it decodes are still the next bytes to read. *)
Lemma int64Operator_Read_spec (b : bufio.Reader) :
  bufio.wf b ->
  exists data e b',
    int64Operator.Read b = Ok (data, e, b')
    /\ consumed b b' []
    /\ (e = None ->
        8 <= len (bufio.remaining b)
        /\ data = fmt.Sprintf_d (int64 (le_combine (firstn 8 (bufio.remaining b))))).
Proof.
  intros Hwf. unfold int64Operator.Read.
  destruct (Peek_spec 8 b Hwf ltac:(lia)) as (v & e & b1 & Hp & Hc & Hok).
  rewrite Hp. cbn [bind]. destruct e as [e |].
  { eexists _, _, _. split; [reflexivity |]. split; [exact Hc | discriminate]. }
  destruct (Hok eq_refl) as (_ & Hbuf & Hbytes).
  pose proof (Buffered_le_remaining b1 (proj1 Hc)) as Hrem.
  pose proof (consumed_length b b1 [] Hc) as Hlen. change (len []) with 0 in Hlen.
  rewrite Hbytes. unfold binary.Uint64.
  rewrite firstn_len by lia. change (8 <=? 8) with true. cbn [bind].
  change (Z.to_nat 8) with 8%nat. rewrite firstn_firstn.
  change (Nat.min 8 8) with 8%nat.
  eexists _, _, _. split; [reflexivity |]. split; [exact Hc |].
  intros _. split; [lia | reflexivity].
Qed.

(** [stringOperator.Read] returns; without an error it has taken the 4
    bytes of the length field and as many bytes as the field says, which
    are the value. *)
Lemma stringOperator_Read_spec (b : bufio.Reader) :
  bufio.wf b ->
  exists data e b',
    stringOperator.Read b = Ok (data, e, b')
    /\ bufio.wf b' /\ length (bufio.buf b') = length (bufio.buf b)
    /\ (e = None ->
        exists hdr,
          length hdr = 4%nat
          /\ bufio.remaining b = hdr ++ data ++ bufio.remaining b'
          /\ len data = le_combine hdr).
Proof.
  intros Hwf. unfold stringOperator.Read.
  destruct (Peek_spec 4 b Hwf ltac:(lia)) as (v & e & b1 & Hp & Hc & Hok).
  rewrite Hp. cbn [bind]. destruct e as [e |].
  { eexists _, _, _. split; [reflexivity |].
    split; [apply Hc | split; [apply Hc | discriminate]]. }
  destruct (Hok eq_refl) as (_ & Hbuf & Hbytes).
  assert (Hwf1 : bufio.wf b1) by apply Hc.
  pose proof (Buffered_le_remaining b1 Hwf1) as Hrem.
  pose proof (consumed_length b b1 [] Hc) as Hlen. change (len []) with 0 in Hlen.
  rewrite Hbytes. unfold binary.Uint32.
  rewrite firstn_len by lia. change (4 <=? 4) with true. cbn [bind].
  change (Z.to_nat 4) with 4%nat. rewrite firstn_firstn.
  change (Nat.min 4 4) with 4%nat.
  set (hdr := firstn 4 (bufio.remaining b)).
  rewrite Discard_buffered by lia. cbn [bind]. change (Z.to_nat 4) with 4%nat.
  pose proof (advance_consumed b1 4%nat Hwf1 ltac:(lia)) as Hc2.
  set (b2 := bufio.advance b1 4%nat) in *.
  assert (Hhdr : firstn 4%nat (buffered b1) = hdr).
  { unfold hdr. destruct Hc as (_ & _ & Hr). cbn [app] in Hr.
    rewrite Hr, remaining_buffered, firstn_app_le; [reflexivity |].
    rewrite length_buffered by (destruct Hwf1; lia). lia. }
  rewrite Hhdr in Hc2.
  pose proof (le_combine_bound hdr) as Hvs.
  destruct (Read_spec (le_combine hdr) b2 (proj1 Hc2) ltac:(lia))
    as (got & e & b3 & Hrd & Hc3 & Hgot).
  pose proof (consumed_trans b b1 b2 _ _ Hc Hc2) as Hc12.
  pose proof (consumed_trans b b2 b3 _ _ Hc12 Hc3) as Hc13.
  destruct Hc13 as (Hwf3 & Hl3 & Hr3).
  rewrite Hrd. destruct e as [e |].
  { eexists _, _, _. split; [reflexivity |].
    split; [exact Hwf3 | split; [exact Hl3 | discriminate]]. }
  destruct (len got =? le_combine hdr) eqn:Efull; bool_to_prop_in Efull; cbn [negb].
  2:{ eexists _, _, _. split; [reflexivity |].
      split; [exact Hwf3 | split; [exact Hl3 | discriminate]]. }
  eexists _, _, _. split; [reflexivity |].
  split; [exact Hwf3 | split; [exact Hl3 |]].
  intros _. exists hdr. split.
  { unfold hdr. rewrite length_firstn. unfold len in *. lia. }
  rewrite copy_same_length
    by (unfold make; rewrite repeat_length; unfold len in Efull; lia).
  split; [| exact Efull].
  rewrite Hr3. cbn [app]. now rewrite app_assoc.
Qed.

(** ** readValue on a stream of records *)

Lemma app_eq_length (a b x y : list byte) :
  a ++ x = b ++ y -> length a = length b -> a = b /\ x = y.
Proof.
  revert b. induction a as [| c a IH]; intros [| d b] H Hl; try discriminate.
  - now split.
  - cbn in H. injection H as -> H. destruct (IH b H) as [-> ->]; [cbn in Hl; lia |].
    now split.
Qed.

Lemma index_singleton (t : byte) : index (whole [t]) 0 = Ok t.
Proof. reflexivity. Qed.

(** One successful [readValue] on a reader that stands before the wire
    image of a STRING record takes exactly that image off the stream. *)
Lemma readValue_string_record (order : list (list byte * byte)) (b b' : bufio.Reader)
    (k v rest : list byte) (size : Z) (out : output) :
  bufio.wf b -> len k < 2 ^ 32 -> len v < 2 ^ 32 ->
  bufio.remaining b = wire size k STRING_TYPE (le_split 4 (len v) ++ v) ++ rest ->
  readValue_in order b = Ok (out, None, b') ->
  bufio.wf b' /\ length (bufio.buf b') = length (bufio.buf b)
  /\ bufio.remaining b' = rest /\ o_value out = v.
Proof.
  intros Hwf Hk Hv Hstream Hrv.
  pose proof (len_nonneg k) as Hk0. pose proof (len_nonneg v) as Hv0.
  pose proof (len_nonneg rest) as Hr0.
  unfold wire in Hstream. rewrite (uint32_small (len k)) in Hstream by lia.
  set (h1 := le_split 4 (uint32 size)) in *.
  assert (Hh1 : length h1 = 4%nat) by apply length_le_split.
  unfold readValue_in in Hrv.
  (* header, err := in.Peek(8) *)
  destruct (Peek_spec 8 b Hwf ltac:(lia)) as (v8 & e & b1 & Hp1 & Hc1 & Hok1).
  rewrite Hp1 in Hrv. cbn [bind] in Hrv. destruct e as [e |]; [discriminate |].
  destruct (Hok1 eq_refl) as (_ & _ & Hbytes). clear Hok1 Hp1.
  assert (Hhdr : bufio.bytes_of b1 v8 = h1 ++ le_split 4 (len k)).
  { rewrite Hbytes, Hstream.
    replace ((h1 ++ le_split 4 (len k) ++ k ++ STRING_TYPE :: le_split 4 (len v) ++ v) ++ rest)
      with ((h1 ++ le_split 4 (len k))
              ++ (k ++ STRING_TYPE :: le_split 4 (len v) ++ v) ++ rest)
      by (rewrite <- ?app_assoc; reflexivity).
    apply firstn_app_exact.
    rewrite length_app, Hh1, length_le_split. reflexivity. }
  rewrite Hhdr in Hrv. unfold slice_from, slen in Hrv. cbn [whole elems] in Hrv.
  rewrite len_app, len_le_split in Hrv. unfold len at 1 in Hrv. rewrite Hh1 in Hrv.
  cbn [Z.of_nat Pos.of_succ_nat Pos.succ Z.add Pos.add Z.leb Z.compare Pos.compare
         Pos.compare_cont andb bind elems] in Hrv.
  change (Z.to_nat 4) with 4%nat in Hrv.
  rewrite (skipn_app_exact h1) in Hrv by assumption.
  rewrite <- (app_nil_r (le_split 4 (len k))) in Hrv.
  rewrite Uint32_le_split, uint32_small in Hrv by lia. cbn [bind] in Hrv.
  (* in.Discard(keySize + 8) *)
  assert (Hwf1 : bufio.wf b1) by apply Hc1.
  destruct (Discard_spec (len k + 8) b1 Hwf1 ltac:(lia)) as (kk & e & b2 & c & Hd2 & Hc2 & Hlc & Hok2).
  rewrite Hd2 in Hrv. cbn [bind] in Hrv. destruct e as [e |]; [discriminate |].
  specialize (Hok2 eq_refl). subst kk. clear Hd2.
  assert (Hrem2 : c = h1 ++ le_split 4 (len k) ++ k
                  /\ bufio.remaining b2 = STRING_TYPE :: le_split 4 (len v) ++ v ++ rest).
  { destruct Hc1 as (_ & _ & Hr1). destruct Hc2 as (_ & _ & Hr2). cbn [app] in Hr1.
    rewrite Hr1, Hr2 in Hstream.
    replace ((h1 ++ le_split 4 (len k) ++ k ++ STRING_TYPE :: le_split 4 (len v) ++ v) ++ rest)
      with ((h1 ++ le_split 4 (len k) ++ k) ++ STRING_TYPE :: le_split 4 (len v) ++ v ++ rest)
      in Hstream
      by (rewrite <- ?app_assoc; cbn [app]; rewrite <- ?app_assoc; reflexivity).
    apply app_eq_length in Hstream; [exact Hstream |].
    rewrite !length_app, Hh1, length_le_split. unfold len in *. lia. }
  destruct Hrem2 as [-> Hrem2].
  (* valueType, err := in.Peek(1) *)
  assert (Hwf2 : bufio.wf b2) by apply Hc2.
  destruct (Peek_spec 1 b2 Hwf2 ltac:(lia)) as (v1 & e & b3 & Hp3 & Hc3 & Hok3).
  rewrite Hp3 in Hrv. cbn [bind] in Hrv. destruct e as [e |]; [discriminate |].
  destruct (Hok3 eq_refl) as (Hv1 & Hbuf3 & Hbytes1). clear Hok3 Hp3.
  rewrite Hrem2 in Hbytes1. change (Z.to_nat 1) with 1%nat in *. cbn [firstn] in Hbytes1.
  assert (Hwf3 : bufio.wf b3) by apply Hc3.
  (* in.Discard(1) *)
  rewrite Discard_buffered in Hrv by lia. cbn [bind] in Hrv.
  change (Z.to_nat 1) with 1%nat in Hrv.
  pose proof (advance_consumed b3 1 Hwf3 ltac:(lia)) as Hc4.
  set (b4 := bufio.advance b3 1) in *.
  assert (Hsame : bufio.bytes_of b4 v1 = [STRING_TYPE]) by exact Hbytes1.
  rewrite Hsame, index_singleton in Hrv. cbn [bind] in Hrv.
  change (operators STRING_TYPE) with (Some stringOperator.self) in Hrv.
  cbn [Read stringOperator.self] in Hrv.
  assert (Hrem4 : bufio.remaining b4 = le_split 4 (len v) ++ v ++ rest).
  { destruct Hc3 as (_ & _ & Hr3). destruct Hc4 as (_ & _ & Hr4). cbn [app] in Hr3.
    rewrite Hr3, Hr4 in Hrem2.
    change (STRING_TYPE :: le_split 4 (len v) ++ v ++ rest)
      with ([STRING_TYPE] ++ le_split 4 (len v) ++ v ++ rest) in Hrem2.
    apply app_eq_length in Hrem2; [apply Hrem2 |].
    rewrite length_firstn, length_buffered by (destruct Hwf3; lia). cbn [length]. lia. }
  (* operator.Read(in) *)
  destruct (stringOperator_Read_spec b4 (proj1 Hc4))
    as (data & e & b5 & Hrd5 & Hwf5 & Hl5 & Hok5).
  rewrite Hrd5 in Hrv. cbn [bind] in Hrv. destruct e as [e |]; [discriminate |].
  destruct (Hok5 eq_refl) as (hdr & Hlh & Hr5 & Hld). clear Hok5 Hrd5.
  rewrite Hrem4 in Hr5.
  apply app_eq_length in Hr5; [| now rewrite length_le_split].
  destruct Hr5 as [<- Hr5].
  rewrite le_combine_split in Hld. change (Z.of_nat 4 * 8) with 32 in Hld.
  rewrite Z.mod_small in Hld by lia.
  apply app_eq_length in Hr5; [| unfold len in Hld; lia].
  destruct Hr5 as [Hdata Hrest]. subst data.
  destruct (index (whole (bufio.bytes_of b5 v1)) 0) as [t' |]; [| discriminate].
  cbn [bind] in Hrv. injection Hrv as <- <-.
  split; [exact Hwf5 |]. split; [| split; [now symmetry | reflexivity]].
  rewrite Hl5. destruct Hc1 as (_ & <- & _). destruct Hc2 as (_ & <- & _).
  destruct Hc3 as (_ & <- & _). reflexivity.
Qed.

Lemma encoded_string (e : Entry) :
  string_record e ->
  encoded e = wire (len (key e) + 1 + len (value e) + 12) (key e) STRING_TYPE
                (le_split 4 (len (value e)) ++ value e).
Proof.
  intros (Ht & _ & Hv). unfold encoded. rewrite (Entry_Encode_string e Ht).
  cbn [whole elems]. rewrite uint32_small by (pose proof (len_nonneg (value e)); lia).
  reflexivity.
Qed.

(** C6, as the code has it.  Let a reader stand at the start of a sequence
    of encoded STRING records whose keys and values are shorter than 2^32
    bytes, followed by anything.  After [k] successful calls of [readValue]
    the reader stands at the start of record [k] of the sequence, that is,
    every call has taken exactly the bytes of one record, and the values
    returned are the values of the records read. *)
Theorem readValue_alignment (k : nat) :
  forall (es : list Entry) (tail : list byte) (rd rd' : bufio.Reader) (outs : list output),
    bufio.wf rd ->
    Forall string_record es ->
    bufio.remaining rd = stream es ++ tail ->
    (k <= length es)%nat ->
    readValues k rd = Some (outs, rd') ->
    bufio.wf rd'
    /\ bufio.remaining rd' = stream (skipn k es) ++ tail
    /\ map o_value outs = map value (firstn k es).
Proof.
  induction k as [| k IH]; intros es tail rd rd' outs Hwf Hes Hrem Hk Hrun.
  - cbn in Hrun. injection Hrun as <- <-.
    split; [exact Hwf | split; [exact Hrem | reflexivity]].
  - destruct es as [| e es]; [cbn in Hk; lia |].
    cbn [readValues] in Hrun.
    destruct (readValue rd) as [[[out [err |]] rd1] |] eqn:Hrv; try discriminate.
    destruct (readValues k rd1) as [[outs1 rd2] |] eqn:Hrest; [| discriminate].
    injection Hrun as <- <-.
    inversion Hes as [| ? ? He Hes']; subst.
    cbn [stream flat_map] in Hrem. fold (stream es) in Hrem.
    rewrite (encoded_string e He), <- app_assoc in Hrem.
    destruct He as (Ht & Hkl & Hvl).
    destruct (readValue_string_record typeToByte rd rd1 (key e) (value e)
                (stream es ++ tail) _ out Hwf Hkl Hvl Hrem Hrv)
      as (Hwf1 & _ & Hrem1 & Hout).
    destruct (IH es tail rd1 rd2 outs1 Hwf1 Hes' Hrem1 ltac:(cbn in Hk; lia) Hrest)
      as (Hwf2 & Hrem2 & Houts).
    split; [exact Hwf2 |]. split; [exact Hrem2 |].
    cbn [map firstn]. now rewrite Hout, Houts.
Qed.

Lemma NewReaderSize_wf (src : io.Reader) (size : Z) :
  bufio.wf (bufio.NewReaderSize src size).
Proof.
  unfold bufio.wf, bufio.NewReaderSize, make. cbn [bufio.r bufio.w bufio.buf].
  rewrite repeat_length. lia.
Qed.

Lemma readValue_alignment_witness :
  exists outs rd',
    readValues 2 (bufio.NewReader [io.Data (stream [alice; bob; alice])]) = Some (outs, rd')
    /\ bufio.remaining rd' = stream [alice]
    /\ map o_value outs = [str "alice"%string; str "bob"%string].
Proof.
  destruct (readValues 2 (bufio.NewReader [io.Data (stream [alice; bob; alice])]))
    as [[outs rd'] |] eqn:Hrun; [| vm_compute in Hrun; discriminate].
  exists outs, rd'. split; [reflexivity |].
  destruct (readValue_alignment 2 [alice; bob; alice] []
              (bufio.NewReader [io.Data (stream [alice; bob; alice])]) rd' outs)
    as (_ & Hrem & Houts).
  - apply NewReaderSize_wf.
  - repeat constructor; cbn; lia.
  - vm_compute. reflexivity.
  - cbn; lia.
  - exact Hrun.
  - split; [| exact Houts]. rewrite Hrem. vm_compute. reflexivity.
Defined.

Lemma wrapKey_split : wrapKey = make 8 ++ make (2 ^ 32 - 8).
Proof. exact (make_add 8 (2 ^ 32 - 8) ltac:(discriminate) ltac:(discriminate)). Qed.

Lemma len_wrapKey : len wrapKey = 2 ^ 32.
Proof. unfold wrapKey. apply len_make. discriminate. Qed.

Lemma encoded_wrapKey : encoded (mkEntry wrapKey STRING_TYPE []) = wrapHead ++ wrapTail.
Proof.
  unfold encoded. rewrite Entry_Encode_string by reflexivity.
  cbn [whole elems key value]. unfold wire, wrapHead, wrapTail.
  rewrite len_wrapKey, wrapKey_split.
  change (uint32 (2 ^ 32 + 1 + len [] + 12)) with 13.
  change (uint32 (2 ^ 32)) with 0. change (uint32 (len [])) with 0.
  rewrite <- !app_assoc, app_nil_r. reflexivity.
Qed.

(** On a 16-byte reader whose source delivers 16 bytes first, [readValue]
    works inside the buffer; what the source holds after them, [tl], is not
    looked at. *)
Lemma readValue_wrapHead (tl : list byte) :
  readValue (bufio.NewReaderSize [io.Data wrapHead; io.Data tl] 16)
  = Ok (mkOutput (str "string"%string) [], None,
        bufio.mkReader wrapHead 13 16 [io.Data tl] None)
  /\ bufio.remaining (bufio.NewReaderSize [io.Data wrapHead; io.Data tl] 16)
     = wrapHead ++ tl ++ []
  /\ bufio.remaining (bufio.mkReader wrapHead 13 16 [io.Data tl] None)
     = [Byte.x00; Byte.x00; Byte.x00] ++ tl ++ [].
Proof. split; [| split]; vm_compute; reflexivity. Qed.

(** C6 as stated fails for records that do not fit the 4-byte fields.  The
    reader stands at the start of the record with the key [wrapKey], which
    is all of the stream. [readValue] succeeds, having read 0 as the key
    length, and leaves the reader 13 bytes into the record, not at its
    end. *)
Lemma readValue_huge_key_misaligned :
  exists rd out rd',
    bufio.wf rd
    /\ bufio.remaining rd = stream [mkEntry wrapKey STRING_TYPE []]
    /\ readValue rd = Ok (out, None, rd')
    /\ bufio.remaining rd' <> stream [].
Proof.
  destruct (readValue_wrapHead wrapTail) as (Hrun & Hbefore & Hafter).
  eexists _, _, _. split; [apply NewReaderSize_wf |].
  split; [| split; [exact Hrun |]].
  - rewrite Hbefore. cbn [stream flat_map]. rewrite encoded_wrapKey, <- app_assoc.
    reflexivity.
  - rewrite Hafter. discriminate.
Qed.

(** ** The stream reader of INT64 does not move the cursor *)

(** C5, what the code does.  On every reader, [int64Operator.Read]
    returns, and the unread stream is what it was before the call: the
    cursor has advanced by 0 bytes, not by 8.  When it reports no error, the
    text it returns is the decimal form of the next 8 bytes of the stream,
    read as a little-endian two's complement integer; and it reports no
    error when the reader holds 8 bytes in its buffer. *)
Theorem int64_Read_leaves_cursor (rd : bufio.Reader) :
  bufio.wf rd ->
  exists data e rd',
    int64Operator.Read rd = Ok (data, e, rd')
    /\ bufio.remaining rd' = bufio.remaining rd
    /\ (e = None ->
        8 <= len (bufio.remaining rd)
        /\ data = fmt.Sprintf_d (int64 (le_combine (firstn 8 (bufio.remaining rd)))))
    /\ (8 <= Z.of_nat (bufio.Buffered rd) -> e = None).
Proof.
  intros Hwf.
  destruct (int64Operator_Read_spec rd Hwf) as (data & e & rd' & Hrd & Hc & Hok).
  exists data, e, rd'. split; [exact Hrd |]. split; [| split; [exact Hok |]].
  - destruct Hc as (_ & _ & Hr). now rewrite Hr.
  - intros Hheld. unfold int64Operator.Read in Hrd.
    rewrite Peek_buffered in Hrd by (assumption || lia). cbn [bind] in Hrd.
    destruct (binary.Uint64 _); cbn [bind] in Hrd; congruence.
Qed.

Lemma int64_Read_leaves_cursor_witness :
  exists data rd',
    int64Operator.Read afterTag = Ok (data, None, rd')
    /\ data = str "42"%string
    /\ bufio.remaining rd' = bufio.remaining afterTag.
Proof.
  destruct (int64_Read_leaves_cursor afterTag)
    as (data & e & rd' & Hrd & Hrem & Hok & Hheld).
  - split; vm_compute; lia.
  - assert (He : e = None) by (apply Hheld; vm_compute; discriminate). subst e.
    exists data, rd'. split; [exact Hrd |]. split; [| exact Hrem].
    destruct (Hok eq_refl) as [_ ->]. vm_compute. reflexivity.
Defined.

(** The consequence for a scan: after the INT64 record the next call of
    [readValue] starts 12 bytes too early and takes the value bytes for a
    header. *)
Example readValue_after_int64 :
  exists out rd',
    readValue (bufio.NewReader [io.Data (stream [counter; alice])])
    = Ok (out, None, rd')
    /\ o_value out = str "42"%string
    /\ bufio.remaining rd'
       = le_split 8 42 ++ make 4 ++ stream [alice]
    /\ readValues 2 (bufio.NewReader [io.Data (stream [counter; alice])]) = None.
Proof.
  eexists _, _. split; [vm_compute; reflexivity |].
  split; [reflexivity |]. split; vm_compute; reflexivity.
Qed.

(** The type name that [readValue] returns is read through the slice that
    [Peek(1)] handed out, after [operator.Read] has refilled the buffer:
    on a 16-byte reader the INT64 record [counter] is reported with the
    value "42" and the type name "string". *)
Example readValue_type_name_stale :
  exists rd',
    readValue (bufio.NewReaderSize [io.Data (stream [counter])] 16)
    = Ok (mkOutput (str "string"%string) (str "42"%string), None, rd').
Proof. eexists. vm_compute. reflexivity. Qed.

(** * Further properties of the code *)

(** ** What Encode writes, and when it fails *)

(** X1. [Entry.Encode] returns a buffer exactly for the STRING records and
    for the INT64 records whose text [ParseInt] accepts.  Its only panics
    are the nil dereference on an unregistered tag and the [ParseInt] error
    of an INT64 text: no index or slice-bounds fault comes out of the
    buffer arithmetic, whatever the lengths of key and value. *)
Theorem Encode_outcome (e : Entry) :
  match Entry_Encode e with
  | Ok _ =>
      valueType e = STRING_TYPE
      \/ (valueType e = INT64_TYPE /\ exists i, strconv.ParseInt (value e) = inl i)
  | Panic p =>
      (p = NilDereference /\ operators (valueType e) = None)
      \/ (exists err, p = PanicNumError err /\ valueType e = INT64_TYPE
                      /\ strconv.ParseInt (value e) = inr err)
  end.
Proof.
  destruct (operators_cases (valueType e)) as [[Ht Hop] | [[Ht Hop] | (H0 & H1 & Hop)]].
  - rewrite (Entry_Encode_string e Ht). now left.
  - destruct (strconv.ParseInt (value e)) as [i | err] eqn:Hp.
    + rewrite (Entry_Encode_int64 e i Ht Hp). right. split; [exact Ht | now exists i].
    + unfold Entry_Encode. rewrite Hop. cbn [Encode int64Operator.self].
      rewrite (int64Operator_Encode_panics e err Hp). right. now exists err.
  - unfold Entry_Encode. rewrite Hop. now left.
Qed.

(** X2. The buffer of a STRING record, byte for byte: the total size and the
    key length as 4-byte little-endian fields (each reduced modulo 2^32),
    the key, the tag 0, the value length in 4 bytes and the value; nothing
    follows, and the slice has no spare capacity. *)
Theorem Encode_string_layout (e : Entry) :
  valueType e = STRING_TYPE ->
  Entry_Encode e =
    Ok (mkSlice
          (le_split 4 (uint32 (len (key e) + 1 + len (value e) + 12))
             ++ le_split 4 (uint32 (len (key e)))
             ++ key e
             ++ Byte.x00 :: le_split 4 (uint32 (len (value e))) ++ value e)
          []).
Proof. intros Ht. exact (Entry_Encode_string e Ht). Qed.

Lemma Encode_string_layout_witness :
  Entry_Encode alice =
    Ok (mkSlice (le_split 4 24 ++ le_split 4 6 ++ str "user:1"%string
                   ++ Byte.x00 :: le_split 4 5 ++ str "alice"%string) []).
Proof. exact (Encode_string_layout alice eq_refl). Defined.

(** X3. The buffer of an INT64 record whose text reads as [i]: the total
    size [keyLength + 21] and the key length as 4-byte fields, the key, the
    tag 1, the 8 bytes of [i] in two's complement, little-endian, and 4 zero
    bytes.  The text enters the buffer only through [i]: "42", "+42" and
    "042" give the same bytes. *)
Theorem Encode_int64_layout (e : Entry) (i : Z) :
  valueType e = INT64_TYPE ->
  strconv.ParseInt (value e) = inl i ->
  Entry_Encode e =
    Ok (mkSlice
          (le_split 4 (uint32 (len (key e) + 21))
             ++ le_split 4 (uint32 (len (key e)))
             ++ key e
             ++ Byte.x01 :: le_split 8 (uint64 i)
             ++ [Byte.x00; Byte.x00; Byte.x00; Byte.x00])
          []).
Proof.
  intros Ht Hp. rewrite (Entry_Encode_int64 e i Ht Hp). unfold whole, wire.
  replace (len (key e) + 1 + 8 + 12) with (len (key e) + 21) by lia. reflexivity.
Qed.

Lemma Encode_int64_layout_witness :
  Entry_Encode (mkEntry (str "ctr"%string) INT64_TYPE (str "+042"%string))
  = Entry_Encode counter.
Proof.
  rewrite (Encode_int64_layout
             (mkEntry (str "ctr"%string) INT64_TYPE (str "+042"%string)) 42)
    by reflexivity.
  reflexivity.
Defined.

(** ** What Decode looks at *)

Section FirstFour.

(** Two buffers that differ in their first four bytes only. *)
Variables h h' rest sp : list byte.
Hypothesis Hh : length h = 4%nat.
Hypothesis Hh' : length h' = 4%nat.

Let input := mkSlice (h ++ rest) sp.
Let input' := mkSlice (h' ++ rest) sp.

Lemma slen_first_four : slen input = slen input'.
Proof. unfold slen, input, input'; cbn [elems]. rewrite !len_app. unfold len. lia. Qed.

Lemma scap_first_four : scap input = scap input'.
Proof.
  unfold scap. fold (slen input) (slen input'). now rewrite slen_first_four.
Qed.

Lemma skipn_first_four (n : nat) (tl : list byte) :
  (4 <= n)%nat -> skipn n ((h ++ rest) ++ tl) = skipn n ((h' ++ rest) ++ tl).
Proof.
  intros Hn. rewrite <- !app_assoc.
  rewrite !(skipn_app n), Hh, Hh'.
  rewrite (skipn_all2 h), (skipn_all2 h') by lia. reflexivity.
Qed.

Lemma slice_from_first_four (lo : Z) :
  4 <= lo ->
  match slice_from input lo, slice_from input' lo with
  | Ok s, Ok s' => elems s = elems s' /\ spare s = spare s'
  | Panic p, Panic p' => p = p'
  | _, _ => False
  end.
Proof.
  intros Hlo. unfold slice_from. rewrite <- slen_first_four.
  destruct ((0 <=? lo) && (lo <=? slen input)); [| reflexivity].
  cbn [elems spare]. split; [| reflexivity].
  unfold input, input'; cbn [elems].
  pose proof (skipn_first_four (Z.to_nat lo) [] ltac:(lia)) as H.
  now rewrite !app_nil_r in H.
Qed.

Lemma slice_range_first_four (lo hi : Z) :
  4 <= lo -> slice_range input lo hi = slice_range input' lo hi.
Proof.
  intros Hlo. unfold slice_range. rewrite <- scap_first_four.
  destruct ((0 <=? lo) && (lo <=? hi) && (hi <=? scap input)) eqn:E; [| reflexivity].
  bool_to_prop_in E. unfold input, input'; cbn [elems spare].
  rewrite (skipn_first_four (Z.to_nat lo)) by lia.
  rewrite (skipn_first_four (Z.to_nat hi)) by lia. reflexivity.
Qed.

Lemma index_first_four (i : Z) :
  4 <= i -> index input i = index input' i.
Proof.
  intros Hi. unfold index. rewrite <- slen_first_four.
  destruct ((0 <=? i) && (i <? slen input)); [| reflexivity].
  unfold input, input'; cbn [elems].
  rewrite !nth_error_app2 by lia. now rewrite Hh, Hh'.
Qed.

Lemma slice_from_Uint32_first_four (lo : Z) :
  4 <= lo ->
  (s <- slice_from input lo ;; binary.Uint32 (elems s))
  = (s <- slice_from input' lo ;; binary.Uint32 (elems s)).
Proof.
  intros Hlo. pose proof (slice_from_first_four lo Hlo) as H.
  destruct (slice_from input lo) as [s |], (slice_from input' lo) as [s' |];
    try contradiction; cbn [bind].
  - destruct H as [-> _]. reflexivity.
  - now subst.
Qed.

Lemma stringOperator_Decode_first_four (e : Entry) :
  stringOperator.Decode input e = stringOperator.Decode input' e.
Proof.
  unfold stringOperator.Decode, TYPE_SIZE. pose proof (len_nonneg (key e)).
  rewrite slice_from_Uint32_first_four by lia.
  destruct (bind _ _) as [vl |]; [| reflexivity].
  now rewrite slice_range_first_four by lia.
Qed.

Lemma int64Operator_Decode_first_four (e : Entry) :
  int64Operator.Decode input e = int64Operator.Decode input' e.
Proof.
  unfold int64Operator.Decode, TYPE_SIZE. pose proof (len_nonneg (key e)).
  now rewrite slice_range_first_four by lia.
Qed.

Lemma slice_range_ordered (s x : slice) (lo hi : Z) :
  slice_range s lo hi = Ok x -> lo <= hi.
Proof.
  unfold slice_range.
  destruct ((0 <=? lo) && (lo <=? hi) && (hi <=? scap s)) eqn:E; [| discriminate].
  bool_to_prop_in E. lia.
Qed.

Lemma Entry_Decode_first_four (e : Entry) :
  Entry_Decode input e = Entry_Decode input' e.
Proof.
  unfold Entry_Decode.
  rewrite slice_from_Uint32_first_four by lia.
  destruct (bind _ _) as [kl |]; [| reflexivity].
  rewrite slice_range_first_four by lia.
  destruct (slice_range input' 8 (uint32 (kl + 8))) as [src |] eqn:Hsrc; [| reflexivity].
  apply slice_range_ordered in Hsrc.
  rewrite index_first_four by lia.
  destruct (index input' (uint32 (kl + 8))) as [t |]; [| reflexivity].
  destruct (operators_cases t) as [[_ ->] | [[_ ->] | (_ & _ & ->)]];
    cbn [Decode stringOperator.self int64Operator.self].
  - apply stringOperator_Decode_first_four.
  - apply int64Operator_Decode_first_four.
  - reflexivity.
Qed.

End FirstFour.

(** X4. [Entry.Decode] never reads the total-size field: two buffers that
    differ only in their first four bytes are decoded alike, in outcome and
    in what is stored. *)
Theorem Decode_ignores_totalSize (h h' rest sp : list byte) (e : Entry) :
  length h = 4%nat -> length h' = 4%nat ->
  Entry_Decode (mkSlice (h ++ rest) sp) e = Entry_Decode (mkSlice (h' ++ rest) sp) e.
Proof. intros Hh Hh'. now apply Entry_Decode_first_four. Qed.

Lemma Decode_ignores_totalSize_witness :
  Entry_Decode (mkSlice (le_split 4 24 ++ skipn 4 (encoded alice)) []) zeroEntry
  = Entry_Decode (mkSlice (le_split 4 0 ++ skipn 4 (encoded alice)) []) zeroEntry.
Proof.
  apply (Decode_ignores_totalSize (le_split 4 24) (le_split 4 0)); reflexivity.
Defined.

(** A STRING record decodes from the bytes of its wire image; what follows
    them, in the slice or in its spare capacity, is not looked at. *)
Lemma Entry_Decode_string_wire (h1 k v tail sp : list byte) (e : Entry) :
  length h1 = 4%nat -> len k + 8 < 2 ^ 32 -> len v < 2 ^ 32 ->
  Entry_Decode
    (mkSlice (h1 ++ le_split 4 (len k) ++ k ++ STRING_TYPE :: le_split 4 (len v) ++ v ++ tail) sp) e
  = (mkEntry k (valueType e) v, Ok tt).
Proof.
  intros Hh Hk Hv. pose proof (len_nonneg v) as Hv0.
  pose proof (len_nonneg tail) as Ht0. pose proof (len_nonneg sp) as Hs0.
  rewrite (Entry_Decode_wire h1 k Hh Hk).
  change (operators STRING_TYPE) with (Some stringOperator.self).
  cbn [Decode stringOperator.self].
  replace (h1 ++ le_split 4 (len k) ++ k ++ STRING_TYPE :: le_split 4 (len v) ++ v ++ tail)
    with ((h1 ++ le_split 4 (len k) ++ k ++ [STRING_TYPE]) ++ le_split 4 (len v) ++ v ++ tail)
    by (rewrite <- ?app_assoc; cbn [app]; rewrite <- ?app_assoc; reflexivity).
  rewrite stringOperator_Decode_at.
  - rewrite len_app. settle_if.
    rewrite <- app_assoc, firstn_app_exact by (unfold len; lia). reflexivity.
  - cbn [set_key key]. rewrite !len_app, len_le_split. unfold len at 1. rewrite Hh.
    change (len [STRING_TYPE]) with 1. lia.
  - lia.
Qed.

(** X5. A buffer that begins with the wire image of a record and goes on
    with anything (the next records of a file, say), in a slice with any
    spare capacity, decodes to that record: the key, and the value text of a
    STRING record or the decimal form of the integer of an INT64 record.
    The key has to be shorter than 2^32 - 8 bytes, a STRING value shorter
    than 2^32 bytes. *)
Theorem Decode_first_record (e e0 : Entry) (tail sp : list byte) :
  len (key e) + 8 < 2 ^ 32 ->
  (valueType e = STRING_TYPE -> len (value e) < 2 ^ 32 ->
   Entry_Decode (mkSlice (encoded e ++ tail) sp) e0
   = (mkEntry (key e) (valueType e0) (value e), Ok tt))
  /\ (forall i, valueType e = INT64_TYPE -> strconv.ParseInt (value e) = inl i ->
      Entry_Decode (mkSlice (encoded e ++ tail) sp) e0
      = (mkEntry (key e) (valueType e0) (fmt.Sprintf_d i), Ok tt)).
Proof.
  intros Hk. pose proof (len_nonneg (key e)) as Hk0.
  pose proof (len_nonneg (value e)) as Hv0. split.
  - intros Ht Hv. unfold encoded. rewrite (Entry_Encode_string e Ht).
    cbn [whole elems]. unfold wire.
    rewrite (uint32_small (len (key e))) by lia.
    rewrite (uint32_small (len (value e))) by lia.
    rewrite <- !app_assoc. cbn [app]. rewrite <- !app_assoc.
    apply Entry_Decode_string_wire; [apply length_le_split | assumption | assumption].
  - intros i Ht Hp. unfold encoded. rewrite (Entry_Encode_int64 e i Ht Hp).
    cbn [whole elems]. unfold wire. rewrite (uint32_small (len (key e))) by lia.
    rewrite <- !app_assoc. cbn [app]. rewrite <- !app_assoc.
    rewrite (Entry_Decode_int64_wire _ (key e) (length_le_split _ _) Hk).
    rewrite (uint64_small (uint64 i)) by (unfold uint64; apply Z.mod_pos_bound; lia).
    rewrite int64_uint64 by (now apply ParseInt_range with (s := value e)).
    reflexivity.
Qed.

Lemma Decode_first_record_witness :
  Entry_Decode (whole (stream [counter; alice; bob])) zeroEntry
  = (mkEntry (str "ctr"%string) Byte.x00 (str "42"%string), Ok tt).
Proof.
  destruct (Decode_first_record counter zeroEntry (stream [alice; bob]) [])
    as [_ Hint]; [reflexivity |].
  exact (Hint 42 eq_refl eq_refl).
Defined.

(** X6. A buffer of fewer than 8 bytes, the empty one included, makes
    [Entry.Decode] panic with an index or slice-bounds fault before it has
    written anything to its target. *)
Theorem Decode_short_buffer (input : slice) (e : Entry) :
  slen input < 8 ->
  exists p, Entry_Decode input e = (e, Panic p) /\ bounds_panic p.
Proof. apply Entry_Decode_short. Qed.

Lemma Decode_short_buffer_witness :
  exists p, Entry_Decode (whole []) alice = (alice, Panic p) /\ bounds_panic p.
Proof. apply (Decode_short_buffer (whole []) alice). reflexivity. Defined.

(** ** Decode and its target *)

(** X7. What [Entry.Decode] does depends on the buffer alone: into whatever
    entry it decodes, it returns or panics alike, and when it returns, the
    key and the value it has stored are the same.  Nothing of the previous
    contents of the target is read. *)
Theorem Decode_target_independent (input : slice) (e1 e2 : Entry) :
  snd (Entry_Decode input e1) = snd (Entry_Decode input e2)
  /\ (snd (Entry_Decode input e1) = Ok tt ->
      key (fst (Entry_Decode input e1)) = key (fst (Entry_Decode input e2))
      /\ value (fst (Entry_Decode input e1)) = value (fst (Entry_Decode input e2))).
Proof.
  unfold Entry_Decode.
  destruct (bind _ _) as [kl | p]; [| split; [reflexivity | discriminate]].
  destruct (slice_range _ _ _) as [src | p]; [| split; [reflexivity | discriminate]].
  destruct (index _ _) as [t | p]; [| split; [reflexivity | discriminate]].
  destruct (operators_cases t) as [[_ ->] | [[_ ->] | (_ & _ & ->)]];
    cbn [Decode stringOperator.self int64Operator.self].
  - unfold stringOperator.Decode. cbn [set_key key].
    destruct (bind _ _) as [vl | p]; [| split; [reflexivity | discriminate]].
    destruct (slice_range _ _ _) as [src' | p]; [| split; [reflexivity | discriminate]].
    split; [reflexivity | intros _; split; reflexivity].
  - unfold int64Operator.Decode. cbn [set_key key].
    destruct (bind _ _) as [u | p]; [| split; [reflexivity | discriminate]].
    split; [reflexivity | intros _; split; reflexivity].
  - split; [reflexivity | discriminate].
Qed.

(** ** Decode reads up to the capacity *)

(** The value of a STRING record, and the integer of an INT64 record, are
    cut out of the backing array: it does not matter where the length of
    the slice ends, once the tag and (for STRING) the length field lie
    inside it. *)
Lemma Entry_Decode_string_cap (h1 k v pay sp tail : list byte) (e : Entry) :
  length h1 = 4%nat -> len k + 8 < 2 ^ 32 -> len v < 2 ^ 32 ->
  pay ++ sp = v ++ tail ->
  Entry_Decode
    (mkSlice (h1 ++ le_split 4 (len k) ++ k ++ STRING_TYPE :: le_split 4 (len v) ++ pay) sp) e
  = (mkEntry k (valueType e) v, Ok tt).
Proof.
  intros Hh Hk Hv Hsplit. pose proof (len_nonneg v) as Hv0.
  pose proof (len_nonneg tail) as Ht0.
  rewrite (Entry_Decode_wire h1 k Hh Hk).
  change (operators STRING_TYPE) with (Some stringOperator.self).
  cbn [Decode stringOperator.self].
  replace (h1 ++ le_split 4 (len k) ++ k ++ STRING_TYPE :: le_split 4 (len v) ++ pay)
    with ((h1 ++ le_split 4 (len k) ++ k ++ [STRING_TYPE]) ++ le_split 4 (len v) ++ pay)
    by (rewrite <- ?app_assoc; cbn [app]; rewrite <- ?app_assoc; reflexivity).
  rewrite stringOperator_Decode_at.
  - rewrite <- len_app, Hsplit, len_app. settle_if.
    rewrite firstn_app_exact by (unfold len; lia). reflexivity.
  - cbn [set_key key]. rewrite !len_app, len_le_split. unfold len at 1. rewrite Hh.
    change (len [STRING_TYPE]) with 1. lia.
  - lia.
Qed.

Lemma Entry_Decode_int64_cap (h1 k pay sp tail : list byte) (u : Z) (e : Entry) :
  length h1 = 4%nat -> len k + 8 < 2 ^ 32 ->
  pay ++ sp = le_split 8 u ++ tail ->
  Entry_Decode (mkSlice (h1 ++ le_split 4 (len k) ++ k ++ INT64_TYPE :: pay) sp) e
  = (mkEntry k (valueType e) (fmt.Sprintf_d (int64 (uint64 u))), Ok tt).
Proof.
  intros Hh Hk Hsplit. pose proof (len_nonneg tail) as Ht0.
  rewrite (Entry_Decode_wire h1 k Hh Hk).
  change (operators INT64_TYPE) with (Some int64Operator.self).
  cbn [Decode int64Operator.self].
  replace (h1 ++ le_split 4 (len k) ++ k ++ INT64_TYPE :: pay)
    with ((h1 ++ le_split 4 (len k) ++ k ++ [INT64_TYPE]) ++ pay)
    by (rewrite <- ?app_assoc; cbn [app]; rewrite <- ?app_assoc; reflexivity).
  rewrite int64Operator_Decode_at.
  - rewrite <- len_app, Hsplit, len_app, len_le_split. settle_if.
    rewrite firstn_app_exact by apply length_le_split.
    rewrite le_combine_split. reflexivity.
  - cbn [set_key key]. rewrite !len_app, !len_le_split.
    unfold len at 1. rewrite Hh. change (len [INT64_TYPE]) with 1. lia.
Qed.

(** X8. [Decode] slices its input up to the capacity, not the length.  Cut
    the encoding of a record short by reslicing ([buf[:n]], which keeps the
    backing array): as long as the slice still holds the tag and, for a
    STRING record, the 4 bytes of the value length, [Decode] stores what it
    stores from the whole buffer, taking the rest of the bytes from beyond
    the length of its input. *)
Theorem Decode_reads_capacity (e e0 : Entry) (n : nat) :
  ((valueType e = STRING_TYPE /\ len (value e) < 2 ^ 32)
   \/ (valueType e = INT64_TYPE /\ exists i, strconv.ParseInt (value e) = inl i)) ->
  len (key e) + 8 < 2 ^ 32 ->
  len (key e) + (if Byte.eqb (valueType e) INT64_TYPE then 9 else 13) <= Z.of_nat n ->
  exists buf,
    Entry_Encode e = Ok buf
    /\ Entry_Decode (resliced n buf) e0 = Entry_Decode buf e0.
Proof.
  intros [[Ht Hv] | (Ht & i & Hp)] Hk Hn; pose proof (len_nonneg (key e)) as Hk0;
    pose proof (len_nonneg (value e)) as Hv0; rewrite Ht in Hn.
  - change (Byte.eqb STRING_TYPE INT64_TYPE) with false in Hn.
    rewrite (Entry_Encode_string e Ht). eexists; split; [reflexivity |].
    unfold resliced, whole, wire; cbn [elems spare].
    rewrite (uint32_small (len (key e))), (uint32_small (len (value e))) by lia.
    set (h1 := le_split 4 (uint32 _)).
    assert (Hh : length h1 = 4%nat) by apply length_le_split.
    replace (h1 ++ le_split 4 (len (key e)) ++ key e
               ++ STRING_TYPE :: le_split 4 (len (value e)) ++ value e)
      with ((h1 ++ le_split 4 (len (key e)) ++ key e
               ++ STRING_TYPE :: le_split 4 (len (value e))) ++ value e)
      by (rewrite <- ?app_assoc; cbn [app]; rewrite <- ?app_assoc; reflexivity).
    set (pre := h1 ++ le_split 4 (len (key e)) ++ key e
                  ++ STRING_TYPE :: le_split 4 (len (value e))).
    assert (Hpre : length pre = Z.to_nat (len (key e) + 13)).
    { unfold pre. rewrite !length_app, Hh. cbn [length].
      rewrite !length_le_split. unfold len. lia. }
    rewrite firstn_app_ge, skipn_app by lia.
    rewrite (skipn_all2 pre) by lia. cbn [app].
    set (m := (n - length pre)%nat).
    transitivity (mkEntry (key e) (valueType e0) (value e), Ok tt).
    + unfold pre. rewrite <- ?app_assoc. cbn [app]. rewrite <- ?app_assoc.
      apply Entry_Decode_string_cap with (tail := []); try assumption.
      now rewrite app_nil_r, app_nil_r, firstn_skipn.
    + symmetry. unfold pre. rewrite <- ?app_assoc. cbn [app]. rewrite <- ?app_assoc.
      apply Entry_Decode_string_cap with (tail := []); try assumption. reflexivity.
  - change (Byte.eqb INT64_TYPE INT64_TYPE) with true in Hn.
    rewrite (Entry_Encode_int64 e i Ht Hp). eexists; split; [reflexivity |].
    unfold resliced, whole, wire; cbn [elems spare].
    rewrite (uint32_small (len (key e))) by lia.
    set (h1 := le_split 4 (uint32 _)).
    assert (Hh : length h1 = 4%nat) by apply length_le_split.
    set (pay := le_split 8 (uint64 i) ++ make 4).
    replace (h1 ++ le_split 4 (len (key e)) ++ key e ++ INT64_TYPE :: pay)
      with ((h1 ++ le_split 4 (len (key e)) ++ key e ++ [INT64_TYPE]) ++ pay)
      by (rewrite <- ?app_assoc; cbn [app]; rewrite <- ?app_assoc; reflexivity).
    set (pre := h1 ++ le_split 4 (len (key e)) ++ key e ++ [INT64_TYPE]).
    assert (Hpre : length pre = Z.to_nat (len (key e) + 9)).
    { unfold pre. rewrite !length_app, Hh, length_le_split. cbn [length].
      unfold len. lia. }
    rewrite firstn_app_ge, skipn_app by lia.
    rewrite (skipn_all2 pre) by lia. cbn [app].
    transitivity (mkEntry (key e) (valueType e0)
                    (fmt.Sprintf_d (int64 (uint64 (uint64 i)))), Ok tt).
    + unfold pre. rewrite <- ?app_assoc. cbn [app]. rewrite <- ?app_assoc.
      apply Entry_Decode_int64_cap with (tail := make 4); try assumption.
      now rewrite app_nil_r, firstn_skipn.
    + symmetry. unfold pre. rewrite <- ?app_assoc. cbn [app]. rewrite <- ?app_assoc.
      apply Entry_Decode_int64_cap with (tail := make 4); try assumption.
      now rewrite app_nil_r.
Qed.

Lemma Decode_reads_capacity_witness :
  exists buf,
    Entry_Encode counter = Ok buf
    /\ Entry_Decode (resliced 12 buf) zeroEntry = Entry_Decode buf zeroEntry.
Proof.
  apply (Decode_reads_capacity counter zeroEntry 12).
  - right. split; [reflexivity |]. exists 42. reflexivity.
  - vm_compute. reflexivity.
  - vm_compute. discriminate.
Defined.

(** ** Encoding what was decoded *)

(** X9. Encoding is stable under a round trip.  Decode the encoding of a
    record into an entry that carries the type tag of the record (which
    [Decode] does not set), and encode the result: the bytes are the bytes
    of the first encoding, also for an INT64 record whose text was not in
    the form that [%d] prints. *)
Theorem Encode_Decode_Encode (e e0 : Entry) :
  ((valueType e = STRING_TYPE /\ len (value e) < 2 ^ 32)
   \/ (valueType e = INT64_TYPE /\ exists i, strconv.ParseInt (value e) = inl i)) ->
  len (key e) + 8 < 2 ^ 32 ->
  valueType e0 = valueType e ->
  exists buf,
    Entry_Encode e = Ok buf
    /\ snd (Entry_Decode buf e0) = Ok tt
    /\ Entry_Encode (fst (Entry_Decode buf e0)) = Ok buf.
Proof.
  intros [[Ht Hv] | (Ht & i & Hp)] Hk Ht0.
  - destruct (Decode_Encode_string e e0 Ht Hk Hv) as (buf & Henc & Hdec).
    exists buf. rewrite Hdec. cbn [fst snd]. split; [exact Henc |].
    split; [reflexivity |]. rewrite <- Henc, Ht0. now destruct e.
  - destruct (Decode_Encode_int64 e e0 i Ht Hp Hk) as (buf & Henc & Hdec).
    exists buf. rewrite Hdec. cbn [fst snd]. split; [exact Henc |].
    split; [reflexivity |].
    rewrite <- Henc, (Entry_Encode_int64 e i Ht Hp).
    rewrite (Entry_Encode_int64 (mkEntry (key e) (valueType e0) (fmt.Sprintf_d i)) i);
      cbn [valueType value key]; [reflexivity | congruence |].
    apply ParseInt_Sprintf_d. now apply ParseInt_range with (s := value e).
Qed.

Lemma Encode_Decode_Encode_witness :
  exists buf,
    Entry_Encode (mkEntry (str "ctr"%string) INT64_TYPE (str "+007"%string)) = Ok buf
    /\ snd (Entry_Decode buf counter) = Ok tt
    /\ Entry_Encode (fst (Entry_Decode buf counter)) = Ok buf.
Proof.
  apply (Encode_Decode_Encode
           (mkEntry (str "ctr"%string) INT64_TYPE (str "+007"%string)) counter).
  - right. split; [reflexivity |]. exists 7. reflexivity.
  - vm_compute. reflexivity.
  - reflexivity.
Defined.

(** ** One encoding, one record *)

Lemma le_split_inj (n : nat) (a b : Z) :
  le_split n a = le_split n b -> a mod 2 ^ (Z.of_nat n * 8) = b mod 2 ^ (Z.of_nat n * 8).
Proof. intros H. apply (f_equal le_combine) in H. now rewrite !le_combine_split in H. Qed.

(** What a buffer that [Encode] has returned says about the record. *)
Lemma Entry_Encode_Ok (e : Entry) (buf : slice) :
  Entry_Encode e = Ok buf ->
  (valueType e = STRING_TYPE
   /\ buf = whole (wire (len (key e) + 1 + len (value e) + 12) (key e) STRING_TYPE
                     (le_split 4 (uint32 (len (value e))) ++ value e)))
  \/ (valueType e = INT64_TYPE
      /\ exists i, strconv.ParseInt (value e) = inl i
         /\ buf = whole (wire (len (key e) + 1 + 8 + 12) (key e) INT64_TYPE
                           (le_split 8 (uint64 i) ++ make 4))).
Proof.
  intros Henc.
  destruct (operators_cases (valueType e)) as [[Ht _] | [[Ht _] | (_ & _ & Hno)]].
  - left. split; [exact Ht |]. rewrite (Entry_Encode_string e Ht) in Henc. congruence.
  - right. split; [exact Ht |].
    destruct (strconv.ParseInt (value e)) as [i | err] eqn:Hp.
    + exists i. split; [reflexivity |].
      rewrite (Entry_Encode_int64 e i Ht Hp) in Henc. congruence.
    + unfold Entry_Encode in Henc. rewrite Ht in Henc.
      change (operators INT64_TYPE) with (Some int64Operator.self) in Henc.
      cbn [Encode int64Operator.self] in Henc.
      rewrite (int64Operator_Encode_panics e err Hp) in Henc. discriminate.
  - unfold Entry_Encode in Henc. rewrite Hno in Henc. discriminate.
Qed.

Lemma wire_inj (s1 s2 : Z) (k1 k2 : list byte) (t1 t2 : byte) (p1 p2 : list byte) :
  len k1 < 2 ^ 32 -> len k2 < 2 ^ 32 ->
  wire s1 k1 t1 p1 = wire s2 k2 t2 p2 -> k1 = k2 /\ t1 = t2 /\ p1 = p2.
Proof.
  intros H1 H2 Hw. pose proof (len_nonneg k1). pose proof (len_nonneg k2).
  unfold wire in Hw.
  rewrite (uint32_small (len k1)), (uint32_small (len k2)) in Hw by lia.
  apply app_eq_length in Hw; [| now rewrite !length_le_split].
  destruct Hw as [_ Hw].
  apply app_eq_length in Hw; [| now rewrite !length_le_split].
  destruct Hw as [Hl Hw].
  apply le_split_inj in Hl. change (Z.of_nat 4 * 8) with 32 in Hl.
  rewrite !Z.mod_small in Hl by lia.
  apply app_eq_length in Hw; [| unfold len in Hl; lia].
  destruct Hw as [-> Hw]. injection Hw as -> ->. repeat split.
Qed.

(** X10. No two records share an encoding.  When [Encode] returns the same
    bytes for two records whose keys are shorter than 2^32 bytes, they have
    the same key and the same type, the same value text if they are STRING
    records, and value texts that [ParseInt] reads as the same integer if
    they are INT64 records. *)
Theorem Encode_injective (e1 e2 : Entry) (buf : slice) :
  len (key e1) < 2 ^ 32 -> len (key e2) < 2 ^ 32 ->
  Entry_Encode e1 = Ok buf -> Entry_Encode e2 = Ok buf ->
  key e1 = key e2 /\ valueType e1 = valueType e2
  /\ (valueType e1 = STRING_TYPE -> value e1 = value e2)
  /\ (valueType e1 = INT64_TYPE ->
      strconv.ParseInt (value e1) = strconv.ParseInt (value e2)).
Proof.
  intros Hk1 Hk2 H1 H2.
  destruct (Entry_Encode_Ok e1 buf H1) as [[Ht1 Hb1] | (Ht1 & i1 & Hp1 & Hb1)];
    destruct (Entry_Encode_Ok e2 buf H2) as [[Ht2 Hb2] | (Ht2 & i2 & Hp2 & Hb2)];
    rewrite Hb1 in Hb2; apply (f_equal elems) in Hb2; unfold whole in Hb2;
    cbn [elems] in Hb2;
    destruct (wire_inj _ _ _ _ _ _ _ _ Hk1 Hk2 Hb2) as (Hk & Ht & Hp);
    try discriminate Ht.
  - split; [exact Hk |]. split; [congruence |].
    split; [| intros Hx; rewrite Ht1 in Hx; discriminate Hx].
    intros _. apply app_eq_length in Hp; [apply Hp | now rewrite !length_le_split].
  - split; [exact Hk |]. split; [congruence |].
    split; [intros Hx; rewrite Ht1 in Hx; discriminate Hx |].
    intros _. rewrite Hp1, Hp2. f_equal.
    apply app_eq_length in Hp; [| now rewrite !length_le_split].
    destruct Hp as [Hu _]. apply le_split_inj in Hu.
    change (uint64 i1 mod 2 ^ (Z.of_nat 8 * 8)) with (uint64 (uint64 i1)) in Hu.
    change (uint64 i2 mod 2 ^ (Z.of_nat 8 * 8)) with (uint64 (uint64 i2)) in Hu.
    rewrite !(uint64_small (uint64 _)) in Hu by (unfold uint64; apply Z.mod_pos_bound; lia).
    rewrite <- (int64_uint64 i1), <- (int64_uint64 i2), Hu;
      [reflexivity | now apply ParseInt_range with (s := value e2)
      | now apply ParseInt_range with (s := value e1)].
Qed.

Lemma Encode_injective_witness :
  strconv.ParseInt (str "+042"%string) = strconv.ParseInt (str "42"%string).
Proof.
  destruct (Encode_injective (mkEntry (str "ctr"%string) INT64_TYPE (str "+042"%string))
              counter
              (whole (le_split 4 24 ++ le_split 4 3 ++ str "ctr"%string
                        ++ Byte.x01 :: le_split 8 42 ++ make 4)))
    as (_ & _ & _ & H); [vm_compute; reflexivity | vm_compute; reflexivity
                        | reflexivity | reflexivity |].
  exact (H eq_refl).
Defined.

(** ** readValue on any stream *)

Lemma index_view (b : bufio.Reader) (off : nat) :
  (off < length (bufio.buf b))%nat ->
  exists t, index (whole (bufio.bytes_of b (bufio.mkView off 1))) 0 = Ok t.
Proof.
  intros H. unfold bufio.bytes_of. cbn [bufio.v_len bufio.v_off].
  destruct (skipn off (bufio.buf b)) as [| t l] eqn:E.
  - apply (f_equal (@length byte)) in E. rewrite length_skipn in E. cbn in E. lia.
  - exists t. reflexivity.
Qed.

(** [readValue] on any reader: it returns, or it panics on the nil operator
    of an unregistered tag.  What it returns with an error is the zero
    [output]; what it returns without one is the value of the record that
    it has read as [record_read] says. *)
Lemma readValue_in_spec (order : list (list byte * byte)) (b : bufio.Reader) :
  bufio.wf b ->
  match readValue_in order b with
  | Ok (out, e, b') =>
      bufio.wf b' /\ length (bufio.buf b') = length (bufio.buf b)
      /\ (e <> None -> out = mkOutput [] [])
      /\ (e = None -> record_read (bufio.remaining b) (bufio.remaining b') (o_value out))
  | Panic p => p = NilDereference /\ unregistered_ahead (bufio.remaining b)
  end.
Proof.
  intros Hwf. unfold readValue_in.
  (* header, err := in.Peek(8) *)
  destruct (Peek_spec 8 b Hwf ltac:(lia)) as (v8 & e & b1 & Hp1 & Hc1 & Hok1).
  rewrite Hp1. cbn [bind]. destruct e as [e |].
  {     split; [apply Hc1 | split; [apply Hc1 | split; [reflexivity | discriminate]]]. }
  destruct (Hok1 eq_refl) as (_ & Hbuf1 & Hbytes). clear Hok1 Hp1.
  assert (Hwf1 : bufio.wf b1) by apply Hc1.
  pose proof (Buffered_le_remaining b1 Hwf1) as Hrem1.
  pose proof (consumed_length b b1 [] Hc1) as Hlen1. change (len []) with 0 in Hlen1.
  destruct Hc1 as (_ & Hl1 & Hr1). cbn [app] in Hr1.
  change (Z.to_nat 8) with 8%nat in Hbytes.
  set (h := firstn 8 (bufio.remaining b)) in *.
  assert (Hh : length h = 8%nat).
  { unfold h. rewrite length_firstn. unfold len in *. lia. }
  rewrite Hbytes. unfold slice_from, slen. cbn [whole elems]. unfold len at 1.
  rewrite Hh. cbn [Z.of_nat Pos.of_succ_nat Pos.succ Z.leb Z.compare Pos.compare
                     Pos.compare_cont andb bind elems].
  change (Z.to_nat 4) with 4%nat. unfold binary.Uint32.
  assert (Hh4 : length (skipn 4 h) = 4%nat) by (rewrite length_skipn; lia).
  unfold len at 1. rewrite Hh4. change (4 <=? Z.of_nat 4) with true. cbn iota.
  rewrite firstn_all2 by lia. cbn [bind].
  pose proof (le_combine_bound (skipn 4 h)) as Hks. rewrite Hh4 in Hks.
  set (keySize := le_combine (skipn 4 h)) in *.
  (* in.Discard(keySize + 8) *)
  destruct (Discard_spec (keySize + 8) b1 Hwf1 ltac:(lia))
    as (kk & e & b2 & c & Hd2 & Hc2 & Hlc & Hok2).
  rewrite Hd2. cbn [bind]. destruct e as [e |].
  {     split; [apply Hc2 |]. split; [| split; [reflexivity | discriminate]].
    destruct Hc2 as (_ & -> & _). exact Hl1. }
  specialize (Hok2 eq_refl). rewrite Hok2 in Hlc. clear Hd2 Hok2 kk.
  assert (Hwf2 : bufio.wf b2) by apply Hc2.
  destruct Hc2 as (_ & Hl2 & Hr2).
  assert (Hc : c = h ++ skipn 8 c).
  { unfold h. rewrite Hr1, Hr2, firstn_app_le by (unfold len in Hlc; lia).
    now rewrite firstn_skipn. }
  set (k := skipn 8 c) in *.
  assert (Hk : len k = keySize).
  { unfold k, len. rewrite length_skipn. unfold len in Hlc. lia. }
  (* valueType, err := in.Peek(1) *)
  destruct (Peek_spec 1 b2 Hwf2 ltac:(lia)) as (v1 & e & b3 & Hp3 & Hc3 & Hok3).
  rewrite Hp3. cbn [bind]. destruct e as [e |].
  {     split; [apply Hc3 |]. split; [| split; [reflexivity | discriminate]].
    destruct Hc3 as (_ & -> & _). congruence. }
  destruct (Hok3 eq_refl) as (Hv1 & Hbuf3 & Hbytes1). clear Hok3 Hp3.
  assert (Hwf3 : bufio.wf b3) by apply Hc3.
  destruct Hc3 as (_ & Hl3 & Hr3). cbn [app] in Hr3.
  change (Z.to_nat 1) with 1%nat in *.
  (* in.Discard(1) *)
  rewrite Discard_buffered by lia. cbn [bind]. change (Z.to_nat 1) with 1%nat.
  pose proof (advance_consumed b3 1 Hwf3 ltac:(lia)) as Hc4.
  set (b4 := bufio.advance b3 1) in *.
  assert (Hwf4 : bufio.wf b4) by apply Hc4.
  destruct Hc4 as (_ & Hl4 & Hr4).
  assert (Htag : exists t, bufio.bytes_of b4 v1 = [t]
                           /\ bufio.remaining b2 = t :: bufio.remaining b4).
  { pose proof (Buffered_le_remaining b3 Hwf3) as Hrem3.
    change (bufio.bytes_of b4 v1) with (bufio.bytes_of b3 v1).
    rewrite Hbytes1, Hr3.
    assert (Hf : length (firstn 1 (buffered b3)) = 1%nat).
    { rewrite length_firstn, length_buffered by (destruct Hwf3; lia). lia. }
    destruct (firstn 1 (buffered b3)) as [| t [| ? ?]] eqn:Ef; try discriminate Hf.
    exists t. rewrite Hr4. cbn [app firstn]. split; reflexivity. }
  destruct Htag as (t & Htag & Hrem2).
  rewrite Htag, index_singleton. cbn [bind].
  assert (Hstream : bufio.remaining b = h ++ k ++ t :: bufio.remaining b4).
  { rewrite Hr1, Hr2, Hrem2, Hc at 1. now rewrite <- app_assoc. }
  assert (Hoff : (bufio.r b3 < length (bufio.buf b3))%nat).
  { destruct Hwf3 as [Hpos _]. unfold bufio.Buffered in Hbuf3. lia. }
  destruct (operators_cases t) as [[-> ->] | [[-> ->] | (_ & _ & Hno)]].
  - (* stringOperator.Read *)
    cbn [Read stringOperator.self].
    destruct (stringOperator_Read_spec b4 Hwf4)
      as (data & e & b5 & Hrd5 & Hwf5 & Hl5 & Hok5).
    rewrite Hrd5. cbn [bind].
    assert (Hlen5 : length (bufio.buf b5) = length (bufio.buf b)) by congruence.
    destruct e as [e |].
    {       split; [exact Hwf5 | split; [exact Hlen5 | split; [reflexivity | discriminate]]]. }
    destruct (Hok5 eq_refl) as (hdr & Hlh & Hr5 & Hld).
    destruct (index_view b5 (bufio.r b3)) as (t' & Ht'); [congruence |].
    rewrite Hv1, Ht'. cbn [bind].
        split; [exact Hwf5 | split; [exact Hlen5 | split; [congruence |]]].
    intros _. exists h, k, STRING_TYPE. split; [exact Hh | split; [exact Hk |]].
    left. split; [reflexivity |]. exists hdr. cbn [o_value].
    split; [exact Hlh | split; [exact Hld |]]. now rewrite Hstream, Hr5.
  - (* int64Operator.Read *)
    cbn [Read int64Operator.self].
    destruct (int64Operator_Read_spec b4 Hwf4) as (data & e & b5 & Hrd5 & Hc5 & Hok5).
    rewrite Hrd5. cbn [bind].
    destruct Hc5 as (Hwf5 & Hl5 & Hr5). cbn [app] in Hr5.
    assert (Hlen5 : length (bufio.buf b5) = length (bufio.buf b)) by congruence.
    destruct e as [e |].
    {       split; [exact Hwf5 | split; [exact Hlen5 | split; [reflexivity | discriminate]]]. }
    destruct (Hok5 eq_refl) as (H8 & Hdata).
    destruct (index_view b5 (bufio.r b3)) as (t' & Ht'); [congruence |].
    rewrite Hv1, Ht'. cbn [bind].
        split; [exact Hwf5 | split; [exact Hlen5 | split; [congruence |]]].
    intros _. exists h, k, INT64_TYPE. split; [exact Hh | split; [exact Hk |]].
    right. split; [reflexivity |]. cbn [o_value]. rewrite <- Hr5.
    split; [exact Hstream | split; [exact H8 | exact Hdata]].
  - rewrite Hno. split; [reflexivity |].
    exists h, k, t, (bufio.remaining b4). repeat split; assumption.
Qed.

(** X11. [readValue] on any stream and any reader state: it returns, or it
    panics on the nil operator of a tag that has no operator, which it has
    found after a header and a key.  No end of input, read error or
    malformed length makes it fault or loop.  With an error it returns the
    zero [output]; in both cases the reader is left in a consistent
    state. *)
Theorem readValue_returns_or_nil (order : list (list byte * byte)) (b : bufio.Reader) :
  bufio.wf b ->
  (exists out e b',
     readValue_in order b = Ok (out, e, b')
     /\ bufio.wf b' /\ (e <> None -> out = mkOutput [] []))
  \/ (readValue_in order b = Panic NilDereference
      /\ unregistered_ahead (bufio.remaining b)).
Proof.
  intros Hwf. pose proof (readValue_in_spec order b Hwf) as H.
  destruct (readValue_in order b) as [[[out e] b'] | p].
  - left. exists out, e, b'. split; [reflexivity |]. split; apply H.
  - right. destruct H as [-> H]. split; [reflexivity | exact H].
Qed.

Lemma readValue_returns_or_nil_witness :
  (exists out e b',
     readValue (bufio.NewReaderSize [io.Data (elems tag7)] 16) = Ok (out, e, b')
     /\ bufio.wf b' /\ (e <> None -> out = mkOutput [] []))
  \/ (readValue (bufio.NewReaderSize [io.Data (elems tag7)] 16) = Panic NilDereference
      /\ unregistered_ahead
           (bufio.remaining (bufio.NewReaderSize [io.Data (elems tag7)] 16))).
Proof.
  apply (readValue_returns_or_nil typeToByte
           (bufio.NewReaderSize [io.Data (elems tag7)] 16)).
  split; vm_compute; lia.
Defined.

(** X12. What a successful [readValue] has read, on any stream: 8 bytes of
    header, as many bytes of key as the last 4 of them say, a tag; then,
    under the tag 0, a 4-byte length and as many bytes, which are the value
    returned, all of them taken off the stream; under the tag 1, nothing
    more: the value returned is the decimal form of the next 8 bytes, which
    are still to be read. *)
Theorem readValue_reads (order : list (list byte * byte)) (b b' : bufio.Reader)
    (out : output) :
  bufio.wf b ->
  readValue_in order b = Ok (out, None, b') ->
  bufio.wf b' /\ record_read (bufio.remaining b) (bufio.remaining b') (o_value out).
Proof.
  intros Hwf Hrv. pose proof (readValue_in_spec order b Hwf) as H.
  rewrite Hrv in H. destruct H as (Hwf' & _ & _ & H). split; [exact Hwf' | now apply H].
Qed.

Lemma readValue_reads_witness :
  exists out b',
    readValue (bufio.NewReaderSize [io.Data (stream [alice; bob])] 64) = Ok (out, None, b')
    /\ record_read (stream [alice; bob]) (bufio.remaining b') (o_value out).
Proof.
  destruct (readValue (bufio.NewReaderSize [io.Data (stream [alice; bob])] 64))
    as [[[out [e |]] b'] |] eqn:Hrv; try (vm_compute in Hrv; discriminate).
  exists out, b'. split; [reflexivity |].
  apply (readValue_reads typeToByte
           (bufio.NewReaderSize [io.Data (stream [alice; bob])] 64) b' out).
  - split; vm_compute; lia.
  - exact Hrv.
Defined.

(** X13. [readValue] on a reader that stands before the encoding of an INT64
    record (key shorter than 2^32 bytes): when it succeeds, it returns the
    decimal form of the integer, and it has taken the header, the key and
    the tag only; the 8 bytes of the integer and the 4 bytes of padding are
    still on the stream, before what follows the record. *)
Theorem readValue_int64_record (order : list (list byte * byte)) (b b' : bufio.Reader)
    (e : Entry) (i : Z) (rest : list byte) (out : output) :
  bufio.wf b ->
  valueType e = INT64_TYPE -> strconv.ParseInt (value e) = inl i ->
  len (key e) < 2 ^ 32 ->
  bufio.remaining b = encoded e ++ rest ->
  readValue_in order b = Ok (out, None, b') ->
  o_value out = fmt.Sprintf_d i
  /\ bufio.remaining b' = le_split 8 (uint64 i) ++ make 4 ++ rest.
Proof.
  intros Hwf Ht Hp Hk Hstream Hrv. pose proof (len_nonneg (key e)) as Hk0.
  pose proof (readValue_in_spec order b Hwf) as H.
  rewrite Hrv in H. destruct H as (_ & _ & _ & H).
  destruct (H eq_refl) as (h & k & t & Hh & Hlk & Hshape). clear H.
  unfold encoded in Hstream. rewrite (Entry_Encode_int64 e i Ht Hp) in Hstream.
  cbn [whole elems] in Hstream. unfold wire in Hstream.
  rewrite (uint32_small (len (key e))) in Hstream by lia.
  set (h1 := le_split 4 (uint32 _)) in Hstream.
  assert (Hcut : forall after, bufio.remaining b = h ++ k ++ t :: after ->
                 t = INT64_TYPE /\ after = le_split 8 (uint64 i) ++ make 4 ++ rest).
  { intros after Hb. rewrite Hstream in Hb.
    replace ((h1 ++ le_split 4 (len (key e)) ++ key e
                ++ INT64_TYPE :: le_split 8 (uint64 i) ++ make 4) ++ rest)
      with ((h1 ++ le_split 4 (len (key e)))
              ++ key e ++ INT64_TYPE :: le_split 8 (uint64 i) ++ make 4 ++ rest) in Hb
      by (rewrite <- ?app_assoc; cbn [app]; rewrite <- ?app_assoc; reflexivity).
    apply app_eq_length in Hb;
      [| rewrite length_app; unfold h1; rewrite !length_le_split; lia].
    destruct Hb as [Hhh Hb]. subst h.
    rewrite skipn_app_exact in Hlk by (unfold h1; apply length_le_split).
    rewrite le_combine_split in Hlk. change (Z.of_nat 4 * 8) with 32 in Hlk.
    rewrite Z.mod_small in Hlk by lia.
    apply app_eq_length in Hb; [| unfold len in Hlk; lia].
    destruct Hb as [_ Hb]. injection Hb as <- <-. split; reflexivity. }
  destruct Hshape as [(Hts & hdr & _ & _ & Hb) | (_ & Hb & _ & Hv)].
  - destruct (Hcut _ Hb) as [Hti _]. rewrite Hts in Hti. discriminate Hti.
  - destruct (Hcut _ Hb) as [_ Hafter]. split; [| exact Hafter].
    rewrite Hv, Hafter, firstn_app_exact by apply length_le_split.
    rewrite le_combine_split.
    change (uint64 i mod 2 ^ (Z.of_nat 8 * 8)) with (uint64 (uint64 i)).
    rewrite (uint64_small (uint64 i)) by (unfold uint64; apply Z.mod_pos_bound; lia).
    rewrite int64_uint64 by (now apply ParseInt_range with (s := value e)).
    reflexivity.
Qed.

Lemma readValue_int64_record_witness :
  exists out b',
    readValue (bufio.NewReaderSize [io.Data (stream [counter; alice])] 64)
    = Ok (out, None, b')
    /\ o_value out = str "42"%string
    /\ bufio.remaining b' = le_split 8 42 ++ make 4 ++ stream [alice].
Proof.
  destruct (readValue (bufio.NewReaderSize [io.Data (stream [counter; alice])] 64))
    as [[[out [e |]] b'] |] eqn:Hrv; try (vm_compute in Hrv; discriminate).
  exists out, b'. split; [reflexivity |].
  apply (readValue_int64_record typeToByte
           (bufio.NewReaderSize [io.Data (stream [counter; alice])] 64) b'
           counter 42 (stream [alice]) out).
  - split; vm_compute; lia.
  - reflexivity.
  - reflexivity.
  - vm_compute. reflexivity.
  - vm_compute. reflexivity.
  - exact Hrv.
Defined.

(** ** Records that the reader holds in its buffer *)

Lemma wf_advance (b : bufio.Reader) (k : nat) :
  bufio.wf b -> (k <= bufio.Buffered b)%nat -> bufio.wf (bufio.advance b k).
Proof. intros Hwf Hk. apply (advance_consumed b k Hwf Hk). Qed.

Lemma buffered_advance (b : bufio.Reader) (k : nat) :
  buffered (bufio.advance b k) = skipn k (buffered b).
Proof.
  unfold buffered, bufio.advance. cbn [bufio.r bufio.w bufio.buf].
  rewrite skipn_skipn. f_equal. lia.
Qed.

Lemma Buffered_length (b : bufio.Reader) :
  bufio.wf b -> bufio.Buffered b = length (buffered b).
Proof. intros [Hpos _]. symmetry. apply length_buffered. lia. Qed.

Lemma advance_advance (b : bufio.Reader) (j k : nat) :
  bufio.advance (bufio.advance b j) k = bufio.advance b (j + k).
Proof. unfold bufio.advance. cbn [bufio.r bufio.w bufio.buf bufio.rd bufio.err]. f_equal. lia. Qed.

(** What [Peek] shows of a reader that holds enough. *)
Lemma Peek_held (n : nat) (b : bufio.Reader) (x rest : list byte) :
  bufio.wf b -> buffered b = x ++ rest -> length x = n ->
  bufio.Peek (Z.of_nat n) b = Ok (bufio.mkView (bufio.r b) n, None, b)
  /\ bufio.bytes_of b (bufio.mkView (bufio.r b) n) = x.
Proof.
  intros Hwf Hb Hx.
  assert (Hn : (n <= bufio.Buffered b)%nat).
  { rewrite (Buffered_length b Hwf), Hb, length_app. lia. }
  split.
  - rewrite Peek_buffered by (assumption || lia). now rewrite Nat2Z.id.
  - rewrite bytes_of_buffered by assumption. rewrite Hb. now apply firstn_app_exact.
Qed.

Lemma Discard_held (n : nat) (b : bufio.Reader) (x rest : list byte) :
  bufio.wf b -> buffered b = x ++ rest -> length x = n -> (0 < n)%nat ->
  bufio.Discard (Z.of_nat n) b = Ok (Z.of_nat n, None, bufio.advance b n)
  /\ bufio.wf (bufio.advance b n) /\ buffered (bufio.advance b n) = rest.
Proof.
  intros Hwf Hb Hx Hpos.
  assert (Hn : (n <= bufio.Buffered b)%nat).
  { rewrite (Buffered_length b Hwf), Hb, length_app. lia. }
  split; [| split].
  - rewrite Discard_buffered by lia. now rewrite Nat2Z.id.
  - now apply wf_advance.
  - rewrite buffered_advance, Hb. now apply skipn_app_exact.
Qed.

(** [Read] of bytes that the reader holds: they are copied out of the
    buffer; of no bytes at all: nothing happens, when no error is pending. *)
Lemma Read_held (b : bufio.Reader) (x rest : list byte) :
  bufio.wf b -> bufio.err b = None -> buffered b = x ++ rest ->
  bufio.Read (len x) b = (x, None, bufio.advance b (length x)).
Proof.
  intros Hwf Herr Hb. pose proof Hwf as [Hpos Hsize].
  pose proof (Buffered_length b Hwf) as HB. rewrite Hb, length_app in HB.
  assert (Hsrc : firstn (bufio.w b - bufio.r b) (skipn (bufio.r b) (bufio.buf b))
                 = x ++ rest).
  { rewrite <- Hb. unfold buffered. rewrite skipn_firstn_comm. reflexivity. }
  assert (Hsame : bufio.advance b 0 = b).
  { unfold bufio.advance. rewrite Nat.add_0_r. now destruct b. }
  unfold bufio.Buffered in HB. unfold bufio.Read, bufio.Buffered.
  destruct x as [| c x].
  - change (len []) with 0. cbn [Z.eqb length]. rewrite Hsame.
    destruct (0 <? bufio.w b - bufio.r b)%nat; [reflexivity |].
    unfold bufio.readErr. rewrite Herr. rewrite <- Herr at 2. now destruct b.
  - assert (Hx : 0 < len (c :: x)) by (unfold len; cbn [length]; lia).
    settle_if. cbn [length] in HB. settle_if. rewrite Hsrc.
    destruct (len ((c :: x) ++ rest) <=? len (c :: x)) eqn:Hall.
    + bool_to_prop_in Hall. rewrite len_app in Hall.
      assert (Hr : rest = []).
      { destruct rest; [reflexivity |]. unfold len in Hall. cbn [length] in Hall. lia. }
      subst rest. rewrite app_nil_r. reflexivity.
    + unfold len. rewrite Nat2Z.id, firstn_app_exact by reflexivity. reflexivity.
Qed.

Lemma stringOperator_Read_held (b : bufio.Reader) (v rest : list byte) :
  bufio.wf b -> bufio.err b = None -> len v < 2 ^ 32 ->
  buffered b = le_split 4 (len v) ++ v ++ rest ->
  stringOperator.Read b = Ok (v, None, bufio.advance b (4 + length v)).
Proof.
  intros Hwf Herr Hv Hb. pose proof (len_nonneg v) as Hv0.
  unfold stringOperator.Read.
  destruct (Peek_held 4 b _ _ Hwf Hb (length_le_split _ _)) as [Hp Hbytes].
  change (Z.of_nat 4) with 4 in Hp. rewrite Hp. cbn [bind]. rewrite Hbytes.
  rewrite <- (app_nil_r (le_split 4 (len v))).
  rewrite Uint32_le_split, uint32_small by lia. cbn [bind].
  destruct (Discard_held 4 b _ _ Hwf Hb (length_le_split _ _) ltac:(lia))
    as (Hd & Hwf4 & Hb4).
  change (Z.of_nat 4) with 4 in Hd. rewrite Hd. cbn [bind].
  rewrite (Read_held _ v rest Hwf4 Herr Hb4).
  rewrite Z.eqb_refl. cbn [negb].
  rewrite copy_same_length by (unfold make, len; rewrite repeat_length; lia).
  now rewrite advance_advance.
Qed.

Lemma int64Operator_Read_held (b : bufio.Reader) (x rest : list byte) :
  bufio.wf b -> buffered b = x ++ rest -> length x = 8%nat ->
  int64Operator.Read b = Ok (fmt.Sprintf_d (int64 (le_combine x)), None, b).
Proof.
  intros Hwf Hb Hx. unfold int64Operator.Read.
  destruct (Peek_held 8 b _ _ Hwf Hb Hx) as [Hp Hbytes].
  change (Z.of_nat 8) with 8 in Hp. rewrite Hp. cbn [bind]. rewrite Hbytes.
  unfold binary.Uint64, len. rewrite Hx. change (8 <=? Z.of_nat 8) with true.
  cbn [bind]. rewrite firstn_all2 by lia. reflexivity.
Qed.

(** The steps of [readValue] up to the call of the operator, on a reader
    that holds the header, the key and the tag. *)
Lemma readValue_in_held (order : list (list byte * byte)) (b : bufio.Reader)
    (h1 k rest : list byte) (t : byte) :
  bufio.wf b -> length h1 = 4%nat -> len k < 2 ^ 32 ->
  buffered b = h1 ++ le_split 4 (len k) ++ k ++ t :: rest ->
  let b' := bufio.advance b (8 + length k + 1) in
  bufio.wf b' /\ buffered b' = rest
  /\ (forall rd, bufio.buf rd = bufio.buf b ->
      index (whole (bufio.bytes_of rd (bufio.mkView (bufio.r b + (8 + length k)) 1))) 0
      = Ok t)
  /\ readValue_in order b =
       match operators t with
       | None => Panic NilDereference
       | Some operator =>
           '(data, err, rd) <- Read operator b' ;;
           match err with
           | Some e => Ok (mkOutput [] [], Some e, rd)
           | None =>
               t' <- index (whole (bufio.bytes_of rd
                                     (bufio.mkView (bufio.r b + (8 + length k)) 1))) 0 ;;
               Ok (mkOutput (ToType_in order t') data, None, rd)
           end
       end.
Proof.
  intros Hwf Hh Hk Hb b'. pose proof (len_nonneg k) as Hk0.
  assert (Hb8 : buffered b = (h1 ++ le_split 4 (len k)) ++ k ++ t :: rest)
    by (rewrite Hb, <- app_assoc; reflexivity).
  assert (Hl8 : length (h1 ++ le_split 4 (len k)) = 8%nat)
    by (rewrite length_app, Hh, length_le_split; reflexivity).
  assert (HbK : buffered b = (h1 ++ le_split 4 (len k) ++ k) ++ t :: rest)
    by (rewrite Hb, <- !app_assoc; reflexivity).
  assert (HlK : length (h1 ++ le_split 4 (len k) ++ k) = (8 + length k)%nat)
    by (rewrite !length_app, Hh, length_le_split; lia).
  destruct (Discard_held _ b _ _ Hwf HbK HlK ltac:(lia)) as (Hd & Hwf2 & Hb2).
  set (b2 := bufio.advance b (8 + length k)) in *.
  change (t :: rest) with ([t] ++ rest) in Hb2.
  destruct (Discard_held 1 b2 [t] rest Hwf2 Hb2 eq_refl (Nat.lt_0_succ 0))
    as (Hd3 & Hwf3 & Hb3).
  assert (Hb' : bufio.advance b2 1 = b').
  { unfold b2, b'. now rewrite advance_advance. }
  rewrite Hb' in *.
  destruct (Peek_held 1 b2 [t] rest Hwf2 Hb2 eq_refl) as [Hp1 Hbytes1].
  split; [exact Hwf3 | split; [exact Hb3 | split]].
  { intros rd Hrd. unfold bufio.bytes_of in *. rewrite Hrd.
    cbn [bufio.v_off bufio.v_len bufio.r bufio.buf b2 bufio.advance] in *.
    rewrite Hbytes1. reflexivity. }
  unfold readValue_in.
  (* header, err := in.Peek(8) *)
  destruct (Peek_held 8 b _ _ Hwf Hb8 Hl8) as [Hp Hbytes].
  change (Z.of_nat 8) with 8 in Hp. rewrite Hp. cbn [bind]. rewrite Hbytes.
  unfold slice_from, slen. cbn [whole elems]. unfold len at 1. rewrite Hl8.
  cbn [Z.of_nat Pos.of_succ_nat Pos.succ Z.leb Z.compare Pos.compare
         Pos.compare_cont andb bind elems].
  change (Z.to_nat 4) with 4%nat. rewrite (skipn_app_exact h1) by assumption.
  rewrite <- (app_nil_r (le_split 4 (len k))).
  rewrite Uint32_le_split, uint32_small by lia. cbn [bind].
  (* in.Discard(keySize + 8) *)
  replace (len k + 8) with (Z.of_nat (8 + length k)) by (unfold len; lia).
  rewrite Hd. cbn [bind].
  (* valueType, err := in.Peek(1); in.Discard(1) *)
  change (Z.of_nat 1) with 1 in Hp1, Hd3. rewrite Hp1. cbn [bind].
  rewrite Hd3. cbn [bind].
  change (bufio.bytes_of b' (bufio.mkView (bufio.r b2) 1))
    with (bufio.bytes_of b2 (bufio.mkView (bufio.r b2) 1)).
  rewrite Hbytes1, index_singleton. cbn [bind]. reflexivity.
Qed.

(** One STRING record that the reader holds. *)
Lemma readValue_in_held_string (order : list (list byte * byte)) (b : bufio.Reader)
    (e : Entry) (rest : list byte) :
  Permutation typeToByte order ->
  bufio.wf b -> bufio.err b = None -> string_record e ->
  buffered b = encoded e ++ rest ->
  readValue_in order b
  = Ok (mkOutput (str "string"%string) (value e), None,
        bufio.advance b (length (encoded e))).
Proof.
  intros Hord Hwf Herr He Hb. pose proof He as (Ht & Hk & Hv).
  rewrite (encoded_string e He) in *. unfold wire in *.
  pose proof (len_nonneg (key e)) as Hk0.
  rewrite (uint32_small (len (key e))) in * by lia.
  set (h1 := le_split 4 (uint32 _)) in *.
  assert (Hh : length h1 = 4%nat) by apply length_le_split.
  assert (Hb' : buffered b = h1 ++ le_split 4 (len (key e)) ++ key e
                  ++ STRING_TYPE :: le_split 4 (len (value e)) ++ value e ++ rest).
  { rewrite Hb. rewrite <- ?app_assoc. cbn [app]. rewrite <- ?app_assoc. reflexivity. }
  destruct (readValue_in_held order b h1 (key e) _ STRING_TYPE Hwf Hh Hk Hb')
    as (Hwf1 & Hb1 & Htag & ->).
  change (operators STRING_TYPE) with (Some stringOperator.self).
  cbn [Read stringOperator.self].
  rewrite (stringOperator_Read_held _ (value e) rest Hwf1 Herr Hv Hb1). cbn [bind].
  rewrite Htag by reflexivity. cbn [bind].
  destruct (ToType_in_registered order Hord) as (-> & _).
  rewrite advance_advance. do 3 f_equal.
  rewrite !length_app, Hh, !length_le_split. cbn [length].
  rewrite !length_app, length_le_split. lia.
Qed.

(** A run of STRING records that the reader holds. *)
Lemma readValues_buffered (es : list Entry) :
  forall (b : bufio.Reader) (rest : list byte),
    bufio.wf b -> bufio.err b = None ->
    Forall string_record es ->
    buffered b = stream es ++ rest ->
    readValues (length es) b
    = Some (map (fun e => mkOutput (str "string"%string) (value e)) es,
            bufio.advance b (length (stream es))).
Proof.
  induction es as [| e es IH]; intros b rest Hwf Herr Hes Hb.
  - cbn [length readValues map stream flat_map]. do 2 f_equal.
    unfold bufio.advance. rewrite Nat.add_0_r. now destruct b.
  - inversion Hes as [| ? ? He Hes']; subst.
    cbn [stream flat_map] in *. fold (stream es) in *.
    rewrite <- app_assoc in Hb.
    cbn [length readValues]. unfold readValue.
    rewrite (readValue_in_held_string typeToByte b e (stream es ++ rest)
               (Permutation_refl _) Hwf Herr He Hb).
    assert (Hn : (length (encoded e) <= bufio.Buffered b)%nat).
    { rewrite (Buffered_length b Hwf), Hb, length_app. lia. }
    rewrite (IH (bufio.advance b (length (encoded e))) rest).
    + cbn [map]. rewrite advance_advance, length_app. reflexivity.
    + now apply wf_advance.
    + exact Herr.
    + exact Hes'.
    + rewrite buffered_advance, Hb. now apply skipn_app_exact.
Qed.

(** X14. A run of STRING records that the reader holds in its buffer (no
    error pending) is read in full: as many calls of [readValue] as there
    are records succeed, each returns the type name "string" and the value
    of its record, and the reader has advanced by exactly the bytes of the
    records, without touching its source. *)
Theorem readValues_held (es : list Entry) (b : bufio.Reader) (rest : list byte) :
  bufio.wf b -> bufio.err b = None ->
  Forall string_record es ->
  buffered b = stream es ++ rest ->
  readValues (length es) b
  = Some (map (fun e => mkOutput (str "string"%string) (value e)) es,
          bufio.advance b (length (stream es)))
  /\ bufio.remaining (bufio.advance b (length (stream es)))
     = rest ++ io.pending (bufio.rd b).
Proof.
  intros Hwf Herr Hes Hb. split; [now apply readValues_buffered with (rest := rest) |].
  rewrite remaining_buffered, buffered_advance, Hb.
  now rewrite skipn_app_exact by reflexivity.
Qed.

Lemma readValues_held_witness :
  readValues 2 (bufio.mkReader (stream [alice; bob] ++ make 16) 0 46 [] None)
  = Some ([mkOutput (str "string"%string) (str "alice"%string);
           mkOutput (str "string"%string) (str "bob"%string)],
          bufio.advance (bufio.mkReader (stream [alice; bob] ++ make 16) 0 46 [] None) 46)
  /\ bufio.remaining
       (bufio.advance (bufio.mkReader (stream [alice; bob] ++ make 16) 0 46 [] None) 46)
     = [].
Proof.
  apply (readValues_held [alice; bob]
           (bufio.mkReader (stream [alice; bob] ++ make 16) 0 46 [] None) []).
  - split; vm_compute; lia.
  - reflexivity.
  - repeat constructor; vm_compute; reflexivity.
  - vm_compute. reflexivity.
Defined.

(** X15. An INT64 record that the reader holds in its buffer: [readValue]
    succeeds, returns the type name "int64" and the decimal form of the
    integer, and leaves the reader advanced by the header, the key and the
    tag, 12 bytes before the end of the record. *)
Theorem readValue_held_int64 (order : list (list byte * byte)) (b : bufio.Reader)
    (e : Entry) (i : Z) (rest : list byte) :
  Permutation typeToByte order ->
  bufio.wf b ->
  valueType e = INT64_TYPE -> strconv.ParseInt (value e) = inl i ->
  len (key e) < 2 ^ 32 ->
  buffered b = encoded e ++ rest ->
  readValue_in order b
  = Ok (mkOutput (str "int64"%string) (fmt.Sprintf_d i), None,
        bufio.advance b (length (encoded e) - 12)).
Proof.
  intros Hord Hwf Ht Hp Hk Hb. pose proof (len_nonneg (key e)) as Hk0.
  unfold encoded in *. rewrite (Entry_Encode_int64 e i Ht Hp) in *.
  cbn [whole elems] in *. unfold wire in *.
  rewrite (uint32_small (len (key e))) in * by lia.
  set (h1 := le_split 4 (uint32 _)) in *.
  assert (Hh : length h1 = 4%nat) by apply length_le_split.
  assert (Hb' : buffered b = h1 ++ le_split 4 (len (key e)) ++ key e
                  ++ INT64_TYPE :: le_split 8 (uint64 i) ++ make 4 ++ rest).
  { rewrite Hb. rewrite <- ?app_assoc. cbn [app]. rewrite <- ?app_assoc. reflexivity. }
  destruct (readValue_in_held order b h1 (key e) _ INT64_TYPE Hwf Hh Hk Hb')
    as (Hwf1 & Hb1 & Htag & ->).
  change (operators INT64_TYPE) with (Some int64Operator.self).
  cbn [Read int64Operator.self].
  rewrite (int64Operator_Read_held _ (le_split 8 (uint64 i)) (make 4 ++ rest) Hwf1 Hb1
             (length_le_split _ _)).
  cbn [bind]. rewrite Htag by reflexivity. cbn [bind].
  destruct (ToType_in_registered order Hord) as (_ & -> & _).
  rewrite le_combine_split.
  change (uint64 i mod 2 ^ (Z.of_nat 8 * 8)) with (uint64 (uint64 i)).
  rewrite (uint64_small (uint64 i)) by (unfold uint64; apply Z.mod_pos_bound; lia).
  rewrite int64_uint64 by (now apply ParseInt_range with (s := value e)).
  do 3 f_equal.
  rewrite !length_app, Hh, !length_le_split. cbn [length].
  rewrite !length_app, length_le_split. change (length (make 4)) with 4%nat. lia.
Qed.

Lemma readValue_held_int64_witness :
  readValue (bufio.mkReader (encoded counter) 0 24 [] None)
  = Ok (mkOutput (str "int64"%string) (str "42"%string), None,
        bufio.advance (bufio.mkReader (encoded counter) 0 24 [] None) 12).
Proof.
  apply (readValue_held_int64 typeToByte (bufio.mkReader (encoded counter) 0 24 [] None)
           counter 42 []).
  - apply Permutation_refl.
  - split; vm_compute; lia.
  - reflexivity.
  - reflexivity.
  - vm_compute. reflexivity.
  - vm_compute. reflexivity.
Defined.

(** X16. When the reader holds a header, the key whose length the header
    gives and a tag without a registered operator, [readValue] panics on
    the nil operator: a corrupted tag byte is no error return. *)
Theorem readValue_held_unregistered (order : list (list byte * byte)) (b : bufio.Reader)
    (h1 k rest : list byte) (t : byte) :
  bufio.wf b -> length h1 = 4%nat -> len k < 2 ^ 32 ->
  buffered b = h1 ++ le_split 4 (len k) ++ k ++ t :: rest ->
  operators t = None ->
  readValue_in order b = Panic NilDereference.
Proof.
  intros Hwf Hh Hk Hb Hno.
  destruct (readValue_in_held order b h1 k rest t Hwf Hh Hk Hb) as (_ & _ & _ & ->).
  now rewrite Hno.
Qed.

Lemma readValue_held_unregistered_witness :
  readValue (bufio.mkReader (elems tag7) 0 24 [] None) = Panic NilDereference.
Proof.
  apply (readValue_held_unregistered typeToByte (bufio.mkReader (elems tag7) 0 24 [] None)
           (le_split 4 24) (str "ctr"%string) (make 12) Byte.x07).
  - split; vm_compute; lia.
  - reflexivity.
  - vm_compute. reflexivity.
  - reflexivity.
  - reflexivity.
Defined.

(** ** A reader with nothing in its buffer *)

Lemma fillLoop_data (i : nat) (b : bufio.Reader) (d : list byte) (src : io.Reader) :
  bufio.rd b = io.Data d :: src ->
  0 < len d <= len (skipn (bufio.w b) (bufio.buf b)) ->
  bufio.fillLoop (S i) b
  = bufio.mkReader (firstn (bufio.w b) (bufio.buf b) ++ copy (skipn (bufio.w b) (bufio.buf b)) d)
      (bufio.r b) (bufio.w b + length d) src (bufio.err b).
Proof.
  intros Hrd Hd. cbn [bufio.fillLoop]. rewrite Hrd. unfold io.Read.
  settle_if. cbn [bufio.buf bufio.r bufio.w bufio.rd bufio.err].
  destruct (0 <? length d)%nat eqn:Hlt; [reflexivity |].
  bool_to_prop_in Hlt. unfold len in Hd. lia.
Qed.

Lemma peekLoop_done (bound : nat) (n : Z) (b : bufio.Reader) :
  bufio.peekMore n b = false -> bufio.peekLoop bound n b = Ok b.
Proof. intros H. destruct bound; cbn [bufio.peekLoop]; now rewrite H. Qed.

(** The first [fill] of a reader that has nothing buffered takes what the
    source delivers, when that fits the buffer. *)
Lemma fill_empty (b : bufio.Reader) (d : list byte) (src : io.Reader) :
  bufio.wf b -> bufio.r b = bufio.w b -> bufio.err b = None ->
  bufio.rd b = io.Data d :: src -> 0 < len d <= len (bufio.buf b) ->
  bufio.fill b = Ok (bufio.mkReader (copy (bufio.buf b) d) 0 (length d) src None).
Proof.
  intros [Hpos Hsize] Hrw Herr Hrd Hd. unfold bufio.fill.
  assert (Hs : bufio.slide b = bufio.mkReader (bufio.buf b) 0 0 (bufio.rd b) (bufio.err b)).
  { unfold bufio.slide. destruct (0 <? bufio.r b)%nat eqn:Hlt.
    - rewrite <- Hrw, Nat.sub_diag. cbn [firstn]. f_equal.
      unfold copy. cbn [length skipn]. now rewrite firstn_nil.
    - bool_to_prop_in Hlt. assert (H0 : bufio.r b = 0%nat) by lia.
      rewrite H0 in Hrw. destruct b; cbn in *. now subst. }
  rewrite Hs. cbn [bufio.buf bufio.w]. settle_if.
  unfold bufio.maxConsecutiveEmptyReads.
  rewrite (fillLoop_data _ _ d src) by (cbn [bufio.rd bufio.w bufio.buf skipn]; assumption).
  cbn [bufio.buf bufio.r bufio.w bufio.err firstn skipn app Nat.add]. now rewrite Herr.
Qed.

Lemma Peek_empty (n : Z) (b : bufio.Reader) (d : list byte) (src : io.Reader) :
  bufio.wf b -> bufio.r b = bufio.w b -> bufio.err b = None ->
  bufio.rd b = io.Data d :: src -> 0 < n <= len d -> len d <= len (bufio.buf b) ->
  let b1 := bufio.mkReader (copy (bufio.buf b) d) 0 (length d) src None in
  bufio.wf b1 /\ buffered b1 = d /\ bufio.Peek n b = bufio.Peek n b1.
Proof.
  intros Hwf Hrw Herr Hrd Hn Hd b1. pose proof Hwf as [Hpos Hsize].
  assert (Hwf1 : bufio.wf b1).
  { split; cbn [b1 bufio.r bufio.w bufio.buf]; rewrite length_copy; unfold len in *; lia. }
  assert (Hb1 : buffered b1 = d).
  { unfold buffered. cbn [b1 bufio.r bufio.w bufio.buf skipn].
    rewrite copy_prefix by (unfold len in *; lia). now apply firstn_app_exact. }
  split; [exact Hwf1 | split; [exact Hb1 |]].
  assert (Hdone : bufio.peekMore n b1 = false).
  { unfold bufio.peekMore, bufio.Buffered. cbn [b1 bufio.r bufio.w].
    rewrite Nat.sub_0_r.
    destruct (Z.of_nat (length d) <? n) eqn:Hlt; [| reflexivity].
    bool_to_prop_in Hlt. unfold len in *. lia. }
  unfold bufio.Peek.
  destruct (n <? 0) eqn:Hneg; [bool_to_prop_in Hneg; lia |].
  rewrite (peekLoop_done _ n b1 Hdone).
  cbn [bufio.peekLoop].
  assert (Hmore : bufio.peekMore n b = true).
  { unfold bufio.peekMore, bufio.Buffered. rewrite Hrw, Nat.sub_diag, Herr.
    cbn [Z.of_nat].
    destruct (0 <? n) eqn:Hn0; [| bool_to_prop_in Hn0; lia].
    destruct (0 <? length (bufio.buf b))%nat eqn:Hlt; [reflexivity |].
    bool_to_prop_in Hlt. lia. }
  rewrite Hmore, (fill_empty b d src Hwf Hrw Herr Hrd) by lia. cbn [bind].
  fold b1. rewrite (peekLoop_done _ n b1 Hdone). reflexivity.
Qed.

Lemma readValue_in_empty (order : list (list byte * byte)) (b : bufio.Reader)
    (d : list byte) (src : io.Reader) :
  bufio.wf b -> bufio.r b = bufio.w b -> bufio.err b = None ->
  bufio.rd b = io.Data d :: src -> 8 <= len d <= len (bufio.buf b) ->
  readValue_in order b
  = readValue_in order (bufio.mkReader (copy (bufio.buf b) d) 0 (length d) src None).
Proof.
  intros Hwf Hrw Herr Hrd Hd.
  destruct (Peek_empty 8 b d src Hwf Hrw Herr Hrd ltac:(lia) ltac:(lia)) as (_ & _ & Hp).
  unfold readValue_in. now rewrite Hp.
Qed.

(** X17. A reader with nothing buffered and no error pending, whose source
    delivers in its next read a run of STRING records followed by anything,
    all of which fits the buffer: as many calls of [readValue] as there are
    records succeed, each returns the type name "string" and the value of
    its record, and the reader stands right after the last record. *)
Theorem readValues_first_fill (es : list Entry) (rest : list byte) (b : bufio.Reader)
    (src : io.Reader) :
  bufio.wf b -> bufio.r b = bufio.w b -> bufio.err b = None ->
  bufio.rd b = io.Data (stream es ++ rest) :: src ->
  len (stream es ++ rest) <= len (bufio.buf b) ->
  Forall string_record es ->
  exists b',
    readValues (length es) b
    = Some (map (fun e => mkOutput (str "string"%string) (value e)) es, b')
    /\ bufio.wf b'
    /\ bufio.remaining b' = rest ++ io.pending src.
Proof.
  intros Hwf Hrw Herr Hrd Hfit Hes.
  destruct es as [| e es].
  { exists b. split; [reflexivity |]. split; [exact Hwf |].
    unfold bufio.remaining. rewrite Hrw, Nat.sub_diag, Hrd. reflexivity. }
  set (d := stream (e :: es) ++ rest) in *.
  assert (H8 : 8 <= len d).
  { inversion Hes as [| ? ? He _]; subst.
    unfold d. cbn [stream flat_map]. rewrite (encoded_string e He), !len_app, len_wire.
    pose proof (len_nonneg (key e)). pose proof (len_nonneg rest).
    pose proof (len_nonneg (flat_map encoded es)).
    pose proof (len_nonneg (le_split 4 (len (value e)) ++ value e)). lia. }
  destruct (Peek_empty 8 b d src Hwf Hrw Herr Hrd ltac:(lia) Hfit) as (Hwf1 & Hb1 & _).
  set (b1 := bufio.mkReader (copy (bufio.buf b) d) 0 (length d) src None) in *.
  assert (Hstep : readValues (length (e :: es)) b = readValues (length (e :: es)) b1).
  { cbn [length readValues]. unfold readValue.
    now rewrite (readValue_in_empty typeToByte b d src Hwf Hrw Herr Hrd) by lia. }
  rewrite Hstep, (readValues_buffered (e :: es) b1 rest Hwf1 eq_refl Hes Hb1).
  assert (Hn : (length (stream (e :: es)) <= bufio.Buffered b1)%nat).
  { rewrite (Buffered_length b1 Hwf1), Hb1. unfold d. rewrite length_app. lia. }
  eexists. split; [reflexivity |]. split; [now apply wf_advance |].
  rewrite remaining_buffered, buffered_advance, Hb1. unfold d.
  now rewrite skipn_app_exact by reflexivity.
Qed.

Lemma readValues_first_fill_witness :
  exists b',
    readValues 2 (bufio.NewReaderSize [io.Data (stream [alice; bob] ++ encoded counter)] 80)
    = Some ([mkOutput (str "string"%string) (str "alice"%string);
             mkOutput (str "string"%string) (str "bob"%string)], b')
    /\ bufio.wf b'
    /\ bufio.remaining b' = encoded counter ++ [].
Proof.
  apply (readValues_first_fill [alice; bob] (encoded counter)
           (bufio.NewReaderSize [io.Data (stream [alice; bob] ++ encoded counter)] 80) []).
  - split; vm_compute; lia.
  - reflexivity.
  - reflexivity.
  - reflexivity.
  - vm_compute. discriminate.
  - repeat constructor; vm_compute; reflexivity.
Defined.

(** ** A value that the buffer holds in part *)

(** [Read] hands out what the buffer holds and does not go to the source
    for more. *)
Lemma Read_partial (n : Z) (b : bufio.Reader) (part : list byte) :
  bufio.wf b -> buffered b = part -> 0 < len part < n ->
  bufio.Read n b = (part, None, bufio.advance b (length part)).
Proof.
  intros Hwf Hb Hn. pose proof Hwf as [Hpos Hsize].
  pose proof (Buffered_length b Hwf) as HB. rewrite Hb in HB.
  assert (Hsrc : firstn (bufio.w b - bufio.r b) (skipn (bufio.r b) (bufio.buf b)) = part).
  { rewrite <- Hb. unfold buffered. rewrite skipn_firstn_comm. reflexivity. }
  unfold bufio.Buffered in HB. unfold bufio.Read.
  destruct (n =? 0) eqn:Hn0; [bool_to_prop_in Hn0; lia |].
  destruct (bufio.r b =? bufio.w b)%nat eqn:Hrw;
    [bool_to_prop_in Hrw; unfold len in Hn; lia |].
  rewrite Hsrc.
  destruct (len part <=? n) eqn:Hall; [reflexivity | bool_to_prop_in Hall; lia].
Qed.

Lemma stringOperator_Read_short (b : bufio.Reader) (vl : Z) (part : list byte) :
  bufio.wf b -> buffered b = le_split 4 vl ++ part -> 0 < len part < vl -> vl < 2 ^ 32 ->
  stringOperator.Read b
  = Ok ([], Some (ErrShortValue (len part) vl), bufio.advance b (4 + length part)).
Proof.
  intros Hwf Hb Hpart Hvl. unfold stringOperator.Read.
  destruct (Peek_held 4 b _ _ Hwf Hb (length_le_split _ _)) as [Hp Hbytes].
  change (Z.of_nat 4) with 4 in Hp. rewrite Hp. cbn [bind]. rewrite Hbytes.
  rewrite <- (app_nil_r (le_split 4 vl)).
  rewrite Uint32_le_split, uint32_small by lia. cbn [bind].
  destruct (Discard_held 4 b _ _ Hwf Hb (length_le_split _ _) (Nat.lt_0_succ 3))
    as (Hd & Hwf4 & Hb4).
  change (Z.of_nat 4) with 4 in Hd. rewrite Hd. cbn [bind].
  rewrite (Read_partial vl _ part Hwf4 Hb4 Hpart).
  destruct (len part =? vl) eqn:Hfull; [bool_to_prop_in Hfull; lia |].
  cbn [negb]. now rewrite advance_advance.
Qed.

(** X18. A STRING record of which the reader holds, in its buffer, the
    header, the key, the tag, the length field and a part of the value, but
    not the whole value: [readValue] returns the short-read error (with the
    number of value bytes held and the length expected) and has taken all
    the buffered bytes of the record.  It does not matter what the source
    of the reader could still deliver: [operator.Read] makes one call of
    [in.Read], which hands out what the buffer holds. *)
Theorem readValue_short_value (order : list (list byte * byte)) (b : bufio.Reader)
    (e : Entry) (n : nat) :
  bufio.wf b -> string_record e ->
  len (key e) + 13 < Z.of_nat n < len (encoded e) ->
  buffered b = firstn n (encoded e) ->
  readValue_in order b
  = Ok (mkOutput [] [],
        Some (ErrShortValue (Z.of_nat n - (len (key e) + 13)) (len (value e))),
        bufio.advance b n).
Proof.
  intros Hwf He Hn Hb. pose proof He as (Ht & Hk & Hv).
  pose proof (len_nonneg (key e)) as Hk0. pose proof (len_nonneg (value e)) as Hv0.
  rewrite (encoded_string e He) in *. rewrite len_wire, len_app, len_le_split in Hn.
  unfold wire in Hb. rewrite (uint32_small (len (key e))) in Hb by lia.
  set (h1 := le_split 4 (uint32 _)) in *.
  assert (Hh : length h1 = 4%nat) by apply length_le_split.
  set (pre := h1 ++ le_split 4 (len (key e)) ++ key e
                ++ STRING_TYPE :: le_split 4 (len (value e))).
  assert (Hpre : length pre = Z.to_nat (len (key e) + 13)).
  { unfold pre. rewrite !length_app, Hh. cbn [length].
    rewrite !length_le_split. unfold len. lia. }
  set (part := firstn (n - length pre) (value e)).
  assert (Hlp : len part = Z.of_nat n - (len (key e) + 13)).
  { unfold part, len. rewrite length_firstn. unfold len in *. lia. }
  assert (Hb' : buffered b = h1 ++ le_split 4 (len (key e)) ++ key e
                  ++ STRING_TYPE :: le_split 4 (len (value e)) ++ part).
  { rewrite Hb.
    replace (h1 ++ le_split 4 (len (key e)) ++ key e
               ++ STRING_TYPE :: le_split 4 (len (value e)) ++ value e)
      with (pre ++ value e)
      by (unfold pre; rewrite <- ?app_assoc; cbn [app]; rewrite <- ?app_assoc; reflexivity).
    rewrite firstn_app_ge by lia. fold part.
    unfold pre. rewrite <- ?app_assoc. cbn [app]. rewrite <- ?app_assoc. reflexivity. }
  destruct (readValue_in_held order b h1 (key e) _ STRING_TYPE Hwf Hh Hk Hb')
    as (Hwf1 & Hb1 & _ & ->).
  change (operators STRING_TYPE) with (Some stringOperator.self).
  cbn [Read stringOperator.self].
  rewrite (stringOperator_Read_short _ (len (value e)) part Hwf1 Hb1) by lia.
  cbn [bind]. rewrite advance_advance, Hlp. do 3 f_equal.
  unfold len in *. lia.
Qed.

Lemma readValue_short_value_witness :
  readValue (bufio.mkReader (firstn 20 (encoded alice)) 0 20
               [io.Data (skipn 20 (encoded alice))] None)
  = Ok (mkOutput [] [], Some (ErrShortValue 1 5),
        bufio.advance (bufio.mkReader (firstn 20 (encoded alice)) 0 20
                         [io.Data (skipn 20 (encoded alice))] None) 20).
Proof.
  apply (readValue_short_value typeToByte
           (bufio.mkReader (firstn 20 (encoded alice)) 0 20
              [io.Data (skipn 20 (encoded alice))] None) alice 20).
  - split; vm_compute; lia.
  - repeat split; vm_compute; reflexivity.
  - split; vm_compute; reflexivity.
  - vm_compute. reflexivity.
Defined.

(** ** The end of the stream *)

Lemma fillLoop_exhausted (i : nat) (b : bufio.Reader) :
  bufio.rd b = [] ->
  bufio.fillLoop (S i) b
  = bufio.mkReader (firstn (bufio.w b) (bufio.buf b) ++ copy (skipn (bufio.w b) (bufio.buf b)) [])
      (bufio.r b) (bufio.w b + 0) [] (Some EOF).
Proof. intros Hrd. cbn [bufio.fillLoop]. rewrite Hrd. reflexivity. Qed.

(** [fill] on an exhausted source records [io.EOF] and buffers nothing. *)
Lemma fill_exhausted (b : bufio.Reader) :
  bufio.wf b -> (bufio.Buffered b < length (bufio.buf b))%nat -> bufio.rd b = [] ->
  exists b',
    bufio.fill b = Ok b'
    /\ bufio.wf b' /\ length (bufio.buf b') = length (bufio.buf b)
    /\ buffered b' = buffered b /\ bufio.rd b' = [] /\ bufio.err b' = Some EOF.
Proof.
  intros [Hpos Hsize] Hroom Hrd.
  destruct (slide_spec b Hpos) as (Hr & Hw & Hl & Hdata & Hsrc & _).
  unfold bufio.fill. set (s := bufio.slide b) in *.
  destruct (length (bufio.buf s) <=? bufio.w s)%nat eqn:Hfull;
    [bool_to_prop_in Hfull; lia |].
  unfold bufio.maxConsecutiveEmptyReads.
  rewrite fillLoop_exhausted by congruence.
  eexists. split; [reflexivity |].
  assert (Hlen : length (firstn (bufio.w s) (bufio.buf s)
                           ++ copy (skipn (bufio.w s) (bufio.buf s)) [])
                 = length (bufio.buf b)).
  { rewrite length_app, length_firstn, length_copy, length_skipn. lia. }
  split; [| split; [exact Hlen | split; [| split; reflexivity]]].
  - split; cbn [bufio.r bufio.w bufio.buf]; rewrite Hlen; lia.
  - unfold buffered at 1. cbn [bufio.r bufio.w bufio.buf].
    rewrite Hr, Nat.add_0_r. cbn [skipn].
    rewrite firstn_app_exact by (rewrite length_firstn; lia). exact Hdata.
Qed.

(** X19. At the end of the stream: when the source of the reader is
    exhausted, no error is pending and fewer than 8 bytes are left in the
    buffer (none at a clean end, some when the stream stops inside a
    header), [readValue] returns [io.EOF] with the zero [output].  It takes
    nothing off the stream and leaves the reader as it found it in these
    respects, so that every further call returns [io.EOF] as well. *)
Theorem readValue_at_end (order : list (list byte * byte)) (b : bufio.Reader) :
  bufio.wf b -> bufio.rd b = [] -> bufio.err b = None ->
  (bufio.Buffered b < 8)%nat ->
  exists b',
    readValue_in order b = Ok (mkOutput [] [], Some EOF, b')
    /\ bufio.wf b' /\ bufio.rd b' = [] /\ bufio.err b' = None
    /\ buffered b' = buffered b.
Proof.
  intros Hwf Hrd Herr Hfew. pose proof Hwf as [Hpos Hsize].
  destruct (fill_exhausted b Hwf ltac:(lia) Hrd)
    as (b1 & Hfill & Hwf1 & Hl1 & Hb1 & Hrd1 & Herr1).
  assert (HB1 : bufio.Buffered b1 = bufio.Buffered b).
  { now rewrite (Buffered_length b1 Hwf1), (Buffered_length b Hwf), Hb1. }
  assert (Hmore : bufio.peekMore 8 b = true).
  { unfold bufio.peekMore. rewrite Herr.
    destruct (Z.of_nat (bufio.Buffered b) <? 8) eqn:H8; [| bool_to_prop_in H8; lia].
    destruct (bufio.Buffered b <? length (bufio.buf b))%nat eqn:Hlt; [reflexivity |].
    bool_to_prop_in Hlt. lia. }
  assert (Hdone : bufio.peekMore 8 b1 = false).
  { unfold bufio.peekMore. rewrite Herr1. now rewrite andb_false_r. }
  unfold readValue_in, bufio.Peek. change (8 <? 0) with false. cbv iota.
  cbn [bufio.peekLoop]. rewrite Hmore, Hfill. cbn [bind].
  rewrite (peekLoop_done _ 8 b1 Hdone). cbn [bind].
  destruct (len (bufio.buf b1) <? 8) eqn:Hsmall;
    [bool_to_prop_in Hsmall; unfold len in Hsmall; lia |].
  destruct (Z.of_nat (bufio.Buffered b1) <? 8) eqn:Hshort;
    [| bool_to_prop_in Hshort; lia].
  unfold bufio.readErr. rewrite Herr1. cbn [bind].
  eexists. split; [reflexivity |].
  split; [exact Hwf1 | split; [exact Hrd1 | split; [reflexivity | exact Hb1]]].
Qed.

Lemma readValue_at_end_witness :
  exists b',
    readValue (bufio.mkReader (make 16) 13 16 [] None) = Ok (mkOutput [] [], Some EOF, b')
    /\ bufio.wf b' /\ bufio.rd b' = [] /\ bufio.err b' = None
    /\ buffered b' = make 3.
Proof.
  apply (readValue_at_end typeToByte (bufio.mkReader (make 16) 13 16 [] None)).
  - split; vm_compute; lia.
  - reflexivity.
  - reflexivity.
  - vm_compute. lia.
Defined.

(** ** Decode on any buffer *)

Lemma firstn_skipn_app (a b : list byte) (n m : nat) :
  (n + m <= length a)%nat -> firstn m (skipn n (a ++ b)) = firstn m (skipn n a).
Proof.
  intros H. rewrite skipn_app. replace (n - length a)%nat with 0%nat by lia.
  cbn [skipn]. apply firstn_app_le. rewrite length_skipn. lia.
Qed.

Lemma nth_error_skipn (l : list byte) (n : nat) (t : byte) :
  nth_error l n = Some t -> skipn n l = t :: skipn (S n) l.
Proof.
  revert l. induction n as [| n IH]; intros [| c l] H; try discriminate.
  - cbn in H. injection H as ->. reflexivity.
  - cbn [nth_error] in H. cbn [skipn]. rewrite (IH l H). reflexivity.
Qed.

Lemma copy_firstn (n : Z) (l : list byte) :
  0 <= n <= len l -> copy (make n) (firstn (Z.to_nat n) l) = firstn (Z.to_nat n) l.
Proof.
  intros H. apply copy_same_length.
  unfold make. rewrite repeat_length, length_firstn. unfold len in H. lia.
Qed.

(** A successful [Entry.Decode] has found a record at the start of the
    backing array of its input. *)
Lemma Entry_Decode_record_at (input : slice) (e e' : Entry) :
  Entry_Decode input e = (e', Ok tt) ->
  record_at (elems input ++ spare input) (key e') (value e')
  /\ len (key e') + 8 < slen input
  /\ valueType e' = valueType e.
Proof.
  intros H. unfold Entry_Decode in H.
  set (all := elems input ++ spare input) in *.
  (* kl := binary.LittleEndian.Uint32(input[4:]) *)
  unfold slice_from in H.
  destruct ((0 <=? 4) && (4 <=? slen input)) eqn:E4; [| discriminate H].
  cbn [bind elems] in H. unfold binary.Uint32 in H.
  destruct (4 <=? len (skipn (Z.to_nat 4) (elems input))) eqn:E8; [| discriminate H].
  cbn [bind] in H. change (Z.to_nat 4) with 4%nat in *.
  bool_to_prop_in E4. bool_to_prop_in E8.
  unfold len in E8. rewrite length_skipn in E8.
  assert (Hlen8 : (8 <= length (elems input))%nat) by lia.
  set (kl := le_combine (firstn 4 (skipn 4 (elems input)))) in *.
  assert (Hkl : 0 <= kl < 2 ^ 32).
  { pose proof (le_combine_bound (firstn 4 (skipn 4 (elems input)))) as Hb.
    rewrite length_firstn, length_skipn in Hb.
    replace (Nat.min 4 (length (elems input) - 4)) with 4%nat in Hb by lia.
    exact Hb. }
  (* copy(keyBuf, input[8:kl+8]) *)
  unfold slice_range in H.
  destruct ((0 <=? 8) && (8 <=? uint32 (kl + 8)) && (uint32 (kl + 8) <=? scap input))
    eqn:Er; [| discriminate H].
  bool_to_prop_in Er. destruct Er as [[_ Hlo] Hhi].
  assert (Hfit : kl + 8 < 2 ^ 32).
  { destruct (Z_lt_le_dec (kl + 8) (2 ^ 32)) as [Hlt | Hge]; [exact Hlt |].
    exfalso. unfold uint32 in Hlo.
    replace ((kl + 8) mod 2 ^ 32) with (kl + 8 - 2 ^ 32) in Hlo
      by (apply Z.mod_unique with (q := 1); lia).
    lia. }
  rewrite (uint32_small (kl + 8)) in * by lia.
  cbn [elems] in H. fold all in H.
  assert (Hcap : scap input = len all) by (unfold scap, all; now rewrite len_app).
  rewrite Hcap in Hhi.
  replace (kl + 8 - 8) with kl in H by lia.
  change (Z.to_nat 8) with 8%nat in H.
  rewrite copy_firstn in H
    by (unfold len in *; rewrite length_skipn; lia).
  set (k := firstn (Z.to_nat kl) (skipn 8 all)) in *.
  assert (Hk : len k = kl).
  { unfold k, len. rewrite length_firstn, length_skipn. unfold len in Hhi. lia. }
  (* typeValue := input[kl+8] *)
  unfold index in H.
  destruct ((0 <=? kl + 8) && (kl + 8 <? slen input)) eqn:Ei; [| discriminate H].
  bool_to_prop_in Ei. destruct Ei as [_ Htag].
  destruct (nth_error (elems input) (Z.to_nat (kl + 8))) as [t |] eqn:Et;
    [| discriminate H].
  (* the backing array, cut at the fields *)
  set (h := firstn 8 all).
  assert (Hh : length h = 8%nat).
  { unfold h. rewrite length_firstn. unfold len in Hhi. lia. }
  assert (Hh4 : skipn 4 h = firstn 4 (skipn 4 (elems input))).
  { unfold h, all. rewrite skipn_firstn_comm. change (8 - 4)%nat with 4%nat.
    apply firstn_skipn_app. lia. }
  assert (Hall : all = h ++ k ++ t :: skipn (S (Z.to_nat (kl + 8))) all).
  { unfold h, k. rewrite <- (firstn_skipn 8 all) at 1. f_equal.
    rewrite <- (firstn_skipn (Z.to_nat kl) (skipn 8 all)) at 1. f_equal.
    rewrite skipn_skipn.
    replace (Z.to_nat kl + 8)%nat with (Z.to_nat (kl + 8)) by lia.
    apply nth_error_skipn. unfold all. rewrite nth_error_app1; [exact Et |].
    unfold slen, len in Htag. lia. }
  set (rest := skipn (S (Z.to_nat (kl + 8))) all) in *.
  destruct (operators_cases t) as [[-> Hop] | [[-> Hop] | (_ & _ & Hop)]];
    rewrite Hop in H; [| | discriminate H].
  - (* stringOperator.Decode *)
    cbn [Decode stringOperator.self] in H. unfold stringOperator.Decode in H.
    cbn [key set_key] in H. rewrite Hk in H. unfold TYPE_SIZE in H.
    unfold slice_from in H.
    destruct ((0 <=? kl + 1 + 8) && (kl + 1 + 8 <=? slen input)) eqn:E9;
      [| discriminate H].
    cbn [bind elems] in H. unfold binary.Uint32 in H.
    destruct (4 <=? len (skipn (Z.to_nat (kl + 1 + 8)) (elems input))) eqn:E13;
      [| discriminate H].
    cbn [bind] in H. bool_to_prop_in E9. bool_to_prop_in E13.
    unfold len in E13. rewrite length_skipn in E13.
    set (hdr := firstn 4 (skipn (Z.to_nat (kl + 1 + 8)) (elems input))) in *.
    assert (Hhdr : length hdr = 4%nat).
    { unfold hdr. rewrite length_firstn, length_skipn. lia. }
    pose proof (le_combine_bound hdr) as Hvl. rewrite Hhdr in Hvl.
    set (vl := le_combine hdr) in *.
    unfold slice_range in H. rewrite Hcap in H.
    destruct ((0 <=? kl + 1 + 12) && (kl + 1 + 12 <=? kl + 1 + 12 + vl)
              && (kl + 1 + 12 + vl <=? len all)) eqn:Ev; [| discriminate H].
    bool_to_prop_in Ev. destruct Ev as [_ Hv].
    cbn [elems] in H. fold all in H.
    replace (kl + 1 + 12 + vl - (kl + 1 + 12)) with vl in H by lia.
    rewrite copy_firstn in H by (unfold len in *; rewrite length_skipn; lia).
    injection H as <-. cbn [key value valueType set_value set_key].
    split; [| split; [rewrite Hk; exact Htag | reflexivity]].
    exists h, STRING_TYPE, rest. split; [exact Hh |].
    split; [now rewrite Hh4 |]. split; [exact Hall |].
    left. split; [reflexivity |].
    exists hdr, (skipn (Z.to_nat vl) (skipn (Z.to_nat (kl + 1 + 12)) all)).
    split; [exact Hhdr |]. split.
    { unfold len. rewrite length_firstn, length_skipn. unfold len in Hv. lia. }
    rewrite firstn_skipn.
    assert (Hhdr' : hdr = firstn 4 rest).
    { unfold hdr, rest, all.
      replace (S (Z.to_nat (kl + 8))) with (Z.to_nat (kl + 1 + 8)) by lia.
      symmetry. apply firstn_skipn_app. unfold slen, len in E9. lia. }
    rewrite Hhdr'.
    replace (skipn (Z.to_nat (kl + 1 + 12)) all) with (skipn 4 rest).
    + now rewrite firstn_skipn.
    + unfold rest. rewrite skipn_skipn. f_equal. lia.
  - (* int64Operator.Decode *)
    cbn [Decode int64Operator.self] in H. unfold int64Operator.Decode in H.
    cbn [key set_key] in H. rewrite Hk in H. unfold TYPE_SIZE in H.
    unfold slice_range in H. rewrite Hcap in H.
    destruct ((0 <=? kl + 1 + 8) && (kl + 1 + 8 <=? kl + 1 + 16)
              && (kl + 1 + 16 <=? len all)) eqn:Ev; [| discriminate H].
    bool_to_prop_in Ev. destruct Ev as [_ Hv].
    cbn [bind elems] in H. fold all in H.
    replace (kl + 1 + 16 - (kl + 1 + 8)) with 8 in H by lia.
    change (Z.to_nat 8) with 8%nat in H.
    replace (skipn (Z.to_nat (kl + 1 + 8)) all) with rest in H
      by (unfold rest; f_equal; lia).
    assert (Hx : length (firstn 8 rest) = 8%nat).
    { unfold rest. rewrite length_firstn, length_skipn. unfold len in Hv. lia. }
    unfold binary.Uint64 in H. unfold len in H. rewrite Hx in H.
    change (8 <=? Z.of_nat 8) with true in H. cbv iota in H.
    rewrite firstn_firstn in H. change (Nat.min 8 8) with 8%nat in H.
    injection H as <-. cbn [key value valueType set_value set_key].
    split; [| split; [rewrite Hk; exact Htag | reflexivity]].
    exists h, INT64_TYPE, rest. split; [exact Hh |].
    split; [now rewrite Hh4 |]. split; [exact Hall |].
    right. split; [reflexivity |].
    exists (firstn 8 rest), (skipn 8 rest).
    split; [exact Hx |]. split; [now rewrite firstn_skipn | reflexivity].
Qed.

(** X20. What a successful [Entry.Decode] has found, on any buffer: the
    backing array of the input (its bytes up to the capacity) starts with 8
    bytes of header, the key stored (as long as the last 4 header bytes
    say) and a registered tag, which lies inside the length of the input;
    under the tag 0 a 4-byte length and the value stored follow, under the
    tag 1 the 8 bytes of the integer whose decimal form is the value stored.
    The type tag of the target is as it was. *)
Theorem Decode_reads (input : slice) (e e' : Entry) :
  Entry_Decode input e = (e', Ok tt) ->
  record_at (elems input ++ spare input) (key e') (value e')
  /\ len (key e') + 8 < slen input
  /\ valueType e' = valueType e.
Proof. apply Entry_Decode_record_at. Qed.

Lemma Decode_reads_witness :
  record_at (stream [counter; alice]) (str "ctr"%string) (str "42"%string).
Proof.
  destruct (Decode_reads (whole (stream [counter; alice])) zeroEntry
              (mkEntry (str "ctr"%string) Byte.x00 (str "42"%string))) as [H _].
  - vm_compute. reflexivity.
  - exact H.
Defined.

(** ** The two registries *)

Lemma ToByte_cases (name : list byte) :
  (name = str "string"%string /\ ToByte name = STRING_TYPE)
  \/ (name = str "int64"%string /\ ToByte name = INT64_TYPE)
  \/ (name <> str "string"%string /\ name <> str "int64"%string
      /\ ToByte name = Byte.x00).
Proof.
  destruct (list_eq_dec Byte.byte_eq_dec name (str "string"%string)) as [-> | Hs];
    [left; split; reflexivity |].
  destruct (list_eq_dec Byte.byte_eq_dec name (str "int64"%string)) as [-> | Hi];
    [right; left; split; reflexivity |].
  right; right. split; [exact Hs | split; [exact Hi |]].
  unfold ToByte. cbn [find typeToByte fst snd].
  rewrite !(bytes_eqb_neq _ name) by congruence. reflexivity.
Qed.

(** X21. The map of the type names and the map of the operators agree, in
    whatever order a run visits the first: a tag has an operator exactly
    when [ToType] gives it a name, and [ToByte] leads from that name back to
    the tag.  In the other direction [ToType(ToByte(name))] is [name]
    exactly for the two registered names: every other name comes back as
    "string". *)
Theorem registries_agree (order : list (list byte * byte)) (t : byte) (name : list byte) :
  Permutation typeToByte order ->
  (operators t = None <-> ToType_in order t = [])
  /\ (operators t <> None -> ToByte (ToType_in order t) = t)
  /\ (ToType_in order (ToByte name) = name
      <-> name = str "string"%string \/ name = str "int64"%string)
  /\ (name <> str "string"%string -> name <> str "int64"%string ->
      ToType_in order (ToByte name) = str "string"%string).
Proof.
  intros Hord. destruct (ToType_in_registered order Hord) as (Hs & Hi & Hno).
  split; [| split; [| split]].
  - destruct (operators_cases t) as [[-> Hop] | [[-> Hop] | (H0 & H1 & Hop)]];
      rewrite Hop.
    + rewrite Hs. split; discriminate.
    + rewrite Hi. split; discriminate.
    + rewrite (Hno t H0 H1). split; reflexivity.
  - destruct (operators_cases t) as [[-> Hop] | [[-> Hop] | (H0 & H1 & Hop)]];
      intros Hsome.
    + rewrite Hs. reflexivity.
    + rewrite Hi. reflexivity.
    + contradiction.
  - destruct (ToByte_cases name) as [[-> ->] | [[-> ->] | (Hn0 & Hn1 & ->)]].
    + rewrite Hs. split; [now left | reflexivity].
    + rewrite Hi. split; [now right | reflexivity].
    + change Byte.x00 with STRING_TYPE. rewrite Hs. split.
      * intros Heq. now left.
      * intros [-> | ->]; contradiction.
  - intros Hn0 Hn1.
    destruct (ToByte_cases name) as [[-> _] | [[-> _] | (_ & _ & ->)]];
      [contradiction | contradiction |].
    exact Hs.
Qed.

Lemma registries_agree_witness :
  ToType_in [(str "int64"%string, INT64_TYPE); (str "string"%string, STRING_TYPE)]
    (ToByte (str "float64"%string)) = str "string"%string.
Proof.
  destruct (registries_agree
              [(str "int64"%string, INT64_TYPE); (str "string"%string, STRING_TYPE)]
              Byte.x07 (str "float64"%string)) as (_ & _ & _ & H).
  - apply perm_swap.
  - apply H; discriminate.
Defined.

(** ** When Decode panics *)

(** X22. [Entry.Decode] panics only with an index or slice-bounds fault or
    on the nil operator of an unregistered tag.  When it panics it has not
    touched the value and the type tag of its target; the key may have been
    overwritten by then. *)
Theorem Decode_panic_kinds (input : slice) (e e' : Entry) (p : panic) :
  Entry_Decode input e = (e', Panic p) ->
  (bounds_panic p \/ p = NilDereference)
  /\ value e' = value e /\ valueType e' = valueType e.
Proof.
  unfold Entry_Decode, slice_from, slice_range, index, binary.Uint32. intros H.
  destruct ((0 <=? 4) && (4 <=? slen input)); cbn [bind elems] in H;
    [| injection H as <- <-; split; [left; now right | split; reflexivity]].
  destruct (4 <=? len (skipn (Z.to_nat 4) (elems input))); cbn [bind] in H;
    [| injection H as <- <-; split; [left; now left | split; reflexivity]].
  destruct ((0 <=? 8) && _ && _);
    [| injection H as <- <-; split; [left; now right | split; reflexivity]].
  destruct ((0 <=? _) && (_ <? slen input));
    [| injection H as <- <-; split; [left; now left | split; reflexivity]].
  destruct (nth_error _ _) as [t |];
    [| injection H as <- <-; split; [left; now left | split; reflexivity]].
  destruct (operators_cases t) as [[_ Hop] | [[_ Hop] | (_ & _ & Hop)]];
    rewrite Hop in H; cbn [Decode stringOperator.self int64Operator.self] in H.
  - unfold stringOperator.Decode, slice_from, slice_range, binary.Uint32 in H.
    destruct ((0 <=? _) && (_ <=? slen input)); cbn [bind elems] in H;
      [| injection H as <- <-; split; [left; now right | split; reflexivity]].
    destruct (4 <=? len _); cbn [bind] in H;
      [| injection H as <- <-; split; [left; now left | split; reflexivity]].
    destruct ((0 <=? _) && _ && _); [discriminate H |].
    injection H as <- <-; split; [left; now right | split; reflexivity].
  - unfold int64Operator.Decode, slice_range, binary.Uint64 in H.
    destruct ((0 <=? _) && _ && _); cbn [bind elems] in H;
      [| injection H as <- <-; split; [left; now right | split; reflexivity]].
    destruct (8 <=? len _); cbn [bind] in H; [discriminate H |].
    injection H as <- <-; split; [left; now left | split; reflexivity].
  - injection H as <- <-. split; [now right | split; reflexivity].
Qed.

Lemma Decode_panic_kinds_witness :
  exists e' p,
    Entry_Decode tag7 alice = (e', Panic p)
    /\ (bounds_panic p \/ p = NilDereference)
    /\ value e' = str "alice"%string /\ valueType e' = STRING_TYPE.
Proof.
  destruct (Entry_Decode tag7 alice) as [e' [[] | p]] eqn:Hdec;
    [vm_compute in Hdec; discriminate Hdec |].
  exists e', p. split; [reflexivity |].
  exact (Decode_panic_kinds tag7 alice e' p Hdec).
Defined.

(** ** The two readers of the format agree *)

Lemma record_at_read (all more after k v v' : list byte) :
  record_at all k v -> record_read (all ++ more) after v' -> v = v'.
Proof.
  intros (h & t & rest & Hh & Hk & Hall & Hcase) (h' & k' & t' & Hh' & Hk' & Hcase').
  assert (Hcut : forall X, all ++ more = h' ++ k' ++ t' :: X ->
                 h' = h /\ k' = k /\ t' = t /\ X = rest ++ more).
  { intros X HX. rewrite Hall in HX.
    replace ((h ++ k ++ t :: rest) ++ more) with (h ++ k ++ t :: rest ++ more) in HX
      by (rewrite <- ?app_assoc; cbn [app]; rewrite <- ?app_assoc; reflexivity).
    apply app_eq_length in HX; [| congruence].
    destruct HX as [<- HX]. rewrite <- Hk in Hk'.
    apply app_eq_length in HX; [| unfold len in Hk'; lia].
    destruct HX as [<- HX]. injection HX as <- <-. repeat split. }
  destruct Hcase' as [(Ht' & hdr' & Hl' & Hv' & Hb) | (Ht' & Hb & _ & Hv')];
    destruct (Hcut _ Hb) as (_ & _ & Htt & HX); subst t';
    destruct Hcase as [(Ht & hdr & tail & Hl & Hv & Hrest) | (Ht & x & tail & Hx & Hrest & Hv)];
    try (rewrite Ht in Htt; discriminate Htt).
  - rewrite Hrest in HX.
    replace ((hdr ++ v ++ tail) ++ more) with (hdr ++ v ++ tail ++ more) in HX
      by (rewrite <- ?app_assoc; reflexivity).
    apply app_eq_length in HX; [| congruence].
    destruct HX as [<- HX]. rewrite <- Hv in Hv'.
    apply app_eq_length in HX; [| unfold len in Hv'; lia].
    symmetry. apply HX.
  - rewrite Hv, Hv', HX, Hrest, <- app_assoc, firstn_app_exact by exact Hx.
    reflexivity.
Qed.

(** X23. [readValue] and [Entry.Decode] agree on every input, not only on
    what [Encode] has written: when [Decode] succeeds on a buffer and
    [readValue] succeeds on a reader whose stream starts with the bytes of
    that buffer (up to its capacity), the value that [readValue] returns is
    the value that [Decode] has stored. *)
Theorem readValue_agrees_with_Decode (order : list (list byte * byte))
    (input : slice) (e e' : Entry) (b b' : bufio.Reader) (more : list byte)
    (out : output) :
  bufio.wf b ->
  bufio.remaining b = (elems input ++ spare input) ++ more ->
  Entry_Decode input e = (e', Ok tt) ->
  readValue_in order b = Ok (out, None, b') ->
  o_value out = value e'.
Proof.
  intros Hwf Hstream Hdec Hrv.
  destruct (Entry_Decode_record_at input e e' Hdec) as (Hat & _).
  pose proof (readValue_in_spec order b Hwf) as H.
  rewrite Hrv in H. destruct H as (_ & _ & _ & H).
  specialize (H eq_refl). rewrite Hstream in H.
  symmetry. exact (record_at_read _ _ _ _ _ _ Hat H).
Qed.

Lemma readValue_agrees_with_Decode_witness :
  exists out b',
    readValue (bufio.NewReaderSize [io.Data (stream [counter; alice])] 64)
    = Ok (out, None, b')
    /\ o_value out = str "42"%string.
Proof.
  destruct (readValue (bufio.NewReaderSize [io.Data (stream [counter; alice])] 64))
    as [[[out [e |]] b'] |] eqn:Hrv; try (vm_compute in Hrv; discriminate).
  exists out, b'. split; [reflexivity |].
  apply (readValue_agrees_with_Decode typeToByte (whole (encoded counter)) zeroEntry
           (mkEntry (str "ctr"%string) Byte.x00 (str "42"%string))
           (bufio.NewReaderSize [io.Data (stream [counter; alice])] 64) b'
           (encoded alice) out).
  - split; vm_compute; lia.
  - vm_compute. reflexivity.
  - vm_compute. reflexivity.
  - exact Hrv.
Defined.
